(** Verification of the job-creation core of simulacra
    (src/simulacra/cluster/job_creation.py and the scripts that drive it),
    with the spherical harmonics of src/simulacra/math.py.

    The Python code is embedded shallowly: Python objects live in an explicit
    heap, so that aliasing between the dictionaries built by
    [expand_parameters] is visible; console and filesystem effects are
    threaded through a state monad whose results may be exceptions. *)

From stdpp Require Import base option list strings pretty gmap.
From Stdlib Require Import ZArith Lia Ascii.

(** * Results, exceptions and the state monad *)

Inductive exn :=
| TypeError
| AttributeError
| ValueError (msg : string)
| EOFError
| FileNotFoundError
| FileExistsError
| IsADirectoryError
| UnpicklingError
| SerializationError
| SystemExit (code : Z).

Global Instance exn_eq_dec : EqDecision exn.
Proof. solve_decision. Defined.

(** [SystemExit] derives from [BaseException] only: a handler written
    [except Exception] lets it through. *)
Definition is_Exception (e : exn) : bool :=
  match e with
  | SystemExit _ => false
  | _ => true
  end.

(** [Stuck] is the model's own verdict, not a Python outcome: a run that has
    no end in the model (recursion budget used up, a reference that points
    outside the heap, a prompt that waits for input that never comes). *)
Inductive result (A : Type) :=
| Ok (a : A)
| Raise (e : exn)
| Stuck.
Arguments Ok {A} a.
Arguments Raise {A} e.
Arguments Stuck {A}.

Global Instance result_eq_dec {A} `{EqDecision A} : EqDecision (result A).
Proof. solve_decision. Defined.

Definition M (S A : Type) : Type := S -> result A * S.

Global Instance M_ret {S} : MRet (M S) := fun A a s => (Ok a, s).

Global Instance M_bind {S} : MBind (M S) := fun A B f m s =>
  match m s with
  | (Ok a, s') => f a s'
  | (Raise e, s') => (Raise e, s')
  | (Stuck, s') => (Stuck, s')
  end.

Definition get {S} : M S S := fun s => (Ok s, s).
Definition raise {S A} (e : exn) : M S A := fun s => (Raise e, s).
Definition stuck {S A} : M S A := fun s => (Stuck, s).

(** A pure computation that may fail, run inside the monad. *)
Definition lift {S A} (r : result A) : M S A := fun s => (r, s).

(** [try: body / except <catches> as e: handler(e)] *)
Definition try_except {S A} (body : M S A) (catches : exn -> bool)
    (handler : exn -> M S A) : M S A :=
  fun s =>
    match body s with
    | (Raise e, s') => if catches e then handler e s' else (Raise e, s')
    | r => r
    end.

(** [for x in xs: body(x)] *)
Fixpoint for_each {S A} (xs : list A) (body : A -> M S unit) : M S unit :=
  match xs with
  | [] => mret tt
  | x :: xs' => body x ;; for_each xs' body
  end.

(** [[f(x) for x in xs]] *)
Fixpoint list_comp {S A B} (xs : list A) (f : A -> M S B) : M S (list B) :=
  match xs with
  | [] => mret []
  | x :: xs' => y ← f x; ys ← list_comp xs' f; mret (y :: ys)
  end.

(** A loop that rebinds one variable: [for x in xs: acc = step(acc, x)]. *)
Fixpoint for_fold {S A B} (step : B -> A -> M S B) (acc : B) (xs : list A)
  : M S B :=
  match xs with
  | [] => mret acc
  | x :: xs' => acc' ← step acc x; for_fold step acc' xs'
  end.

(** * Python objects *)

Module Py.

Abbreviation addr := nat (only parsing).

(** A value is an immutable scalar or a reference to a heap object. *)
Inductive val :=
| VNone
| VBool (b : bool)
| VInt (n : Z)
| VStr (s : string)
| VRef (a : addr).

(** The objects the parameters of a job are made of: lists, tuples, dicts
    with string keys, plain instances of a class (their attributes; no
    [__iter__], no [__len__]) and generators (opaque: only their identity
    matters here). *)
Inductive obj :=
| OList (items : list val)
| OTuple (items : list val)
| ODict (entries : list (string * val))
| OInstance (attrs : list (string * val))
| OGen.

Abbreviation heap := (list obj) (only parsing).
Abbreviation memo := (gmap nat nat) (only parsing).

Global Instance val_eq_dec : EqDecision val.
Proof. solve_decision. Defined.

Global Instance obj_eq_dec : EqDecision obj.
Proof. solve_decision. Defined.

(** The values an object holds, and the same object holding others. *)
Definition children (o : obj) : list val :=
  match o with
  | OList xs | OTuple xs => xs
  | ODict es | OInstance es => es.*2
  | OGen => []
  end.

Definition with_children (o : obj) (ys : list val) : obj :=
  match o with
  | OList _ => OList ys
  | OTuple _ => OTuple ys
  | ODict es => ODict (zip es.*1 ys)
  | OInstance es => OInstance (zip es.*1 ys)
  | OGen => OGen
  end.

(** A new object lives at the next free address. *)
Definition alloc (o : obj) : M heap val :=
  fun h => (Ok (VRef (length h)), h ++ [o]).

(** ** Dictionaries with string keys, in insertion order *)

Fixpoint dict_get (k : string) (es : list (string * val)) : option val :=
  match es with
  | [] => None
  | (k', v) :: es' => if decide (k' = k) then Some v else dict_get k es'
  end.

Fixpoint dict_set (k : string) (v : val) (es : list (string * val))
  : list (string * val) :=
  match es with
  | [] => [(k, v)]
  | (k', v') :: es' =>
      if decide (k' = k) then (k, v) :: es' else (k', v') :: dict_set k v es'
  end.

(** [d[k] = v] *)
Definition setitem (d : val) (k : string) (v : val) : M heap unit :=
  fun h =>
    match d with
    | VRef a =>
        match h !! a with
        | Some (ODict es) => (Ok tt, <[a := ODict (dict_set k v es)]> h)
        | Some _ => (Raise TypeError, h)
        | None => (Stuck, h)
        end
    | _ => (Raise TypeError, h)
    end.

(** [d[k]] read in a heap, for statements about results. *)
Definition getitem (h : heap) (d : val) (k : string) : option val :=
  match d with
  | VRef a =>
      match h !! a with
      | Some (ODict es) => dict_get k es
      | _ => None
      end
  | _ => None
  end.


(** ** [copy.deepcopy]

    The copy of a container is created empty and entered in the memo before
    its elements are copied, so shared and cyclic structure is copied once.
    Scalars and strings are returned as they are. A generator has no
    [__deepcopy__] and cannot be reduced: [TypeError]. (For a tuple CPython
    copies the elements before it registers the copy, and hands back the
    original tuple when no element changed; tuples are immutable, so this
    only affects the identity of tuples.) The recursion budget decreases at
    each object entered. *)

Fixpoint copy_all (copy : val -> memo -> heap -> result (val * memo * heap))
    (xs : list val) (m : memo) (h : heap)
  : result (list val * memo * heap) :=
  match xs with
  | [] => Ok ([], m, h)
  | x :: xs' =>
      match copy x m h with
      | Ok (y, m1, h1) =>
          match copy_all copy xs' m1 h1 with
          | Ok (ys, m2, h2) => Ok (y :: ys, m2, h2)
          | Raise e => Raise e
          | Stuck => Stuck
          end
      | Raise e => Raise e
      | Stuck => Stuck
      end
  end.

Fixpoint deepcopy_rec (fuel : nat) (x : val) (m : memo) (h : heap)
  : result (val * memo * heap) :=
  match x with
  | VRef a =>
      match m !! a with
      | Some a' => Ok (VRef a', m, h)
      | None =>
          match h !! a with
          | None => Stuck
          | Some OGen => Raise TypeError
          | Some o =>
              match fuel with
              | 0 => Stuck
              | S fuel' =>
                  let a' := length h in
                  match copy_all (deepcopy_rec fuel') (children o)
                          (<[a := a']> m) (h ++ [with_children o []]) with
                  | Ok (ys, m2, h2) =>
                      Ok (VRef a', m2, <[a' := with_children o ys]> h2)
                  | Raise e => Raise e
                  | Stuck => Stuck
                  end
              end
          end
      end
  | _ => Ok (x, m, h)
  end.

(** [deepcopy(x)]: a fresh memo for each call. No object is entered twice,
    so a budget above the number of objects is never used up
    (see [PyFacts.deepcopy_spec]). *)
Definition deepcopy (x : val) : M heap val :=
  fun h =>
    match deepcopy_rec (S (length h)) x ∅ h with
    | Ok (y, _, h') => (Ok y, h')
    | Raise e => (Raise e, h)
    | Stuck => (Stuck, h)
    end.

(** ** The attributes [expand_parameters] asks for *)

Definition hasattr_iter (h : heap) (v : val) : bool :=
  match v with
  | VStr _ => true
  | VRef a =>
      match h !! a with
      | Some (OList _ | OTuple _ | ODict _ | OGen) => true
      | _ => false
      end
  | _ => false
  end.

Definition hasattr_len (h : heap) (v : val) : bool :=
  match v with
  | VStr _ => true
  | VRef a =>
      match h !! a with
      | Some (OList _ | OTuple _ | ODict _) => true
      | _ => false
      end
  | _ => false
  end.

Definition isinstance_str (v : val) : bool :=
  match v with
  | VStr _ => true
  | _ => false
  end.

Fixpoint chars (s : string) : list val :=
  match s with
  | EmptyString => []
  | String c s' => VStr (String c EmptyString) :: chars s'
  end.

(** What iterating over a sized value yields: the items of a list or tuple,
    the keys of a dict, the characters of a string. *)
Definition elements (h : heap) (v : val) : option (list val) :=
  match v with
  | VStr s => Some (chars s)
  | VRef a =>
      match h !! a with
      | Some (OList xs | OTuple xs) => Some xs
      | Some (ODict es) => Some (VStr <$> es.*1)
      | _ => None
      end
  | _ => None
  end.

(** [len(v)] *)
Definition len (v : val) : M heap nat :=
  fun h =>
    match elements h v with
    | Some xs => (Ok (length xs), h)
    | None => (Raise TypeError, h)
    end.

(** [list(v)] for a value that has been tested to be a sized iterable. *)
Definition iter (v : val) : M heap (list val) :=
  fun h =>
    match elements h v with
    | Some xs => (Ok xs, h)
    | None => (Raise TypeError, h)
    end.

(** [zip(xs, itertools.cycle(ys))]: [cycle] hands out the elements of [ys]
    once, then the saved elements again and again; over an empty [ys] it
    ends at once, and so does [zip]. *)
Fixpoint zip_cycle {A B} (xs : list A) (cur saved : list B) : list (A * B) :=
  match xs with
  | [] => []
  | x :: xs' =>
      match cur with
      | y :: cur' => (x, y) :: zip_cycle xs' cur' saved
      | [] =>
          match saved with
          | [] => []
          | y :: rest => (x, y) :: zip_cycle xs' rest saved
          end
      end
  end.

End Py.

(** * Parameters and their expansion (job_creation.py) *)

Module Expand.
Import Py.

(** The class [Parameter] ([Parameter] is a reserved word here). *)
Record Param := {
  name : string;
  value : val;
  expandable : bool
}.

(** The test of line 74: flagged expandable, iterable, not a string, sized. *)
Definition expands (h : heap) (par : Param) : bool :=
  expandable par && hasattr_iter h (value par)
  && negb (isinstance_str (value par)) && hasattr_len h (value par).

(** One turn of the loop over the parameters (lines 73 to 80). The
    comprehension of line 75 asks for [len(par.value)] once for each map;
    [zip] draws from [cycle(par.value)] while the loop of line 76 assigns,
    and these assignments only touch the maps just made, so the elements
    can be read before the loop starts. *)
Definition expand_step (dicts : list val) (par : Param)
  : M heap (list val) :=
  h ← get;
  if expands h par then
    dss ← list_comp dicts
            (fun d =>
               n ← len (value par);
               list_comp (seq 0 n) (fun _ => deepcopy d));
    let dicts := concat dss in
    vs ← iter (value par);
    for_each (zip_cycle dicts vs vs)
      (fun dv => setitem dv.1 (name par) dv.2);;
    mret dicts
  else
    for_each dicts (fun d => setitem d (name par) (value par));;
    mret dicts.

Definition expand_parameters (parameters : list Param)
  : M heap (list val) :=
  d0 ← alloc (ODict []);
  for_fold expand_step [d0] parameters.

(** The values a key takes across the returned maps, in output order. *)
Definition column (h : heap) (dicts : list val) (k : string)
  : list (option val) :=
  (fun d => getitem h d k) <$> dicts.

End Expand.

(** * The console and the filesystem *)

Module Console.

Abbreviation path := (list string) (only parsing).

(** What the program can see and change outside its own memory: the lines
    the user will type, what has been printed, the log records (they go to
    whatever handlers the caller installed, not to the files of a job), the
    directories and the regular files. *)
Record world := {
  stdin : list string;
  stdout : list string;
  log : list string;
  dirs : gset (list string);
  files : gmap (list string) string
}.

Global Instance world_eq_dec : EqDecision world.
Proof. solve_decision. Defined.

Definition with_stdin (l : list string) (w : world) : world :=
  {| stdin := l; stdout := stdout w; log := log w; dirs := dirs w;
     files := files w |}.
Definition with_stdout (l : list string) (w : world) : world :=
  {| stdin := stdin w; stdout := l; log := log w; dirs := dirs w;
     files := files w |}.
Definition with_log (l : list string) (w : world) : world :=
  {| stdin := stdin w; stdout := stdout w; log := l; dirs := dirs w;
     files := files w |}.
Definition with_dirs (d : gset (list string)) (w : world) : world :=
  {| stdin := stdin w; stdout := stdout w; log := log w; dirs := d;
     files := files w |}.
Definition with_files (f : gmap (list string) string) (w : world) : world :=
  {| stdin := stdin w; stdout := stdout w; log := log w; dirs := dirs w;
     files := f |}.

(** The filesystem part of the world, for before/after comparisons. *)
Definition snapshot (w : world) : gset (list string) * gmap (list string) string :=
  (dirs w, files w).

(** ** Strings *)

Definition nl : string := String (Ascii.ascii_of_nat 10) EmptyString.
Definition dq : string := String (Ascii.ascii_of_nat 34) EmptyString.

(** ['-' * n] *)
Fixpoint dashes (n : nat) : string :=
  match n with
  | 0 => EmptyString
  | S n' => String "-"%char (dashes n')
  end.

(** [s.replace(' ', '')] *)
Fixpoint remove_spaces (s : string) : string :=
  match s with
  | EmptyString => EmptyString
  | String c s' =>
      if Ascii.eqb c " "%char then remove_spaces s' else String c (remove_spaces s')
  end.

Definition lower_ascii (c : Ascii.ascii) : Ascii.ascii :=
  let n := Ascii.nat_of_ascii c in
  if (65 <=? n) && (n <=? 90) then Ascii.ascii_of_nat (n + 32) else c.

(** [s.lower()], on ASCII letters *)
Fixpoint lower (s : string) : string :=
  match s with
  | EmptyString => EmptyString
  | String c s' => String (lower_ascii c) (lower s')
  end.

(** [str(e)] *)
Definition exn_str (e : exn) : string :=
  match e with
  | ValueError msg => msg
  | EOFError => "EOF when reading a line"
  | SystemExit code => pretty code
  | _ => ""
  end.

(** ** Printing, reading, logging *)

Definition print (s : string) : M world unit :=
  fun w => (Ok tt, with_stdout (stdout w ++ [s]) w).

(** [input(prompt)]: the prompt is written, then a line is read; at the end
    of the input, [EOFError]. *)
Definition input (prompt : string) : M world string :=
  fun w =>
    let w' := with_stdout (stdout w ++ [prompt]) w in
    match stdin w with
    | [] => (Raise EOFError, w')
    | line :: rest => (Ok line, with_stdin rest w')
    end.

Definition logging (level msg : string) : M world unit :=
  fun w => (Ok tt, with_log (log w ++ [level +:+ ": " +:+ msg]) w).

(** ** Files and directories *)

Definition parent (p : path) : path := take (length p - 1) p.

Definition is_dir (w : world) (p : path) : bool :=
  bool_decide (p = []) || bool_decide (p ∈ dirs w).

(** [with path.open(mode = 'w') as file: file.write(content)] *)
Definition open_write (p : path) (content : string) : M world unit :=
  fun w =>
    if is_dir w p then (Raise IsADirectoryError, w)
    else if is_dir w (parent p) then
      (Ok tt, with_files (<[p := content]> (files w)) w)
    else (Raise FileNotFoundError, w).

(** [with path.open(mode = 'r') as file: file.read()] *)
Definition open_read (p : path) : M world string :=
  fun w =>
    if is_dir w p then (Raise IsADirectoryError, w)
    else
      match files w !! p with
      | Some content => (Ok content, w)
      | None => (Raise FileNotFoundError, w)
      end.

(** All the ancestors of [p] and [p] itself, shortest first. *)
Definition ancestors (p : path) : list path :=
  (fun n => take n p) <$> seq 1 (length p).

(** [Path(p).mkdir(parents = True, exist_ok = True)] *)
Definition mkdir_p (p : path) : M world unit :=
  fun w =>
    if bool_decide (Exists (fun q => is_Some (files w !! q)) (ancestors p))
    then (Raise FileExistsError, w)
    else (Ok tt, with_dirs (list_to_set (ancestors p) ∪ dirs w) w).

(** [shutil.rmtree(p, ignore_errors = True)] *)
Definition rmtree (p : path) : M world unit :=
  fun w =>
    (Ok tt,
     with_files (filter (fun kv => ~ p `prefix_of` kv.1) (files w))
       (with_dirs (filter (fun q => ~ p `prefix_of` q) (dirs w)) w)).

(** ** Asking the user (job_creation.py) *)

(** An answer is what the user typed, or the default, which the callers
    give as a string or as a boolean. *)
Inductive answer :=
| AStr (s : string)
| ABool (b : bool).

(** ['{}'.format(default)] *)
Definition format_answer (a : answer) : string :=
  match a with
  | AStr s => s
  | ABool true => "True"
  | ABool false => "False"
  end.

(** [trimmed in ('true', 't', 'yes', 'y', '1', 'on', True)] *)
Definition in_true (a : answer) : bool :=
  match a with
  | AStr s => bool_decide (s ∈ ["true"; "t"; "yes"; "y"; "1"; "on"])
  | ABool b => b
  end.

(** [trimmed in ('false', 'f', 'no', 'n', '0', 'off', False)] *)
Definition in_false (a : answer) : bool :=
  match a with
  | AStr s => bool_decide (s ∈ ["false"; "f"; "no"; "n"; "0"; "off"])
  | ABool b => negb b
  end.

(** What becomes of a line typed at the prompt. *)
Definition trim (default : answer) (input_str : string) : answer :=
  let trimmed := lower (remove_spaces input_str) in
  if decide (trimmed = "") then default else AStr trimmed.

Definition bool_prompt (question : string) (default : answer) : string :=
  question +:+ " [Default: " +:+ format_answer default +:+ "] > ".

(** [ask_for_bool] calls itself after every answer it does not understand
    and after every failure of [input]. Each retry but the one at the end
    of the input consumes a line, so a budget of one retry per line is never
    used up before the input is; at the end of the input the retries would
    go on for ever, and the model is [Stuck]. *)
Fixpoint ask_for_bool_rec (fuel : nat) (question : string) (default : answer)
  : M world bool :=
  try_except
    (input_str ← input (bool_prompt question default);
     let trimmed := trim default input_str in
     logging "DEBUG"
       ("Got input from stdin for question " +:+ dq +:+ question +:+ dq +:+ ": "
        +:+ input_str);;
     if in_true trimmed then mret true
     else if in_false trimmed then mret false
     else raise (ValueError
                   ("Invalid answer to question " +:+ dq +:+ question +:+ dq)))
    is_Exception
    (fun e =>
       print (exn_str e);;
       match fuel with
       | 0 => stuck
       | S fuel' => ask_for_bool_rec fuel' question default
       end).

Definition ask_for_bool (question : string) (default : answer) : M world bool :=
  fun w => ask_for_bool_rec (length (stdin w)) question default w.

(** [abort_job_creation]: [sys.exit(0)] raises [SystemExit]. *)
Definition abort_job_creation {A} : M world A :=
  print "Aborting job creation...";;
  logging "CRITICAL" "Aborted job creation";;
  raise (SystemExit 0).

End Console.

(** * Creating and processing a job *)

Module Job.
Import Console.

(** ** The steps of job_creation.py *)

Section Specifications.

(** [sims.Specification] is not part of the sources at hand: a
    specification is opaque, [info] stands for [str(spec.info())] and
    [save] for [spec.save(target_dir = ...)], which may write files and
    may raise. *)
Variable Spec : Type.
Variable info : Spec -> string.
Variable save : Spec -> list string -> M world unit.

(** [specifications[0:check]] *)
Definition slice_to (specifications : list Spec) (check : Z) : list Spec :=
  if (0 <=? check)%Z then take (Z.to_nat check) specifications
  else take (length specifications - Z.to_nat (- check)) specifications.

Definition check_question (check : Z) : string :=
  "Do the first " +:+ pretty check +:+ " Specifications look correct?".

Definition specification_check (specifications : list Spec) (check : Z)
  : M world unit :=
  print (dashes 20);;
  for_each (slice_to specifications check)
    (fun s => print (nl +:+ info s +:+ nl);; print (dashes 20));;
  print ("Generated " +:+ pretty (length specifications)
         +:+ " Specifications");;
  check ← ask_for_bool (check_question check) (AStr "No");
  if negb check then abort_job_creation else mret tt.

Definition create_job_subdirs (job_dir : path) (subdirs : list string)
  : M world unit :=
  print "Creating job directory and subdirectories...";;
  mkdir_p job_dir;;
  for_each subdirs (fun subdir => mkdir_p (job_dir ++ [subdir])).

Definition save_specifications (specifications : list Spec) (job_dir : path)
  : M world unit :=
  print "Saving Specifications...";;
  for_each specifications (fun spec => save spec (job_dir ++ ["inputs"]));;
  logging "DEBUG" "Saved Specifications".

Definition write_specifications_info_to_file (specifications : list Spec)
    (job_dir : path) : M world (list string) :=
  print "Writing Specification info to file...";;
  let path := job_dir ++ ["specifications.txt"] in
  let text := String.concat nl (info <$> specifications) in
  open_write path text;;
  logging "DEBUG" "Wrote Specification information to file";;
  mret path.

(** [repr(param)] is kept abstract. *)
Definition write_parameters_info_to_file {P : Type} (repr : P -> string)
    (parameters : list P) (job_dir : path) : M world unit :=
  print "Writing parameters to file...";;
  let path := job_dir ++ ["parameters.txt"] in
  let text := String.concat nl (repr <$> parameters) in
  open_write path text;;
  logging "DEBUG" "Wrote parameter information to file".

End Specifications.

Section JobInfo.

(** [pickle] is a library: [pickle_dumps] and [pickle_loads] stand for
    what [pickle.dump(..., protocol = -1)] writes and [pickle.load]
    reads back. *)
Variable JobInfo : Type.
Variable pickle_dumps : JobInfo -> string.
Variable pickle_loads : string -> result JobInfo.

Definition info_path (job_dir : path) : list string := job_dir ++ ["info.pkl"].

Definition write_job_info_to_file (job_info : JobInfo) (job_dir : path)
  : M world unit :=
  let path := info_path job_dir in
  open_write path (pickle_dumps job_info).

Definition load_job_info_from_file (job_dir : path) : M world JobInfo :=
  let path := info_path job_dir in
  content ← open_read path;
  lift (pickle_loads content).

End JobInfo.

(** ** The end of the job-creation script (create_job_test.py, from the
  check of the specifications on). The script calls the functions by
  their older names; [submit_check], [format_chtc_submit_string] and
  [write_submit_file] are not among the sources and are taken as given. *)

Section Script.

Variable Spec : Type.
Variable info : Spec -> string.
Variable save : Spec -> list string -> M world unit.
Variable P : Type.
Variable repr : P -> string.
Variable JobInfo : Type.
Variable pickle_dumps : JobInfo -> string.
Variable submit_check : string -> M world unit.
Variable write_submit_file : string -> list string -> M world unit.

(** Everything after the comment [# point of no return]. *)
Definition materialize (job_dir : path) (specs : list Spec)
    (parameters : list P) (job_info : JobInfo) (submit_string : string)
  : M world unit :=
  rmtree job_dir;;
  create_job_subdirs job_dir ["inputs"; "outputs"; "logs"];;
  save_specifications Spec save specs job_dir;;
  write_specifications_info_to_file Spec info specs job_dir;;
  write_parameters_info_to_file repr parameters job_dir;;
  write_job_info_to_file JobInfo pickle_dumps job_info job_dir;;
  write_submit_file submit_string job_dir.

Definition create_job (job_dir : path) (specs : list Spec)
    (parameters : list P) (job_info : JobInfo) (submit_string : string)
  : M world unit :=
  specification_check Spec info specs 3;;
  submit_check submit_string;;
  materialize job_dir specs parameters job_info submit_string.

(** The beginning of the script: the question about an existing job. *)
Definition overwrite_gate (job_dir : path) (overwrite : bool) : M world unit :=
  w ← get;
  if is_dir w job_dir || bool_decide (is_Some (files w !! job_dir)) then
    if negb overwrite then
      yes ← ask_for_bool "A job with that name already exists. Overwrite?"
              (AStr "No");
      if negb yes then abort_job_creation else mret tt
    else mret tt
  else mret tt.

End Script.

(** ** Getting hold of the job processor (process_job_test.py, lines
  20 to 23; sync_and_process.py, lines 38 to 43) *)

Section Processor.

Variable Processor : Type.
Variable unpickle : string -> result Processor.
Variable new_processor : string -> list string -> M world Processor.

(** Modelled from the spec: [JobProcessor.load] is missing from the
    sources; it reads the persisted record at the path it is given and
    deserializes it, so it fails with [FileNotFoundError] when there is no
    such file and with the error of the deserializer when the record is
    corrupt. *)
Definition load_processor (p : path) : M world Processor :=
  content ← open_read p;
  lift (unpickle content).

Definition processor_path (job_dir : path) (job_name : string) : list string :=
  job_dir ++ [job_name +:+ ".job"].

(** [try: jp = load(path) / except FileNotFoundError: jp = new(...)] *)
Definition obtain (load : list string -> M world Processor)
    (job_dir : path) (job_name : string) : M world Processor :=
  try_except (load (processor_path job_dir job_name))
    (fun e => bool_decide (e = FileNotFoundError))
    (fun _ => new_processor job_name job_dir).

End Processor.

End Job.

(** * The other prompts of job_creation.py *)

Module Prompts.
Import Console.

Section Prompts.

(** What a prompt hands back is any Python value: [V] stands for them and
    [str_of] for [str(v)], which is also what ['{}'.format(v)] prints.
    [cast_to] is the type the caller asks for, called on the trimmed line,
    and [eval] is the builtin, for expressions whose evaluation leaves the
    terminal and the files alone; both return a value or raise. *)
Variable V : Type.
Variable str_of : V -> string.
Variable cast_to : string -> result V.
Variable eval : string -> result V.

Definition input_prompt (question : string) (default : V) : string :=
  question +:+ " [Default: " +:+ str_of default +:+ "] > ".

(** [ask_for_input] (lines 85 to 116). [input] is called outside the
    [try]: at the end of the input [EOFError] leaves the function. The
    function calls itself from the handler, after a line has been read, so
    a budget of one call per line is never used up (the limit Python puts
    on the depth of the calls is left out). [inl] is the value of the [try]
    block, [inr] what the handler returns. *)
Fixpoint ask_for_input_rec (fuel : nat) (question : string) (default : V)
  : M world V :=
  input_str ← input (input_prompt question default);
  let trimmed := remove_spaces input_str in
  if decide (trimmed = "") then mret default
  else
    attempt ← try_except
      (out ← lift (cast_to trimmed); mret (inl out))
      is_Exception
      (fun e =>
         print (exn_str e);;
         match fuel with
         | 0 => stuck
         | S fuel' =>
             v ← ask_for_input_rec fuel' question default; mret (inr v)
         end);
    match attempt with
    | inr v => mret v
    | inl out =>
        logging "DEBUG"
          ("Got input from stdin for question " +:+ dq +:+ question +:+ dq
           +:+ ": " +:+ str_of out);;
        mret out
    end.

Definition ask_for_input (question : string) (default : V) : M world V :=
  fun w => ask_for_input_rec (length (stdin w)) question default w.

Definition eval_prompt (question : string) (default : V) : string :=
  question +:+ " [Default: " +:+ str_of default +:+ "] (eval) > ".

(** [ask_for_eval] (lines 164 to 198): the line is evaluated as it was
    typed; only the test for an empty answer looks at the trimmed line. *)
Fixpoint ask_for_eval_rec (fuel : nat) (question : string) (default : V)
  : M world V :=
  input_str ← input (eval_prompt question default);
  let trimmed := remove_spaces input_str in
  let input_str := if decide (trimmed = "") then str_of default else input_str in
  logging "DEBUG"
    ("Got input from stdin for question " +:+ dq +:+ question +:+ dq
     +:+ ": " +:+ input_str);;
  try_except
    (lift (eval input_str))
    is_Exception
    (fun e =>
       print (exn_str e);;
       match fuel with
       | 0 => stuck
       | S fuel' => ask_for_eval_rec fuel' question default
       end).

Definition ask_for_eval (question : string) (default : V) : M world V :=
  fun w => ask_for_eval_rec (length (stdin w)) question default w.

End Prompts.

End Prompts.
(** * Processing a job (sync_and_process.py) *)

Module Sync.
Import Console Job.

Section ProcessJob.

(** [clu.JobProcessor.load], the class stored in the job information under
    ['job_processor_type'], [jp.process_job] and [jp.save] are not among
    the sources and are taken as given ([process] hands back the
    processor as [jp.process_job] leaves it); [cwd] is [os.getcwd()]. *)
Variable JobInfo : Type.
Variable Processor : Type.
Variable pickle_loads : string -> result JobInfo.
Variable load : list string -> M world Processor.
Variable job_processor_type :
  JobInfo -> string -> list string -> M world Processor.
Variable process : Processor -> M world Processor.
Variable save : Processor -> list string -> M world unit.
Variable cwd : list string.

(** [process_job] (lines 30 to 47). *)
Definition process_job (job_name : string) (jobs_dir : option (list string))
  : M world unit :=
  let jobs_dir := default cwd jobs_dir in
  let job_dir := jobs_dir ++ [job_name] in
  job_info ← load_job_info_from_file JobInfo pickle_loads job_dir;
  jp ← try_except
         (jp ← load (processor_path job_dir job_name);
          logging "INFO" ("Loaded existing job processor for job " +:+ job_name);;
          mret jp)
         (fun e => bool_decide (e = FileNotFoundError))
         (fun _ =>
            jp ← job_processor_type job_info job_name job_dir;
            logging "INFO" ("Created new job processor for job " +:+ job_name);;
            mret jp);
  jp ← process jp;
  save jp (cwd ++ ["job_processors"]).

End ProcessJob.

End Sync.
(** * How a parameter is written down (job_creation.py) *)

Module Repr.
Import Py Expand Console.

Section Repr.

(** [str] and [repr] of a value and [textwrap.wrap(text, width = 60)] come
    from Python and its library and are taken as given. *)
Variable str_val : list obj -> val -> string.
Variable repr_val : list obj -> val -> string.
Variable wrap : string -> list string.

(** [for v in value]: the elements of a sized iterable; [TypeError] for a
    value that has no [__iter__]. Going through a generator runs it, which
    the model cannot follow. *)
Definition iterate (h : list obj) (v : val) : result (list val) :=
  match elements h v with
  | Some vs => Ok vs
  | None =>
      match v with
      | VRef a =>
          match h !! a with
          | Some (OInstance _) => Raise TypeError
          | _ => Stuck
          end
      | _ => Raise TypeError
      end
  end.

(** [Parameter.__repr__] (lines 42 to 50). *)
Definition Parameter_repr (h : list obj) (par : Param) : result string :=
  if negb (expandable par) then
    Ok ("Parameter(name = " +:+ name par +:+ ", value = "
        +:+ str_val h (value par) +:+ ")")
  else
    let header :=
      "Parameter(name = " +:+ name par +:+ ", expandable = True, values =" in
    match iterate h (value par) with
    | Ok vs =>
        let val_text := wrap (String.concat ", " (repr_val h <$> vs)) in
        let out :=
          String.concat (nl +:+ "    ") ([header] ++ val_text) +:+ ")" in
        Ok out
    | Raise e => Raise e
    | Stuck => Stuck
    end.

(** [write_parameters_info_to_file] (lines 245 to 254) once more, this
    time with [repr(param)] spelled out ([Job] has it with a [repr] that
    cannot fail): [join] draws every [repr] from the generator before the
    file is opened. *)
Definition write_parameters_info_to_file_with_repr (h : list obj)
    (parameters : list Param) (job_dir : list string) : M world unit :=
  print "Writing parameters to file...";;
  let path := job_dir ++ ["parameters.txt"] in
  reprs ← list_comp parameters (fun param => lift (Parameter_repr h param));
  let text := String.concat nl reprs in
  open_write path text;;
  logging "DEBUG" "Wrote parameter information to file".

End Repr.

End Repr.
(** * Spherical harmonics (math.py) *)

Module Math.

(** The class [SphericalHarmonic] and its two slots; the quantum numbers
    are Python integers. *)
Record SphericalHarmonic := {
  _l : Z;
  _m : Z
}.

Inductive exception :=
| IllegalSphericalHarmonic (msg : string).

(** [SphericalHarmonic(l, m)]: the object, or the exception raised by
    [__init__] (lines 26 to 40). *)
Definition __init__ (l m : Z) : SphericalHarmonic + exception :=
  if negb (Z.abs m <=? l)%Z then
    inr (IllegalSphericalHarmonic
           ("invalid spherical harmonic: |m| = " +:+ pretty (Z.abs m)
            +:+ " must be less than l = " +:+ pretty l))
  else inl {| _l := l; _m := m |}.

Definition l (self : SphericalHarmonic) : Z := _l self.
Definition m (self : SphericalHarmonic) : Z := _m self.

Definition __str__ (self : SphericalHarmonic) : string :=
  "Y_(" +:+ pretty (l self) +:+ "," +:+ pretty (m self) +:+ ")".

Definition __repr__ (self : SphericalHarmonic) : string :=
  "SphericalHarmonic(l=" +:+ pretty (l self) +:+ ", m=" +:+ pretty (m self)
  +:+ ")".

Definition latex (self : SphericalHarmonic) : string :=
  "Y_{" +:+ pretty (m self) +:+ "}^{" +:+ pretty (l self) +:+ "}".

Definition _lm (self : SphericalHarmonic) : Z * Z := (l self, m self).

(** How Python compares two pairs: the first place where they differ
    decides; pairs that do not differ compare as [same]. *)
Definition tuple_compare (cmp : Z -> Z -> bool) (same : bool) (a b : Z * Z)
  : bool :=
  if negb (a.1 =? b.1)%Z then cmp a.1 b.1
  else if negb (a.2 =? b.2)%Z then cmp a.2 b.2
  else same.

(** [__eq__], for [other] a [SphericalHarmonic] (for anything else
    [isinstance] makes it [False]). *)
Definition __eq__ (self other : SphericalHarmonic) : bool :=
  ((_lm self).1 =? (_lm other).1)%Z && ((_lm self).2 =? (_lm other).2)%Z.

Definition __le__ (self other : SphericalHarmonic) : bool :=
  tuple_compare Z.leb true (_lm self) (_lm other).

Definition __ge__ (self other : SphericalHarmonic) : bool :=
  tuple_compare Z.geb true (_lm self) (_lm other).

Definition __lt__ (self other : SphericalHarmonic) : bool :=
  tuple_compare Z.ltb false (_lm self) (_lm other).

Definition __gt__ (self other : SphericalHarmonic) : bool :=
  tuple_compare Z.gtb false (_lm self) (_lm other).

End Math.
(** * Well-formed heaps and the graph of a deep copy *)

Module PySpec.
Import Py.

(** A value is well formed below [n] when it refers to no address from [n]
    on; a heap is closed when its objects refer to its own addresses only. *)
Definition val_ok (n : nat) (v : val) : Prop :=
  match v with
  | VRef a => a < n
  | _ => True
  end.

Definition obj_ok (n : nat) (o : obj) : Prop := Forall (val_ok n) (children o).

Definition closed (h : heap) : Prop := Forall (obj_ok (length h)) h.

Definition no_generator (h : heap) : Prop := Forall (fun o => o <> OGen) h.

(** The memo of a deep copy read as a renaming of addresses. *)
Definition rename (m : memo) (v : val) : val :=
  match v with
  | VRef a =>
      match m !! a with
      | Some a' => VRef a'
      | None => v
      end
  | _ => v
  end.

Definition covered (m : memo) (v : val) : Prop :=
  match v with
  | VRef a => is_Some (m !! a)
  | _ => True
  end.

(** The object at [a'] in [h'] is the object at [a] in [h], renamed. *)
Definition copied (m : memo) (h h' : heap) (a a' : nat) : Prop :=
  exists o, h !! a = Some o /\ o <> OGen /\ Forall (covered m) (children o) /\
    h' !! a' = Some (with_children o (rename m <$> children o)).

Definition memo_inj (m : memo) : Prop :=
  forall a b c, m !! a = Some c -> m !! b = Some c -> a = b.

Record copy_pre (n fuel : nat) (m : memo) (h : heap) : Prop := {
  pre_len : n <= length h;
  pre_orig : Forall (obj_ok n) (take n h);
  pre_closed : closed h;
  pre_memo : forall a a', m !! a = Some a' -> a < n /\ a' < length h;
  pre_inj : memo_inj m;
  pre_fuel : n < fuel + size m
}.

Record copy_post (n : nat) (m : memo) (h : heap) (m' : memo) (h' : heap)
  : Prop := {
  post_prefix : h `prefix_of` h';
  post_sub : m ⊆ m';
  post_closed : closed h';
  post_memo : forall a a', m' !! a = Some a' -> a < n /\ a' < length h';
  post_inj : memo_inj m';
  post_new : forall a a', m' !! a = Some a' -> m !! a = None ->
    length h <= a' /\ copied m' h h' a a';
  post_onto : forall a', length h <= a' < length h' ->
    exists a, m' !! a = Some a' /\ m !! a = None
}.

(** What a copying function owes its callers: it never runs out of budget,
    it fails on generators only, and its result is the renamed argument. *)
Definition copy_ok (n fuel : nat)
    (copy : val -> memo -> heap -> result (val * memo * heap)) : Prop :=
  forall x m h, copy_pre n fuel m h -> val_ok n x ->
    match copy x m h with
    | Ok (y, m', h') => copy_post n m h m' h' /\ covered m' x /\ y = rename m' x
    | Raise e => e = TypeError /\ exists a, a < n /\ h !! a = Some OGen
    | Stuck => False
    end.

(** ** The content of a value

    [content k h v] unfolds [v] in [h] down to depth [k] and forgets the
    addresses on the way (a generator keeps its own: it is its identity that
    matters). Two values have the same content when they unfold alike at
    every depth. *)

Inductive shape :=
| SList
| STuple
| SDict (keys : list string)
| SInstance (keys : list string)
| SGen (a : addr).

#[warnings="-register-all"] Inductive tree :=
| Leaf (v : val)
| Node (s : shape) (kids : list tree)
| Cut.

Definition shape_of (a : addr) (o : obj) : shape :=
  match o with
  | OList _ => SList
  | OTuple _ => STuple
  | ODict es => SDict es.*1
  | OInstance es => SInstance es.*1
  | OGen => SGen a
  end.

Fixpoint content (k : nat) (h : heap) (v : val) : tree :=
  match v with
  | VRef a =>
      match k with
      | 0 => Cut
      | S k' =>
          match h !! a with
          | Some o => Node (shape_of a o) (content k' h <$> children o)
          | None => Cut
          end
      end
  | _ => Leaf v
  end.

Definition same_content (h : heap) (v : val) (h' : heap) (v' : val) : Prop :=
  forall k, content k h' v' = content k h v.

(** [v] does not point at any of the addresses [D]. *)
Definition avoids (D : list nat) (v : val) : Prop :=
  match v with
  | VRef a => a ∉ D
  | _ => True
  end.

Definition unreferenced (D : list nat) (h : heap) : Prop :=
  Forall (fun o => Forall (avoids D) (children o)) h.





End PySpec.

(** * What [expand_parameters] is expected to deliver *)

Module ExpandSpec.
Import Py PySpec Expand.

(** The values a parameter hands out: the elements of its sequence when it
    expands, its one value when it is broadcast. *)
Definition choices (h : heap) (par : Param) : list val :=
  if expands h par then default [] (elements h (value par))
  else [value par].

Definition factor (h : heap) (par : Param) : nat :=
  if expands h par then length (default [] (elements h (value par))) else 1.

(** The product of the lengths of the sequences that expand. *)
Definition expansion_size (h : heap) (ps : list Param) : nat :=
  foldr (fun par acc => factor h par * acc) 1 ps.

(** [par] is the last parameter of [ps] that carries its name. *)
Definition last_named (par : Param) (ps : list Param) : Prop :=
  exists l1 l2, ps = l1 ++ par :: l2 /\ name par ∉ name <$> l2.

Definition params_ok (h : heap) (ps : list Param) : Prop :=
  Forall (fun par => val_ok (length h) (value par)) ps.

(** [d] is one of the maps made by the expansion, recorded in [D]. *)
Definition is_map (h : heap) (D : list nat) (d : val) : Prop :=
  exists a es, d = VRef a /\ a ∈ D /\ h !! a = Some (ODict es).

(** The map [d] of [h] binds [k] to a value with the content that [v] has in
    the heap [h0] the caller passed in. *)
Definition binds (h0 h : heap) (d : val) (k : string) (v : val) : Prop :=
  exists v', getitem h d k = Some v' /\ same_content h0 v h v'.

(** What every heap reached during the expansion satisfies: the caller's
    objects are still there, untouched; the maps lie above them and nothing
    points at a map; no generator has been made. *)
Record hinv (h0 h : heap) (D : list nat) : Prop := {
  hinv_prefix : h0 `prefix_of` h;
  hinv_closed0 : closed h0;
  hinv_closed : closed h;
  hinv_D : forall a, a ∈ D -> length h0 <= a < length h;
  hinv_unref : unreferenced D h;
  hinv_gen : forall a, h !! a = Some OGen -> a < length h0
}.

(** The invariant of the loop over the parameters, after [done]. *)
Record inv (h0 : heap) (done : list Param) (h : heap) (dicts : list val)
    (D : list nat) : Prop := {
  inv_h : hinv h0 h D;
  inv_maps : Forall (is_map h D) dicts;
  inv_len : length dicts = expansion_size h0 done;
  inv_nodup : NoDup dicts;
  inv_bind : forall d par, d ∈ dicts -> last_named par done ->
    exists v, v ∈ choices h0 par /\ binds h0 h d (name par) v
}.


(** Regions that follow each other between [lo] and [hi]. *)
Fixpoint separated (lo : nat) (rs : list (nat * nat)) (hi : nat) : Prop :=
  match rs with
  | [] => lo <= hi
  | r :: rs' => lo <= r.1 /\ r.1 < r.2 /\ separated r.2 rs' hi
  end.


(** A reference to an object made between heap sizes [lo] and [hi]. *)
Definition fresh_in (lo hi : nat) (y : val) : Prop :=
  exists a, y = VRef a /\ lo <= a < hi.

(** The entries of the one map when every parameter is broadcast. *)
Definition broadcast_all (ps : list Param) (es : list (string * val))
  : list (string * val) :=
  foldl (fun es par => dict_set (name par) (value par) es) es ps.

End ExpandSpec.
(** * Where a combination of choices is found *)

Module ComboSpec.
Import Py PySpec Expand ExpandSpec.

(** The index of the map that holds, for each parameter, the choice at
    the place given in [cs]: the places read as the digits of a number,
    the first parameter giving the leading digit. *)
Fixpoint index_of (h : list obj) (ps : list Param) (cs : list nat) : nat :=
  match ps, cs with
  | par :: ps', c :: cs' => c * expansion_size h ps' + index_of h ps' cs'
  | _, _ => 0
  end.

End ComboSpec.
(** * The keys of the maps *)

Module KeySpec.
Import Py PySpec Expand ExpandSpec.

(** [list(d.keys())] read in a heap. *)
Definition keys (h : list obj) (d : val) : option (list string) :=
  match d with
  | VRef a =>
      match h !! a with
      | Some (ODict es) => Some es.*1
      | _ => None
      end
  | _ => None
  end.

(** The keys of a dict after an assignment: a new key goes to the end, a
    key that is there stays where it is. *)
Definition add_key (k : string) (ks : list string) : list string :=
  if decide (k ∈ ks) then ks else ks ++ [k].

(** The names of the parameters, each once, in the order in which they
    first appear. *)
Definition names_in_order (ps : list Param) : list string :=
  foldl (fun ks par => add_key (name par) ks) [] ps.

(** Every map has the names of the parameters dealt with as its keys. *)
Definition keyed (done : list Param) (h : list obj) (dicts : list val) : Prop :=
  Forall (fun d => keys h d = Some (names_in_order done)) dicts.

End KeySpec.
(** * The order of the maps *)

Module OrderSpec.
Import Py PySpec Expand ExpandSpec.

(** The place of the map at index [i] along the axis of a parameter that
    is followed by [later]: the parameters that come later turn faster. *)
Definition digit (h : list obj) (par : Param) (later : list Param) (i : nat)
  : nat :=
  (i / expansion_size h later) mod factor h par.

(** Each map holds, under the name of a parameter that is the last of its
    name, the choice at the place of the map along that parameter. *)
Definition placed (h0 : list obj) (done : list Param) (h : list obj)
    (dicts : list val) : Prop :=
  forall i d l1 par l2,
    dicts !! i = Some d -> done = l1 ++ par :: l2 ->
    name par ∉ name <$> l2 ->
    exists v, choices h0 par !! digit h0 par l2 i = Some v /\
      binds h0 h d (name par) v.

End OrderSpec.
(** * How an answer typed at the prompt is read *)

Module JobSpec.
Import Console.

(** [Some b] when the line, trimmed, is one of the synonyms of [b] (or is
    empty and the default is); [None] when [ask_for_bool] raises
    [ValueError] and asks again. *)
Definition reads (default : answer) (line : string) : option bool :=
  let trimmed := trim default line in
  if in_true trimmed then Some true
  else if in_false trimmed then Some false
  else None.

(** The world after a line has been read at the prompt and logged. *)
Definition after_input (question : string) (default : answer)
    (line : string) (rest : list string) (w : world) : world :=
  with_log
    (log w ++ ["DEBUG" +:+ ": " +:+
       ("Got input from stdin for question " +:+ dq +:+ question +:+ dq
        +:+ ": " +:+ line)])
    (with_stdin rest (with_stdout (stdout w ++ [bool_prompt question default]) w)).

(** What [ask_for_bool] does after a failed attempt. *)
Definition retry (fuel : nat) (question : string) (default : answer) (e : exn)
  : M world bool :=
  print (exn_str e);;
  match fuel with
  | 0 => stuck
  | S fuel' => ask_for_bool_rec fuel' question default
  end.

(** The lines printed for the sample shown by [specification_check]. *)
Definition sample_lines {Spec} (info : Spec -> string) (sample : list Spec)
  : list string :=
  concat ((fun s => [nl +:+ info s +:+ nl; dashes 20]) <$> sample).

End JobSpec.

(** * How a line typed at the other prompts is taken *)

Module PromptSpec.
Import Console Prompts.

Section PromptSpec.

Variable V : Type.
Variable str_of : V -> string.
Variable cast_to : string -> result V.
Variable eval : string -> result V.

(** What [ask_for_input] makes of one line: the default for a blank line,
    the cast of the trimmed line otherwise. *)
Definition taken (default : V) (line : string) : result V :=
  if decide (remove_spaces line = "") then Ok default
  else cast_to (remove_spaces line).

(** The text [ask_for_eval] evaluates for one line. *)
Definition evaluated (default : V) (line : string) : string :=
  if decide (remove_spaces line = "") then str_of default else line.

(** An outcome that sends the prompt round again: an exception that
    [except Exception] catches. *)
Definition asks_again {A} (r : result A) : bool :=
  match r with
  | Raise e => is_Exception e
  | _ => false
  end.

(** What is printed when the outcome sends the prompt round again. *)
Definition complaint {A} (r : result A) : string :=
  match r with
  | Raise e => exn_str e
  | _ => ""
  end.

(** What the terminal shows for the lines that were turned down. *)
Definition turned_down {A} (prompt : string) (outcome : string -> result A)
    (bad : list string) : list string :=
  concat ((fun l => [prompt; complaint (outcome l)]) <$> bad).

(** The world once a prompt was shown and a line was read. *)
Definition prompted (prompt : string) (rest : list string) (w : world) : world :=
  with_stdin rest (with_stdout (stdout w ++ [prompt]) w).

(** The world once [ask_for_eval] has logged the text it will evaluate. *)
Definition eval_logged (question text : string) (w : world) : world :=
  with_log
    (log w ++ ["DEBUG" +:+ ": " +:+
       ("Got input from stdin for question " +:+ dq +:+ question +:+ dq
        +:+ ": " +:+ text)]) w.

End PromptSpec.

(** The terminal after the answers [bad] to [ask_for_bool] were turned
    down. *)
Definition bool_turned_down (question : string) (default : answer)
    (bad : list string) : list string :=
  concat ((fun _ : string =>
             [bool_prompt question default;
              "Invalid answer to question " +:+ dq +:+ question +:+ dq])
          <$> bad).

End PromptSpec.
(** * Directories in the way and directories made *)

Module DirSpec.
Import Console Job.

(** A regular file sits at [p] or above it: [mkdir] cannot make [p]. *)
Definition in_the_way (w : world) (p : list string) : Prop :=
  Exists (fun q => is_Some (files w !! q)) (ancestors p).

(** The directories [create_job_subdirs] asks for. *)
Definition wanted (job_dir : list string) (subdirs : list string)
  : list (list string) :=
  job_dir :: ((fun subdir => job_dir ++ [subdir]) <$> subdirs).

(** The directories that exist once each of [ps] was made with its
    parents. *)
Definition made (ps : list (list string)) : gset (list string) :=
  ⋃ ((fun p => list_to_set (ancestors p)) <$> ps).

Global Instance in_the_way_dec w p : Decision (in_the_way w p).
Proof. unfold in_the_way. apply _. Defined.

End DirSpec.
(** * Concrete inputs *)

Module Examples.
Import Py Expand.

(** [[Parameter("a", [1, 2], expandable = True),
      Parameter("c", [10, 20, 30], expandable = True)]] *)
Definition two_lists_heap : list obj :=
  [OList [VInt 1; VInt 2]; OList [VInt 10; VInt 20; VInt 30]].

Definition two_lists : list Param :=
  [ {| name := "a"; value := VRef 0; expandable := true |};
    {| name := "c"; value := VRef 1; expandable := true |} ].

(** [[Parameter("a", [1, 2, 3], expandable = True), Parameter("b", "x")]] *)
Definition list_and_string_heap : list obj := [OList [VInt 1; VInt 2; VInt 3]].

Definition list_and_string : list Param :=
  [ {| name := "a"; value := VRef 0; expandable := true |};
    {| name := "b"; value := VStr "x"; expandable := false |} ].

(** [[Parameter("a", [1, 2], expandable = True), Parameter("b", [0])]]:
    the second value is one list object, broadcast. *)
Definition shared_list_heap : list obj :=
  [OList [VInt 1; VInt 2]; OList [VInt 0]].

Definition shared_list : list Param :=
  [ {| name := "a"; value := VRef 0; expandable := true |};
    {| name := "b"; value := VRef 1; expandable := false |} ].

(** [[Parameter("g", (x for x in ...), expandable = True),
      Parameter("a", [1, 2], expandable = True)]] *)
Definition generator_heap : list obj := [OGen; OList [VInt 1; VInt 2]].

Definition generator_first : list Param :=
  [ {| name := "g"; value := VRef 0; expandable := true |};
    {| name := "a"; value := VRef 1; expandable := true |} ].

(** [[Parameter("n", 5), Parameter("s", "xy", expandable = True),
      Parameter("g", (x for x in ...), expandable = True)]]:
    nothing expands. *)
Definition scalars_heap : list obj := [OGen].

Definition scalars : list Param :=
  [ {| name := "n"; value := VInt 5; expandable := false |};
    {| name := "s"; value := VStr "xy"; expandable := true |};
    {| name := "g"; value := VRef 0; expandable := true |} ].

(** [[Parameter("a", 1), Parameter("b", [7, 8], expandable = True),
      Parameter("a", [3, 4, 5], expandable = True)]]: the name "a" twice. *)
Definition twice_heap : list obj :=
  [OList [VInt 7; VInt 8]; OList [VInt 3; VInt 4; VInt 5]].

Definition twice : list Param :=
  [ {| name := "a"; value := VInt 1; expandable := false |};
    {| name := "b"; value := VRef 0; expandable := true |};
    {| name := "a"; value := VRef 1; expandable := true |} ].



(** [[Parameter("a", 1), Parameter("a", 2)]] *)
Definition same_name : list Param :=
  [ {| name := "a"; value := VInt 1; expandable := false |};
    {| name := "a"; value := VInt 2; expandable := false |} ].

End Examples.

(** * Concrete specifications, processors and worlds *)

Module JobExamples.
Import Console Job.

(** A stand-in for a specification: it is saved as one file named after it,
    unless it cannot be serialized. *)
Record toy_spec := {
  file_name : string;
  serializable : bool
}.

Definition toy_info (s : toy_spec) : string := "spec " +:+ file_name s.

Definition toy_save (s : toy_spec) (target_dir : list string) : M world unit :=
  if serializable s then
    open_write (target_dir ++ [file_name s +:+ ".spec"]) (toy_info s)
  else raise SerializationError.

(** Five specifications; the one at index 2 cannot be serialized. *)
Definition five_specs : list toy_spec :=
  [ {| file_name := "0"; serializable := true |};
    {| file_name := "1"; serializable := true |};
    {| file_name := "2"; serializable := false |};
    {| file_name := "3"; serializable := true |};
    {| file_name := "4"; serializable := true |} ].

(** A job directory with its input area, and what the user will type. *)
Definition job_world (typed : list string) : world :=
  {| stdin := typed; stdout := []; log := [];
     dirs := {[ ["job"]; ["job"; "inputs"] ]};
     files := ∅ |}.

(** The world once the first two of the five specifications are saved. *)
Definition two_saved : world :=
  (for_each (take 2 five_specs) (fun spec => toy_save spec (["job"] ++ ["inputs"]))
     (with_stdout (stdout (job_world []) ++ ["Saving Specifications..."])
        (job_world []))).2.

Definition spec_file (n : string) : list string :=
  ["job"; "inputs"; n +:+ ".spec"].

(** A stand-in for a job processor and its persisted form. *)
Definition toy_unpickle (content : string) : result string :=
  if decide (content = "corrupt") then Raise UnpicklingError else Ok content.

Definition toy_new (job_name : string) (job_dir : list string)
  : M world string :=
  mret ("fresh " +:+ job_name).

Definition toy_dumps (job_info : string) : string := job_info.
Definition toy_loads (content : string) : result string := Ok content.

End JobExamples.

(** * Concrete casts and terminals *)

Module PromptExamples.
Import Console.

(** [int], as far as it matters here: a run of decimal digits is read as
    a number, anything else is a [ValueError]. *)
Fixpoint digits (s : string) (acc : Z) : option Z :=
  match s with
  | EmptyString => Some acc
  | String c s' =>
      let n := Z.of_nat (Ascii.nat_of_ascii c) in
      if ((48 <=? n) && (n <=? 57))%Z then digits s' (10 * acc + (n - 48))%Z
      else None
  end.

Definition toy_int (s : string) : result Z :=
  match s with
  | EmptyString => Raise (ValueError "invalid literal for int() with base 10")
  | _ =>
      match digits s 0 with
      | Some n => Ok n
      | None => Raise (ValueError "invalid literal for int() with base 10")
      end
  end.

(** A stand-in for [eval] that knows the sum of two numbers written with
    spaces around the sign, and nothing else. *)
Definition toy_eval (s : string) : result Z :=
  match String.index 0 " + " s with
  | Some i =>
      match digits (String.substring 0 i s) 0,
            digits (String.substring (i + 3) (String.length s - i - 3) s) 0 with
      | Some a, Some b => Ok (a + b)%Z
      | _, _ => Raise TypeError
      end
  | None =>
      match s with
      | EmptyString => Raise (ValueError "unexpected EOF while parsing")
      | _ =>
          match digits s 0 with
          | Some n => Ok n
          | None => Raise (ValueError "invalid syntax")
          end
      end
  end.

(** A terminal where [typed] is waiting to be read, and no files. *)
Definition typed (lines : list string) : world :=
  {| stdin := lines; stdout := []; log := []; dirs := ∅; files := ∅ |}.

End PromptExamples.
(** * A job directory left over from an earlier run *)

Module DirExamples.
Import Console.

(** An old job with a stale input and an old record of the job
    information, beside a file that belongs to something else. *)
Definition stale_world : world :=
  {| stdin := []; stdout := []; log := [];
     dirs := {[ ["job"]; ["job"; "inputs"]; ["job"; "movies"] ]};
     files := {[ ["job"; "inputs"; "0.spec"] := "old spec";
                 ["job"; "info.pkl"] := "old info";
                 ["notes.txt"] := "keep" ]} |}.

(** No job yet: only a file that belongs to something else. *)
Definition bare_world : world :=
  {| stdin := []; stdout := []; log := [];
     dirs := ∅;
     files := {[ ["notes.txt"] := "keep" ]} |}.

End DirExamples.
(** * Running a sequence of steps *)

Module MonadFacts.

Lemma bind_run {S A B} (m : M S A) (f : A -> M S B) (s : S) :
  (m ≫= f) s =
  match m s with
  | (Ok a, s') => f a s'
  | (Raise e, s') => (Raise e, s')
  | (Stuck, s') => (Stuck, s')
  end.
Proof. reflexivity. Qed.

Lemma bind_ok {S A B} (m : M S A) (f : A -> M S B) (s s' : S) (a : A) :
  m s = (Ok a, s') -> (m ≫= f) s = f a s'.
Proof. intros H. by rewrite bind_run, H. Qed.

Lemma bind_raise {S A B} (m : M S A) (f : A -> M S B) (s s' : S) (e : exn) :
  m s = (Raise e, s') -> (m ≫= f) s = (Raise e, s').
Proof. intros H. by rewrite bind_run, H. Qed.

Lemma for_each_app {S A} (xs ys : list A) (body : A -> M S unit) (s : S) :
  for_each (xs ++ ys) body s = (for_each xs body ;; for_each ys body) s.
Proof.
  revert s. induction xs as [|x xs IH]; intros s; simpl.
  - reflexivity.
  - rewrite !bind_run. destruct (body x s) as [[[]| |] s1]; try reflexivity.
    rewrite IH. by rewrite bind_run.
Qed.



End MonadFacts.

(** * Facts about heaps and [deepcopy] *)

Module PyFacts.
Import Py PySpec.

Lemma val_ok_mono n n' v : n <= n' -> val_ok n v -> val_ok n' v.
Proof. destruct v; simpl; lia. Qed.

Lemma obj_ok_mono n n' o : n <= n' -> obj_ok n o -> obj_ok n' o.
Proof. intros Hn H. eapply Forall_impl; [exact H|]. intros v. by apply val_ok_mono. Qed.

Lemma children_with_children o ys :
  length ys = length (children o) -> children (with_children o ys) = ys.
Proof.
  destruct o; simpl; try done.
  - intros H. apply snd_zip. rewrite !length_fmap in *. lia.
  - intros H. apply snd_zip. rewrite !length_fmap in *. lia.
  - by destruct ys.
Qed.

Lemma children_with_children_nil o : children (with_children o []) = [].
Proof.
  destruct o; simpl; try done.
  - by destruct (entries.*1).
  - by destruct (attrs.*1).
Qed.

Lemma rename_weaken m m' v : m ⊆ m' -> covered m v -> rename m' v = rename m v.
Proof.
  intros Hs. destruct v; simpl; try done.
  intros [a' Ha]. rewrite Ha. by rewrite (lookup_weaken _ _ _ _ Ha Hs).
Qed.

Lemma covered_weaken m m' v : m ⊆ m' -> covered m v -> covered m' v.
Proof.
  intros Hs. destruct v; simpl; try done.
  intros [a' Ha]. exists a'. by eapply lookup_weaken.
Qed.

Lemma rename_ok m n v :
  (forall a a', m !! a = Some a' -> a' < n) -> covered m v -> val_ok n (rename m v).
Proof.
  intros Hm. destruct v; simpl; try done.
  intros [a' Ha]. rewrite Ha. simpl. eauto.
Qed.

Lemma copied_weaken m m' h h1 h2 a a' :
  m ⊆ m' -> h1 `prefix_of` h2 -> copied m h h1 a a' -> copied m' h h2 a a'.
Proof.
  intros Hs Hp (o & Ho & Hg & Hc & Hh). exists o. split; [done|].
  split; [done|]. split.
  - eapply Forall_impl; [exact Hc|]. intros v. by apply covered_weaken.
  - erewrite prefix_lookup_Some; [done| |done]. rewrite Hh. do 2 f_equal.
    apply Forall_fmap_ext_1. eapply Forall_impl; [exact Hc|].
    intros v Hv. symmetry. by apply rename_weaken.
Qed.

Lemma memo_size_le n (m : gmap nat nat) :
  (forall a a', m !! a = Some a' -> a < n) -> size m <= n.
Proof.
  intros Hm. rewrite <- (size_dom (D := gset nat)).
  rewrite <- (size_set_seq (C := gset nat) 0 n).
  apply subseteq_size. intros a Ha. apply elem_of_dom in Ha as [a' Ha].
  apply elem_of_set_seq. split; [lia|]. simpl. eauto.
Qed.

Lemma copy_post_refl n fuel m h : copy_pre n fuel m h -> copy_post n m h m h.
Proof.
  intros []. split; try done.
  - intros a a' H1 H2. congruence.
  - intros a' Ha. lia.
Qed.

Lemma copy_pre_next n fuel m h m' h' :
  copy_pre n fuel m h -> copy_post n m h m' h' -> copy_pre n fuel m' h'.
Proof.
  intros [] []. split; try done.
  - apply prefix_length in post_prefix0. lia.
  - destruct post_prefix0 as [k ->]. by rewrite take_app_le.
  - apply map_subseteq_size in post_sub0. lia.
Qed.

Lemma copy_post_trans n fuel m h m1 h1 m2 h2 :
  copy_pre n fuel m h ->
  copy_post n m h m1 h1 -> copy_post n m1 h1 m2 h2 -> copy_post n m h m2 h2.
Proof.
  intros Hpre H1 H2.
  destruct H1 as [p1 s1 c1 k1 i1 n1 o1], H2 as [p2 s2 c2 k2 i2 n2 o2].
  split; try done.
  - by etrans.
  - by etrans.
  - intros a a' Ha Hm. destruct (m1 !! a) as [b|] eqn:E.
    + assert (b = a') as -> by (eapply lookup_weaken in E; [|exact s2]; congruence).
      destruct (n1 _ _ E Hm) as [Hl Hc]. split; [done|].
      by eapply copied_weaken.
    + destruct (n2 _ _ Ha E) as [Hl (o & Ho & Hc & Hh)]. split.
      { apply prefix_length in p1. lia. }
      exists o. split; [|done].
      destruct (k2 _ _ Ha) as [Han _]. destruct Hpre.
      destruct p1 as [k ->]. rewrite lookup_app_l in Ho; [done|lia].
  - intros a' Ha. destruct (decide (a' < length h1)) as [Hlt|Hge].
    + destruct (o1 a') as (a & Ha1 & Ha2); [lia|]. exists a.
      split; [by eapply lookup_weaken|done].
    + destruct (o2 a') as (a & Ha1 & Ha2); [lia|]. exists a. split; [done|].
      destruct (m !! a) as [b|] eqn:E; [|done].
      eapply lookup_weaken in E; [|exact s1]. congruence.
Qed.

Lemma copy_all_ok n fuel copy :
  copy_ok n fuel copy ->
  forall xs m h, copy_pre n fuel m h -> Forall (val_ok n) xs ->
    match copy_all copy xs m h with
    | Ok (ys, m', h') =>
        copy_post n m h m' h' /\ Forall (covered m') xs /\ ys = rename m' <$> xs
    | Raise e => e = TypeError /\ exists a, a < n /\ h !! a = Some OGen
    | Stuck => False
    end.
Proof.
  intros Hcopy xs. induction xs as [|x xs IH]; intros m h Hpre Hxs; simpl.
  { split; [by eapply copy_post_refl|]. by split. }
  apply Forall_cons in Hxs as [Hx Hxs].
  specialize (Hcopy x m h Hpre Hx).
  destruct (copy x m h) as [[[y m1] h1]|e|]; [|done|done].
  destruct Hcopy as (Hpost1 & Hcov & ->).
  assert (Hpre1 := copy_pre_next _ _ _ _ _ _ Hpre Hpost1).
  specialize (IH m1 h1 Hpre1 Hxs).
  destruct (copy_all copy xs m1 h1) as [[[ys m2] h2]|e|]; [| |done].
  - destruct IH as (Hpost2 & Hcov2 & ->).
    split; [by eapply copy_post_trans|]. split.
    + apply Forall_cons. split; [|done].
      eapply covered_weaken; [|done]. apply Hpost2.
    + simpl. f_equal. symmetry. apply rename_weaken; [apply Hpost2|done].
  - destruct IH as (-> & a & Ha & Hg). split; [done|]. exists a. split; [done|].
    destruct Hpost1 as [[k ->] _ _ _ _ _ _]. destruct Hpre.
    rewrite lookup_app_l in Hg; [done|lia].
Qed.

Lemma deepcopy_rec_ref fuel a m h o :
  m !! a = None -> h !! a = Some o -> o <> OGen ->
  deepcopy_rec fuel (VRef a) m h =
    match fuel with
    | 0 => Stuck
    | S fuel' =>
        match copy_all (deepcopy_rec fuel') (children o)
                (<[a := length h]> m) (h ++ [with_children o []]) with
        | Ok (ys, m2, h2) =>
            Ok (VRef (length h), m2, <[length h := with_children o ys]> h2)
        | Raise e => Raise e
        | Stuck => Stuck
        end
    end.
Proof.
  intros Hm Hh Ho. destruct fuel; simpl; rewrite Hm, Hh; by destruct o.
Qed.

Lemma closed_snoc h o : closed h -> children o = [] -> closed (h ++ [o]).
Proof.
  intros Hc Ho. unfold closed. rewrite length_app. simpl.
  apply Forall_app. split.
  - eapply Forall_impl; [exact Hc|]. intros o'. apply obj_ok_mono. lia.
  - apply Forall_singleton. unfold obj_ok. by rewrite Ho.
Qed.

Lemma closed_insert h a o : closed h -> obj_ok (length h) o -> closed (<[a := o]> h).
Proof.
  intros Hc Ho. unfold closed. rewrite length_insert.
  destruct (decide (a < length h)).
  - by apply Forall_insert.
  - rewrite list_insert_ge; [done|lia].
Qed.

Lemma deepcopy_rec_ok fuel : forall n, copy_ok n fuel (deepcopy_rec fuel).
Proof.
  induction fuel as [|fuel IH]; intros n x m h Hpre Hx.
  - destruct x as [| | | |a]; try (simpl; split; [by eapply copy_post_refl|done]).
    destruct (m !! a) as [a'|] eqn:Em.
    { simpl. rewrite Em. split; [by eapply copy_post_refl|]. simpl. by rewrite Em. }
    destruct (h !! a) as [o|] eqn:Eh.
    2:{ apply lookup_ge_None in Eh. destruct Hpre. simpl in Hx. lia. }
    destruct (decide (o = OGen)) as [->|Ho].
    { simpl. rewrite Em, Eh. split; [done|]. by exists a. }
    rewrite (deepcopy_rec_ref _ _ _ _ _ Em Eh Ho).
    destruct Hpre. assert (size m <= n); [|lia].
    apply memo_size_le. intros ? ? H. by apply pre_memo0 in H as [? _].
  - destruct x as [| | | |a]; try (simpl; split; [by eapply copy_post_refl|done]).
    destruct (m !! a) as [a'|] eqn:Em.
    { simpl. rewrite Em. split; [by eapply copy_post_refl|]. simpl. by rewrite Em. }
    destruct (h !! a) as [o|] eqn:Eh.
    2:{ apply lookup_ge_None in Eh. destruct Hpre. simpl in Hx. lia. }
    destruct (decide (o = OGen)) as [->|Ho].
    { simpl. rewrite Em, Eh. split; [done|]. by exists a. }
    rewrite (deepcopy_rec_ref _ _ _ _ _ Em Eh Ho).
    set (a' := length h). set (m1 := <[a := a']> m).
    set (h1 := h ++ [with_children o []]).
    simpl in Hx.
    assert (Hpre1 : copy_pre n fuel m1 h1).
    { destruct Hpre. split.
      - unfold h1. rewrite length_app. lia.
      - unfold h1. by rewrite take_app_le.
      - apply closed_snoc; [done|]. apply children_with_children_nil.
      - intros b b'. unfold m1, h1. rewrite length_app. simpl.
        intros [[-> <-]|[_ H]]%lookup_insert_Some.
        + unfold a'. lia.
        + apply pre_memo0 in H. lia.
      - intros b c e. unfold m1.
        intros [[-> <-]|[? H1]]%lookup_insert_Some
               [[-> E]|[? H2]]%lookup_insert_Some; try done.
        + apply pre_memo0 in H2. unfold a' in *. lia.
        + apply pre_memo0 in H1. unfold a' in *. lia.
        + by eapply pre_inj0.
      - unfold m1. rewrite map_size_insert_None; [lia|done]. }
    assert (Hkids : Forall (val_ok n) (children o)).
    { destruct Hpre. rewrite Forall_lookup in pre_orig0.
      apply (pre_orig0 a). rewrite lookup_take_lt; done. }
    pose proof (copy_all_ok n fuel _ (IH n) _ _ _ Hpre1 Hkids) as Hall.
    destruct (copy_all (deepcopy_rec fuel) (children o) m1 h1)
      as [[[ys m2] h2]|e|]; [| |done].
    2:{ destruct Hall as (-> & b & Hb & Hg). split; [done|]. exists b.
        split; [done|]. unfold h1 in Hg. destruct Hpre.
        rewrite lookup_app_l in Hg; [done|lia]. }
    destruct Hall as ([p s c k inj nw onto] & Hcov & ->).
    assert (Hm1a : m1 !! a = Some a') by apply lookup_insert_eq.
    assert (Hm2a : m2 !! a = Some a') by (by eapply lookup_weaken).
    assert (Hlen1 : length h1 = S a').
    { unfold h1. rewrite length_app. simpl. unfold a'. lia. }
    assert (Hlen2 : S a' <= length h2).
    { apply prefix_length in p. lia. }
    split; [|split; [simpl; by rewrite Hm2a|simpl; by rewrite Hm2a]].
    split.
    + destruct p as [t ->]. unfold h1. rewrite <- app_assoc.
      rewrite insert_app_r_alt; [|unfold a'; lia].
      by apply prefix_app_r.
    + etrans; [|exact s]. by apply insert_subseteq.
    + apply closed_insert; [done|]. unfold obj_ok.
      rewrite children_with_children; [|by rewrite length_fmap].
      apply Forall_fmap. eapply Forall_impl; [exact Hcov|].
      intros v Hv. simpl. eapply rename_ok; [|done].
      intros b b' Hb. by apply k in Hb as [_ ?].
    + intros b b'. rewrite length_insert. apply k.
    + done.
    + intros b b' Hb Hmb. destruct (decide (b = a)) as [->|Hne].
      * assert (b' = a') as -> by congruence. split; [unfold a'; lia|].
        exists o. split; [done|]. split; [done|]. split; [done|].
        apply list_lookup_insert_eq. lia.
      * assert (m1 !! b = None) as Hm1b.
        { unfold m1. by rewrite lookup_insert_ne. }
        destruct (nw _ _ Hb Hm1b) as [Hl (o' & Ho' & Hg' & Hc' & Hh')].
        split; [lia|]. exists o'. split.
        { destruct (k _ _ Hb) as [Hbn _]. destruct Hpre. unfold h1 in Ho'.
          rewrite lookup_app_l in Ho'; [done|lia]. }
        split; [done|]. split; [done|].
        rewrite list_lookup_insert_ne; [done|lia].
    + intros b'. rewrite length_insert. intros Hb'.
      destruct (decide (b' = a')) as [->|Hne]; [by exists a|].
      destruct (onto b') as (b & Hb1 & Hb2); [lia|]. exists b. split; [done|].
      unfold m1 in Hb2. apply lookup_insert_None in Hb2. tauto.
Qed.

Lemma deepcopy_spec x h :
  closed h -> val_ok (length h) x ->
  match deepcopy x h with
  | (Ok y, h') =>
      exists m', copy_post (length h) ∅ h m' h' /\ covered m' x /\ y = rename m' x
  | (Raise e, h') => e = TypeError /\ h' = h /\ exists a, h !! a = Some OGen
  | (Stuck, _) => False
  end.
Proof.
  intros Hc Hx. unfold deepcopy.
  assert (Hpre : copy_pre (length h) (S (length h)) ∅ h).
  { split; try done.
    - by rewrite firstn_all.
    - rewrite map_size_empty. lia. }
  pose proof (deepcopy_rec_ok _ _ x ∅ h Hpre Hx) as H.
  destruct (deepcopy_rec (S (length h)) x ∅ h) as [[[y m'] h']|e|]; [| |done].
  - exists m'. done.
  - destruct H as (-> & a & _ & Ha). eauto.
Qed.

Lemma deepcopy_root a h y h' :
  deepcopy (VRef a) h = (Ok y, h') -> y = VRef (length h).
Proof.
  unfold deepcopy. simpl. rewrite lookup_empty.
  destruct (h !! a) as [o|]; [|done].
  destruct o; try done;
    match goal with
    | |- context [copy_all ?c ?xs ?m ?h1] =>
        destruct (copy_all c xs m h1) as [[[ys m2] h2]|e|]
    end; congruence.
Qed.

Lemma shape_of_with_children a a' o ys :
  o <> OGen -> length ys = length (children o) ->
  shape_of a' (with_children o ys) = shape_of a o.
Proof.
  intros Ho Hl. destruct o; simpl in *; try done.
  - f_equal. apply fst_zip. rewrite !length_fmap in *. lia.
  - f_equal. apply fst_zip. rewrite !length_fmap in *. lia.
Qed.

Lemma content_prefix k h h' v :
  closed h -> h `prefix_of` h' -> val_ok (length h) v ->
  content k h' v = content k h v.
Proof.
  intros Hc Hp. revert v. induction k as [|k IH]; intros v Hv.
  { by destruct v. }
  destruct v as [| | | |a]; try done. simpl in *.
  destruct (lookup_lt_is_Some_2 h a Hv) as [o Ho].
  rewrite Ho, (prefix_lookup_Some _ _ _ _ Ho Hp). f_equal.
  apply Forall_fmap_ext_1.
  unfold closed in Hc. rewrite Forall_lookup in Hc.
  eapply Forall_impl; [exact (Hc _ _ Ho)|]. intros c Hcv. by apply IH.
Qed.

Lemma content_copy k n h m' h' v :
  closed h -> n = length h -> copy_post n ∅ h m' h' -> val_ok n v ->
  content k h' (rename m' v) = content k h v.
Proof.
  intros Hc -> Hpost. revert v. induction k as [|k IH]; intros v Hv.
  { destruct v; simpl; try done. by destruct (m' !! a). }
  destruct v as [| | | |a]; try done.
  destruct (m' !! a) as [a'|] eqn:Em.
  - simpl. rewrite Em. simpl.
    destruct Hpost as [_ _ _ _ _ nw].
    destruct (nw _ _ Em (lookup_empty _)) as [_ (o & Ho & Hg & Hcov & Hh)].
    rewrite Hh, Ho.
    rewrite (shape_of_with_children a); [|done|by rewrite length_fmap].
    f_equal. rewrite children_with_children; [|by rewrite length_fmap].
    rewrite <- list_fmap_compose. apply Forall_fmap_ext_1.
    unfold closed in Hc. rewrite Forall_lookup in Hc.
    eapply Forall_impl; [exact (Hc _ _ Ho)|]. intros c Hcv. by apply IH.
  - replace (rename m' (VRef a)) with (VRef a) by (simpl; by rewrite Em).
    apply content_prefix; [done| |done]. apply Hpost.
Qed.

Lemma content_frame k D h h' v :
  unreferenced D h -> (forall a, a ∉ D -> h' !! a = h !! a) -> avoids D v ->
  content k h' v = content k h v.
Proof.
  intros Hu Hsame. revert v. induction k as [|k IH]; intros v Hv.
  { by destruct v. }
  destruct v as [| | | |a]; try done. simpl in *.
  rewrite (Hsame _ Hv). destruct (h !! a) as [o|] eqn:Ho; [|done].
  f_equal. apply Forall_fmap_ext_1.
  unfold unreferenced in Hu. rewrite Forall_lookup in Hu.
  eapply Forall_impl; [exact (Hu _ _ Ho)|]. intros c Hcv. by apply IH.
Qed.

Lemma dict_get_zip_rename (f : val -> val) k (es : list (string * val)) :
  dict_get k (zip es.*1 (f <$> es.*2)) = f <$> dict_get k es.
Proof.
  induction es as [|[k' v] es IH]; simpl; [done|].
  destruct (decide (k' = k)); [done|]. apply IH.
Qed.

Lemma dict_get_set_eq k v es : dict_get k (dict_set k v es) = Some v.
Proof.
  induction es as [|[k' v'] es IH]; simpl.
  - by rewrite decide_True.
  - destruct (decide (k' = k)) as [->|Hne]; simpl.
    + by rewrite decide_True.
    + by rewrite decide_False.
Qed.

Lemma dict_get_set_ne k k' v es :
  k <> k' -> dict_get k' (dict_set k v es) = dict_get k' es.
Proof.
  intros Hne. induction es as [|[k0 v0] es IH]; simpl.
  - by rewrite decide_False.
  - destruct (decide (k0 = k)) as [->|Hne0]; simpl.
    + by rewrite !decide_False.
    + destruct (decide (k0 = k')); [done|]. apply IH.
Qed.

End PyFacts.

(** * The loop of [expand_parameters] keeps its invariant *)

Module ExpandFacts.
Import Py PySpec PyFacts Expand ExpandSpec.

Lemma with_children_not_gen o ys : o <> OGen -> with_children o ys <> OGen.
Proof. by destruct o. Qed.

Lemma getitem_children k v (es : list (string * val)) :
  dict_get k es = Some v -> v ∈ es.*2.
Proof.
  induction es as [|[k' v'] es IH]; simpl; [done|].
  destruct (decide (k' = k)).
  - intros [= ->]. apply list_elem_of_here.
  - intros H. apply list_elem_of_further. by apply IH.
Qed.

Lemma is_map_ext (h : list obj) (D : list nat) h' D' d :
  h `prefix_of` h' -> D ⊆ D' -> is_map h D d -> is_map h' D' d.
Proof.
  intros Hp HD (a & es & -> & Ha & Hh). exists a, es.
  split; [done|]. split; [by apply HD|]. by eapply prefix_lookup_Some.
Qed.

Lemma binds_ext (h0 h : list obj) h' D d k w :
  closed h -> h `prefix_of` h' -> is_map h D d ->
  binds h0 h d k w -> binds h0 h' d k w.
Proof.
  intros Hc Hp (a & es & -> & Ha & Hh) (v' & Hg & Hs).
  exists v'. simpl in *. rewrite Hh in Hg.
  rewrite (prefix_lookup_Some _ _ _ _ Hh Hp). split; [done|].
  intros j. rewrite <- Hs. apply content_prefix; [done..|].
  unfold closed in Hc. rewrite Forall_lookup in Hc. specialize (Hc _ _ Hh).
  unfold obj_ok in Hc. rewrite Forall_forall in Hc. apply Hc.
  simpl. by eapply getitem_children.
Qed.

Lemma deepcopy_map (h0 h : list obj) D d :
  hinv h0 h D -> is_map h D d ->
  match deepcopy d h with
  | (Ok y, h') =>
      y = VRef (length h) /\ length h < length h' /\ h `prefix_of` h' /\
      hinv h0 h' (length h :: D) /\ is_map h' (length h :: D) y /\
      (forall k w, binds h0 h d k w -> binds h0 h' y k w)
  | (Raise e, h') => e = TypeError /\ exists a, h0 !! a = Some OGen
  | (Stuck, _) => False
  end.
Proof.
  intros [Hp Hc0 Hc HD Hu Hg] (a & es & -> & Ha & Hh).
  assert (Hav : val_ok (length h) (VRef a)).
  { simpl. by eapply lookup_lt_Some. }
  pose proof (deepcopy_spec (VRef a) h Hc Hav) as Hspec.
  destruct (deepcopy (VRef a) h) as [[y| |] h'] eqn:E; [| |done].
  2:{ destruct Hspec as (-> & -> & b & Hb). split; [done|]. exists b.
      pose proof (Hg _ Hb) as Hlt.
      destruct Hp as [t ->]. rewrite lookup_app_l in Hb; done. }
  destruct Hspec as (m' & Hpost & Hcov & Hy).
  apply deepcopy_root in E. subst y.
  assert (Hma : m' !! a = Some (length h)).
  { simpl in Hcov. destruct Hcov as [b Hb]. simpl in Hy. rewrite Hb in Hy.
    congruence. }
  destruct Hpost as [p _ c k inj nw onto].
  destruct (nw _ _ Hma (lookup_empty _)) as [_ (o & Ho & _ & Hcovs & Hh')].
  assert (o = ODict es) as -> by congruence. simpl in Hh'.
  assert (Hlt : length h < length h').
  { by eapply lookup_lt_Some. }
  split; [done|]. split; [done|]. split; [done|]. split; [|split].
  - split; try done.
    + by etrans.
    + intros b [->|Hb]%elem_of_cons; [apply prefix_length in Hp; lia|].
      apply HD in Hb. apply prefix_length in p. lia.
    + unfold unreferenced. rewrite Forall_lookup. intros b ob Hb.
      destruct (decide (b < length h)) as [Hbl|Hbl].
      * rewrite <- (prefix_lookup_lt _ _ _ Hbl p) in Hb.
        unfold unreferenced in Hu. rewrite Forall_lookup in Hu.
        unfold closed in Hc. rewrite Forall_lookup in Hc.
        specialize (Hu _ _ Hb). specialize (Hc _ _ Hb).
        unfold obj_ok in Hc. rewrite Forall_forall in Hu, Hc |- *.
        intros v Hv. specialize (Hu _ Hv). specialize (Hc _ Hv).
        destruct v as [| | | |x]; try done. simpl in *.
        intros [->|?]%elem_of_cons; [lia|done].
      * assert (Hbh : b < length h') by (by eapply lookup_lt_Some).
        destruct (onto b) as (b0 & Hb0 & _); [lia|].
        destruct (nw _ _ Hb0 (lookup_empty _))
          as [_ (o & Hob & Hng & Hcs & Hbo)].
        assert (ob = with_children o (rename m' <$> children o)) as ->
          by congruence.
        rewrite children_with_children; [|by rewrite length_fmap].
        apply Forall_fmap.
        unfold unreferenced in Hu. rewrite Forall_lookup in Hu.
        specialize (Hu _ _ Hob). rewrite Forall_forall in Hu, Hcs |- *.
        intros v Hv. specialize (Hu _ Hv). specialize (Hcs _ Hv).
        destruct v as [| | | |x]; try done. simpl in *.
        destruct Hcs as [x' Hx']. rewrite Hx'. simpl.
        intros [->|Hin]%elem_of_cons.
        -- assert (x = a) by (by eapply inj). by subst.
        -- apply HD in Hin. destruct (nw _ _ Hx' (lookup_empty _)). lia.
    + intros b Hb. destruct (decide (b < length h)) as [Hbl|Hbl].
      * rewrite <- (prefix_lookup_lt _ _ _ Hbl p) in Hb. by apply Hg.
      * assert (Hbh : b < length h') by (by eapply lookup_lt_Some).
        destruct (onto b) as (b0 & Hb0 & _); [lia|].
        destruct (nw _ _ Hb0 (lookup_empty _))
          as [_ (o & Hob & Hng & Hcs & Hbo)].
        rewrite Hb in Hbo. injection Hbo as Hbo.
        exfalso. eapply with_children_not_gen; [exact Hng|]. by rewrite <- Hbo.
  - eexists _, _. split; [done|]. split; [apply list_elem_of_here|]. exact Hh'.
  - intros key w (v' & Hgv & Hs). simpl in Hgv. rewrite Hh in Hgv.
    exists (rename m' v'). split.
    + simpl. rewrite Hh'. rewrite dict_get_zip_rename, Hgv. done.
    + intros j. rewrite <- Hs. eapply content_copy; [done|done| |].
      * split; try done. apply map_empty_subseteq.
      * unfold closed in Hc. rewrite Forall_lookup in Hc.
        specialize (Hc _ _ Hh). unfold obj_ok in Hc.
        rewrite Forall_forall in Hc. apply Hc. by eapply getitem_children.
Qed.

Lemma dict_set_children (P : val -> Prop) k v (es : list (string * val)) :
  Forall P es.*2 -> P v -> Forall P (dict_set k v es).*2.
Proof.
  intros Hes Hv. induction es as [|[k' v'] es IH]; simpl.
  - by apply Forall_singleton.
  - apply Forall_cons in Hes as [H1 H2].
    destruct (decide (k' = k)); simpl; apply Forall_cons; auto.
Qed.

Lemma prefix_insert_ge (h0 h : list obj) a o :
  h0 `prefix_of` h -> length h0 <= a -> h0 `prefix_of` <[a := o]> h.
Proof.
  intros [t ->] Ha. rewrite insert_app_r_alt; [|done]. by apply prefix_app_r.
Qed.

Lemma setitem_map (h0 h : list obj) D d k v :
  hinv h0 h D -> is_map h D d -> val_ok (length h0) v ->
  exists h', setitem d k v h = (Ok tt, h') /\ hinv h0 h' D /\
    length h' = length h /\
    (forall b, is_map h D b -> is_map h' D b) /\
    binds h0 h' d k v /\
    (forall b k' w, is_map h D b -> k' <> k \/ b <> d ->
       binds h0 h b k' w -> binds h0 h' b k' w).
Proof.
  intros [Hp Hc0 Hc HD Hu Hg] (a & es & -> & Ha & Hh) Hv.
  exists (<[a := ODict (dict_set k v es)]> h).
  assert (Hal : a < length h) by (by eapply lookup_lt_Some).
  assert (HvD : avoids D v).
  { destruct v as [| | | |x]; try done. simpl in *. intros Hx.
    apply HD in Hx. lia. }
  assert (Hinv' : hinv h0 (<[a := ODict (dict_set k v es)]> h) D).
  { split; try done.
    - apply prefix_insert_ge; [done|]. by apply HD.
    - apply closed_insert; [done|]. unfold obj_ok. simpl.
      apply dict_set_children.
      + unfold closed in Hc. rewrite Forall_lookup in Hc. apply (Hc _ _ Hh).
      + eapply val_ok_mono; [|done]. by apply prefix_length.
    - intros b Hb. rewrite length_insert. by apply HD.
    - unfold unreferenced. apply Forall_insert; [done|]. simpl.
      apply dict_set_children; [|done].
      unfold unreferenced in Hu. rewrite Forall_lookup in Hu.
      apply (Hu _ _ Hh).
    - intros b Hb. apply Hg. apply list_lookup_insert_Some in Hb.
      destruct Hb as [(_ & ? & _)|[_ Hb]]; [done|done]. }
  assert (Hframe : forall j x, avoids D x ->
    content j (<[a := ODict (dict_set k v es)]> h) x = content j h x).
  { intros j x Hx. eapply content_frame; [done| |done].
    intros b Hb. apply list_lookup_insert_ne. intros ->. done. }
  split; [by simpl; rewrite Hh|]. split; [done|].
  split; [by rewrite length_insert|]. split; [|split].
  - intros b (b' & es' & -> & Hb' & Hhb). destruct (decide (b' = a)) as [->|Hne].
    + eexists _, _. split; [done|]. split; [done|].
      by apply list_lookup_insert_eq.
    + eexists _, _. split; [done|]. split; [done|].
      by rewrite list_lookup_insert_ne.
  - exists v. split.
    + simpl. rewrite list_lookup_insert_eq; [|done]. apply dict_get_set_eq.
    + intros j. apply content_prefix; [done| |done]. apply Hinv'.
  - intros b k' w (b' & es' & -> & Hb' & Hhb) Hor (v' & Hgv & Hs).
    exists v'. simpl in Hgv. rewrite Hhb in Hgv. split.
    + simpl. destruct (decide (b' = a)) as [->|Hne].
      * rewrite list_lookup_insert_eq; [|done].
        assert (es' = es) as -> by congruence.
        rewrite dict_get_set_ne; [done|]. destruct Hor; congruence.
      * rewrite list_lookup_insert_ne; [|done]. by rewrite Hhb.
    + intros j. rewrite <- Hs. apply Hframe.
      unfold unreferenced in Hu. rewrite Forall_lookup in Hu.
      specialize (Hu _ _ Hhb). simpl in Hu. rewrite Forall_forall in Hu.
      apply Hu. by eapply getitem_children.
Qed.

Lemma for_each_setitem {A} (f g : A -> val) k (h0 : list obj) D :
  forall (xs : list A) (h : list obj),
  hinv h0 h D ->
  Forall (fun x => is_map h D (f x) /\ val_ok (length h0) (g x)) xs ->
  exists h', for_each xs (fun x => setitem (f x) k (g x)) h = (Ok tt, h') /\
    hinv h0 h' D /\ length h' = length h /\
    (forall b, is_map h D b -> is_map h' D b) /\
    (forall x, x ∈ xs -> exists x', x' ∈ xs /\ f x' = f x /\
       binds h0 h' (f x) k (g x')) /\
    (forall b k' w, is_map h D b -> k' <> k \/ b ∉ f <$> xs ->
       binds h0 h b k' w -> binds h0 h' b k' w).
Proof.
  induction xs as [|x xs IH]; intros h Hinv Hxs.
  { exists h. split; [done|]. split; [done|]. split; [done|]. split; [done|].
    split; [|done]. intros x Hx. by apply elem_of_nil in Hx. }
  apply Forall_cons in Hxs as [[Hx Hv] Hxs].
  destruct (setitem_map h0 h D (f x) k (g x) Hinv Hx Hv)
    as (h1 & E1 & Hinv1 & Hl1 & Hm1 & Hb1 & Hf1).
  assert (Hxs1 : Forall (fun x => is_map h1 D (f x) /\ val_ok (length h0) (g x)) xs).
  { eapply Forall_impl; [exact Hxs|]. intros y [? ?]. split; auto. }
  destruct (IH h1 Hinv1 Hxs1) as (h' & E' & Hinv' & Hl' & Hm' & Hb' & Hf').
  exists h'. split.
  { simpl. unfold mbind, M_bind. by rewrite E1. }
  split; [done|]. split; [lia|]. split; [auto|]. split.
  - assert (Hhead : exists x', x' ∈ x :: xs /\ f x' = f x /\ binds h0 h' (f x) k (g x')).
    { destruct (decide (f x ∈ f <$> xs)) as [Hin|Hnin].
      - apply list_elem_of_fmap in Hin as (y & Hy & Hyin).
        destruct (Hb' y Hyin) as (x' & Hx' & Hfx' & Hbx').
        exists x'. split; [by apply list_elem_of_further|].
        split; [congruence|]. by rewrite Hy.
      - exists x. split; [apply list_elem_of_here|]. split; [done|].
        apply Hf'; auto. }
    intros y [->|Hy]%elem_of_cons; [done|].
    destruct (Hb' y Hy) as (x' & Hx' & Hfx' & Hbx').
    exists x'. split; [by apply list_elem_of_further|]. done.
  - intros b k' w Hb Hor Hbw. apply Hf'; [auto| |].
    + destruct Hor as [?|Hn]; [by left|]. right. intros Hin. apply Hn.
      rewrite fmap_cons. by apply list_elem_of_further.
    + apply Hf1; [done| |done].
      destruct Hor as [?|Hn]; [by left|]. right. intros ->. apply Hn.
      rewrite fmap_cons. apply list_elem_of_here.
Qed.

Lemma copies_spec (h0 : list obj) d :
  forall (cs : list nat) (h : list obj) D,
  hinv h0 h D -> is_map h D d ->
  match list_comp cs (fun _ => deepcopy d) h with
  | (Ok ys, h') =>
      exists D', hinv h0 h' (D' ++ D) /\ h `prefix_of` h' /\
        length ys = length cs /\ NoDup ys /\
        Forall (fresh_in (length h) (length h')) ys /\
        Forall (fun y => is_map h' (D' ++ D) y /\
                  forall k w, binds h0 h d k w -> binds h0 h' y k w) ys
  | (Raise e, _) => e = TypeError /\ exists a, h0 !! a = Some OGen
  | (Stuck, _) => False
  end.
Proof.
  induction cs as [|c cs IH]; intros h D Hinv Hd; simpl.
  { exists []. split; [done|]. split; [done|]. split; [done|].
    split; [constructor|]. split; constructor. }
  unfold mbind, M_bind.
  pose proof (deepcopy_map h0 h D d Hinv Hd) as H1.
  destruct (deepcopy d h) as [[y| |] h1]; [| done | done].
  destruct H1 as (-> & Hlt & Hp1 & Hinv1 & Hy1 & Hb1).
  assert (Hd1 : is_map h1 (length h :: D) d).
  { eapply is_map_ext; [done| |done].
    intros x Hx. by apply list_elem_of_further. }
  specialize (IH h1 _ Hinv1 Hd1).
  destruct (list_comp cs (fun _ => deepcopy d) h1) as [[ys| |] h']; [|done|done].
  destruct IH as (D' & Hinv' & Hp' & Hl & Hnd & Hfr & Hys). simpl.
  exists (D' ++ [length h]). rewrite <- app_assoc. simpl.
  split; [done|]. split; [by etrans|]. split; [by rewrite Hl|]. split; [|split].
  - apply NoDup_cons. split; [|done]. intros Hin.
    rewrite Forall_forall in Hfr. destruct (Hfr _ Hin) as (a & [= <-] & Ha). lia.
  - apply Forall_cons. split.
    + exists (length h). split; [done|]. apply prefix_length in Hp'. lia.
    + eapply Forall_impl; [exact Hfr|]. intros y (a & -> & Ha).
      exists a. split; [done|]. lia.
  - apply Forall_cons. split.
    + split.
      * eapply is_map_ext; [exact Hp'| |exact Hy1].
        intros x Hx. apply elem_of_app. by right.
      * intros k w Hb. eapply binds_ext; [| exact Hp' | exact Hy1 |].
        -- apply Hinv1.
        -- by apply Hb1.
    + eapply Forall_impl; [exact Hys|]. intros y [Hy Hb]. split; [done|].
      intros k w Hbw. apply Hb. eapply binds_ext; [| exact Hp1 | exact Hd |done].
      apply Hinv.
Qed.

(** The tests of line 74 only look at the caller's objects. *)
Lemma lookup_prefix_ok (h0 h : list obj) a :
  h0 `prefix_of` h -> a < length h0 -> h !! a = h0 !! a.
Proof. intros Hp Ha. symmetry. by apply prefix_lookup_lt. Qed.

Lemma elements_prefix (h0 h : list obj) v :
  h0 `prefix_of` h -> val_ok (length h0) v -> elements h v = elements h0 v.
Proof.
  intros Hp Hv. destruct v as [| | | |a]; try done. simpl in *.
  by rewrite (lookup_prefix_ok h0 h a).
Qed.

Lemma expands_prefix (h0 h : list obj) par :
  h0 `prefix_of` h -> val_ok (length h0) (value par) ->
  expands h par = expands h0 par.
Proof.
  intros Hp Hv. unfold expands. destruct (value par) as [| | | |a]; try done.
  simpl in *. by rewrite (lookup_prefix_ok h0 h a).
Qed.

Lemma copies_all_spec (h0 : list obj) (v : val) (xs : list val) :
  val_ok (length h0) v -> elements h0 v = Some xs ->
  forall (dicts : list val) (h : list obj) D,
  hinv h0 h D -> Forall (is_map h D) dicts ->
  match list_comp dicts
          (fun d => n ← len v; list_comp (seq 0 n) (fun _ => deepcopy d)) h with
  | (Ok yss, h') =>
      exists D', hinv h0 h' (D' ++ D) /\ h `prefix_of` h' /\
        length (concat yss) = length dicts * length xs /\
        NoDup (concat yss) /\
        Forall (fresh_in (length h) (length h')) (concat yss) /\
        Forall (fun y => is_map h' (D' ++ D) y /\
                  exists d, d ∈ dicts /\
                    forall k w, binds h0 h d k w -> binds h0 h' y k w)
          (concat yss)
  | (Raise e, _) => e = TypeError /\ exists a, h0 !! a = Some OGen
  | (Stuck, _) => False
  end.
Proof.
  intros Hv Hxs.
  induction dicts as [|d dicts IH]; intros h D Hinv Hds; simpl.
  { exists []. split; [done|]. split; [done|]. split; [done|].
    split; [constructor|]. split; constructor. }
  apply Forall_cons in Hds as [Hd Hds].
  unfold mbind, M_bind. unfold len at 1.
  rewrite (elements_prefix h0 h v), Hxs; [|apply Hinv|done].
  pose proof (copies_spec h0 d (seq 0 (length xs)) h D Hinv Hd) as H1.
  destruct (list_comp (seq 0 (length xs)) (fun _ => deepcopy d) h)
    as [[ys| |] h1]; [|done|done].
  destruct H1 as (D1 & Hinv1 & Hp1 & Hl1 & Hnd1 & Hfr1 & Hys1).
  rewrite length_seq in Hl1.
  assert (Hds1 : Forall (is_map h1 (D1 ++ D)) dicts).
  { eapply Forall_impl; [exact Hds|]. intros b Hb.
    eapply is_map_ext; [exact Hp1| |exact Hb].
    intros x Hx. apply elem_of_app. by right. }
  specialize (IH h1 _ Hinv1 Hds1).
  destruct (list_comp dicts _ h1) as [[yss| |] h']; [|done|done].
  destruct IH as (D' & Hinv' & Hp' & Hl & Hnd & Hfr & Hys). simpl.
  exists (D' ++ D1). rewrite <- app_assoc.
  split; [done|]. split; [by etrans|]. split; [|split; [|split]].
  - rewrite length_app, Hl, Hl1. lia.
  - apply NoDup_app. split; [done|]. split; [|done].
    intros y Hy1 Hy2. rewrite Forall_forall in Hfr1, Hfr.
    destruct (Hfr1 _ Hy1) as (a & -> & Ha).
    destruct (Hfr _ Hy2) as (a' & [= <-] & Ha'). lia.
  - apply Forall_app. split.
    + eapply Forall_impl; [exact Hfr1|]. intros y (a & -> & Ha).
      exists a. split; [done|]. apply prefix_length in Hp'. lia.
    + eapply Forall_impl; [exact Hfr|]. intros y (a & -> & Ha).
      exists a. split; [done|]. apply prefix_length in Hp1. lia.
  - apply Forall_app. split.
    + eapply Forall_impl; [exact Hys1|]. intros y [Hy Hb]. split.
      * eapply is_map_ext; [exact Hp'| |exact Hy].
        intros x Hx. apply elem_of_app. by right.
      * exists d. split; [apply list_elem_of_here|]. intros k w Hbw.
        eapply binds_ext; [|exact Hp'|exact Hy|by apply Hb]. apply Hinv1.
    + eapply Forall_impl; [exact Hys|]. intros y [Hy (b & Hbin & Hb)].
      split; [done|]. exists b. split; [by apply list_elem_of_further|].
      intros k w Hbw. apply Hb.
      rewrite Forall_forall in Hds.
      eapply binds_ext; [|exact Hp1|by apply Hds|done]. apply Hinv.
Qed.

Lemma zip_cycle_fst {A B} (xs : list A) (cur saved : list B) :
  saved <> [] -> (zip_cycle xs cur saved).*1 = xs.
Proof.
  intros Hs. revert cur. induction xs as [|x xs IH]; intros cur; simpl; [done|].
  destruct cur as [|y cur]; simpl.
  - destruct saved as [|y rest]; [done|]. simpl. f_equal. apply IH.
  - f_equal. apply IH.
Qed.

Lemma zip_cycle_in {A B} (xs : list A) (cur saved : list B) :
  cur ⊆ saved ->
  Forall (fun p => p.1 ∈ xs /\ p.2 ∈ saved) (zip_cycle xs cur saved).
Proof.
  revert cur. induction xs as [|x xs IH]; intros cur Hcur; simpl.
  { constructor. }
  assert (Hcons : forall (y : B) (c : list B), y ∈ saved -> c ⊆ saved ->
    Forall (fun p => p.1 ∈ x :: xs /\ p.2 ∈ saved) ((x, y) :: zip_cycle xs c saved)).
  { intros y c Hy Hc. apply Forall_cons. split.
    - split; [apply list_elem_of_here|done].
    - eapply Forall_impl; [apply IH; exact Hc|]. intros p [? ?].
      split; [by apply list_elem_of_further|done]. }
  destruct cur as [|y cur].
  - destruct saved as [|y rest] eqn:E; [constructor|]. rewrite <- E in *.
    apply Hcons.
    + rewrite E. apply list_elem_of_here.
    + rewrite E. intros z Hz. by apply list_elem_of_further.
  - apply Hcons.
    + apply Hcur, list_elem_of_here.
    + intros z Hz. apply Hcur. by apply list_elem_of_further.
Qed.

Lemma expands_elements h par :
  expands h par = true -> exists xs, elements h (value par) = Some xs.
Proof.
  unfold expands. intros H. repeat (apply andb_prop in H as [H ?]).
  destruct (value par) as [| | | |a]; try done. simpl in *.
  destruct (h !! a) as [[]|]; try done; eauto.
Qed.

Lemma elements_ok (h : list obj) v xs :
  closed h -> elements h v = Some xs -> Forall (val_ok (length h)) xs.
Proof.
  intros Hc. destruct v as [| | |s|a]; try done; simpl.
  - intros [= <-]. induction s; simpl; constructor; done.
  - destruct (h !! a) as [o|] eqn:E; [|done].
    unfold closed in Hc. rewrite Forall_lookup in Hc. specialize (Hc _ _ E).
    destruct o; try done; intros [= <-]; try exact Hc.
    apply Forall_fmap. by apply Forall_true.
Qed.

Lemma last_named_snoc par q done :
  last_named q (done ++ [par]) ->
  (q = par) \/ (last_named q done /\ name q <> name par).
Proof.
  intros (l1 & l2 & E & Hn).
  destruct (decide (l2 = [])) as [->|Hne].
  - left. apply app_inj_tail in E as [_ ->]. done.
  - right. destruct (exists_last Hne) as (l2' & z & ->).
    change (l1 ++ q :: l2' ++ [z]) with (l1 ++ (q :: l2') ++ [z]) in E.
    rewrite app_assoc in E. apply app_inj_tail in E as [-> ->].
    rewrite fmap_app in Hn. split.
    + exists l1, l2'. split; [done|]. intros H. apply Hn.
      apply elem_of_app. by left.
    + intros H. apply Hn. apply elem_of_app. right. rewrite H.
      apply list_elem_of_here.
Qed.

Lemma last_named_last par done : last_named par (done ++ [par]).
Proof. exists done, []. split; [done|]. apply not_elem_of_nil. Qed.

Lemma expansion_size_snoc h done par :
  expansion_size h (done ++ [par]) = expansion_size h done * factor h par.
Proof.
  unfold expansion_size. induction done as [|q done IH]; simpl; [lia|].
  rewrite IH. lia.
Qed.

Lemma expand_step_broadcast (h0 : list obj) done h dicts D par :
  inv h0 done h dicts D -> val_ok (length h0) (value par) ->
  expands h0 par = false ->
  exists h', expand_step dicts par h = (Ok dicts, h') /\
    inv h0 (done ++ [par]) h' dicts D.
Proof.
  intros [Hh Hmaps Hlen Hnd Hbind] Hv Hex.
  unfold expand_step, mbind, M_bind, get. simpl.
  rewrite (expands_prefix h0 h par), Hex; [|apply Hh|done].
  destruct (for_each_setitem (fun d => d) (fun _ => value par) (name par)
              h0 D dicts h Hh) as (h' & E & Hh' & Hl' & Hm' & Hb' & Hf').
  { eapply Forall_impl; [exact Hmaps|]. intros d Hd. by split. }
  cbv beta in E. rewrite E. exists h'. split; [done|]. split; try done.
  - eapply Forall_impl; [exact Hmaps|]. intros d Hd. auto.
  - rewrite expansion_size_snoc, Hlen. unfold factor. rewrite Hex. lia.
  - rewrite Forall_forall in Hmaps.
    intros d q Hd [->|[Hq Hne]]%last_named_snoc.
    + exists (value par). split.
      * unfold choices. rewrite Hex. apply list_elem_of_here.
      * destruct (Hb' d Hd) as (x' & _ & _ & Hbx). exact Hbx.
    + destruct (Hbind d q Hd Hq) as (v & Hvin & Hbv). exists v.
      split; [done|]. apply Hf'; auto.
Qed.

Lemma expand_step_expand (h0 : list obj) done h dicts D par :
  inv h0 done h dicts D -> val_ok (length h0) (value par) ->
  expands h0 par = true ->
  match expand_step dicts par h with
  | (Ok dicts', h') => exists D', inv h0 (done ++ [par]) h' dicts' D'
  | (Raise e, _) => e = TypeError /\ exists a, h0 !! a = Some OGen
  | (Stuck, _) => False
  end.
Proof.
  intros [Hh Hmaps Hlen Hnd Hbind] Hv Hex.
  destruct (expands_elements _ _ Hex) as [xs Hxs].
  assert (Hxsok : Forall (val_ok (length h0)) xs).
  { eapply elements_ok; [apply Hh|done]. }
  unfold expand_step, mbind, M_bind, get. simpl.
  rewrite (expands_prefix h0 h par), Hex; [|apply Hh|done].
  pose proof (copies_all_spec h0 (value par) xs Hv Hxs dicts h D Hh Hmaps) as Hc.
  destruct (list_comp dicts _ h) as [[yss| |] h1]; [|done|done].
  destruct Hc as (D1 & Hh1 & Hp1 & Hl1 & Hnd1 & Hfr1 & Hys1).
  unfold iter. rewrite (elements_prefix h0 h1), Hxs; [|apply Hh1|done].
  pose proof (zip_cycle_in (concat yss) xs xs (reflexivity _)) as Hzin.
  rewrite Forall_forall in Hys1.
  destruct (for_each_setitem fst snd (name par) h0 (D1 ++ D)
              (zip_cycle (concat yss) xs xs) h1 Hh1)
    as (h' & E & Hh' & Hl' & Hm' & Hb' & Hf').
  { eapply Forall_impl; [exact Hzin|]. intros p [Hp1' Hp2]. split.
    - by apply Hys1.
    - rewrite Forall_forall in Hxsok. by apply Hxsok. }
  rewrite E. exists (D1 ++ D). split; try done.
  - apply Forall_forall. intros y Hy. apply Hm'. by apply Hys1.
  - rewrite expansion_size_snoc, Hl1, Hlen. unfold factor.
    by rewrite Hex, Hxs.
  - intros y q Hy [->|[Hq Hne]]%last_named_snoc.
    + assert (Hxne : xs <> []).
      { intros ->. simpl in Hl1. rewrite Nat.mul_0_r in Hl1.
        apply nil_length_inv in Hl1. rewrite Hl1 in Hy.
        by apply elem_of_nil in Hy. }
      rewrite <- (zip_cycle_fst (concat yss) xs xs Hxne) in Hy.
      apply list_elem_of_fmap in Hy as (p & -> & Hp).
      destruct (Hb' p Hp) as (x' & Hx' & Hfx & Hbx).
      exists x'.2. split; [|done].
      unfold choices. rewrite Hex, Hxs. simpl.
      rewrite Forall_forall in Hzin. by apply Hzin.
    + destruct (Hys1 y Hy) as [Hym (d & Hd & Hcopy)].
      destruct (Hbind d q Hd Hq) as (v & Hvin & Hbv). exists v.
      split; [done|]. apply Hf'; auto.
Qed.

Lemma expand_step_inv (h0 : list obj) done h dicts D par :
  inv h0 done h dicts D -> val_ok (length h0) (value par) ->
  match expand_step dicts par h with
  | (Ok dicts', h') => exists D', inv h0 (done ++ [par]) h' dicts' D'
  | (Raise e, _) => e = TypeError /\ exists a, h0 !! a = Some OGen
  | (Stuck, _) => False
  end.
Proof.
  intros Hinv Hv. destruct (expands h0 par) eqn:Hex.
  - by apply (expand_step_expand h0 done h dicts D par).
  - destruct (expand_step_broadcast h0 done h dicts D par Hinv Hv Hex)
      as (h' & -> & Hinv'). by exists D.
Qed.

Lemma for_fold_inv (h0 : list obj) :
  forall ps done h dicts D,
  inv h0 done h dicts D -> params_ok h0 ps ->
  match for_fold expand_step dicts ps h with
  | (Ok dicts', h') => exists D', inv h0 (done ++ ps) h' dicts' D'
  | (Raise e, _) => e = TypeError /\ exists a, h0 !! a = Some OGen
  | (Stuck, _) => False
  end.
Proof.
  induction ps as [|par ps IH]; intros done h dicts D Hinv Hps; simpl.
  { exists D. by rewrite app_nil_r. }
  apply Forall_cons in Hps as [Hv Hps].
  unfold mbind, M_bind.
  pose proof (expand_step_inv h0 done h dicts D par Hinv Hv) as Hstep.
  destruct (expand_step dicts par h) as [[dicts1| |] h1]; [|done|done].
  destruct Hstep as (D1 & Hinv1).
  specialize (IH (done ++ [par]) h1 dicts1 D1 Hinv1 Hps).
  by rewrite <- app_assoc in IH.
Qed.

Lemma inv_init (h0 : list obj) :
  closed h0 ->
  inv h0 [] (h0 ++ [ODict []]) [VRef (length h0)] [length h0].
Proof.
  intros Hc. split.
  - split; try done.
    + by apply prefix_app_r.
    + by apply closed_snoc.
    + intros a ->%list_elem_of_singleton. rewrite length_app. simpl. lia.
    + unfold unreferenced. apply Forall_app. split; [|by repeat constructor].
      unfold closed in Hc. eapply Forall_impl; [exact Hc|]. intros o Ho.
      eapply Forall_impl; [exact Ho|]. intros v Hv.
      destruct v as [| | | |a]; try done. simpl in *.
      intros ->%list_elem_of_singleton. lia.
    + intros a Ha. apply lookup_lt_Some in Ha as Hlt.
      rewrite length_app in Hlt. simpl in Hlt.
      destruct (decide (a = length h0)) as [->|]; [|lia].
      rewrite lookup_app_r, Nat.sub_diag in Ha; [done|lia].
  - apply Forall_singleton. exists (length h0), [].
    split; [done|]. split; [apply list_elem_of_here|].
    rewrite lookup_app_r, Nat.sub_diag; [done|lia].
  - done.
  - apply NoDup_singleton.
  - intros d q _ (l1 & l2 & E & _). by destruct l1.
Qed.

Lemma expand_parameters_inv (h0 : list obj) ps :
  closed h0 -> params_ok h0 ps ->
  match expand_parameters ps h0 with
  | (Ok dicts, h') => exists D, inv h0 ps h' dicts D
  | (Raise e, _) => e = TypeError /\ exists a, h0 !! a = Some OGen
  | (Stuck, _) => False
  end.
Proof.
  intros Hc Hps. unfold expand_parameters, mbind, M_bind, alloc.
  apply (for_fold_inv h0 ps [] _ _ _ (inv_init h0 Hc) Hps).
Qed.

Lemma expand_parameters_returns (h0 : list obj) ps :
  closed h0 -> params_ok h0 ps -> no_generator h0 ->
  exists dicts h', expand_parameters ps h0 = (Ok dicts, h').
Proof.
  intros Hc Hps Hg. pose proof (expand_parameters_inv h0 ps Hc Hps) as H.
  destruct (expand_parameters ps h0) as [[dicts|e|] h']; [eauto| |done].
  destruct H as (_ & a & Ha). unfold no_generator in Hg.
  rewrite Forall_lookup in Hg. by destruct (Hg _ _ Ha).
Qed.

Lemma expansion_size_broadcast h ps :
  Forall (fun par => expands h par = false) ps -> expansion_size h ps = 1.
Proof.
  induction 1 as [|par ps Hp _ IH]; simpl; [done|].
  unfold factor. rewrite Hp, IH. done.
Qed.

Lemma expansion_size_empty h ps par :
  par ∈ ps -> expands h par = true -> elements h (value par) = Some [] ->
  expansion_size h ps = 0.
Proof.
  intros Hin Hex Hel. induction ps as [|q ps IH]; [by apply elem_of_nil in Hin|].
  simpl. apply elem_of_cons in Hin as [<-|Hin].
  - unfold factor. by rewrite Hex, Hel.
  - rewrite IH; [lia|done].
Qed.

Lemma for_fold_broadcast (h0 : list obj) :
  forall ps es,
  params_ok h0 ps -> Forall (fun par => expands h0 par = false) ps ->
  for_fold expand_step [VRef (length h0)] ps (h0 ++ [ODict es]) =
    (Ok [VRef (length h0)], h0 ++ [ODict (broadcast_all ps es)]).
Proof.
  induction ps as [|par ps IH]; intros es Hps Hbs; [done|].
  apply Forall_cons in Hps as [Hv Hps]. apply Forall_cons in Hbs as [Hb Hbs].
  simpl. unfold mbind, M_bind. unfold expand_step at 1.
  unfold mbind, M_bind, get.
  rewrite (expands_prefix h0); [|by apply prefix_app_r|done]. rewrite Hb.
  simpl. unfold mbind, M_bind. simpl.
  rewrite lookup_app_r, Nat.sub_diag; [|lia]. simpl.
  rewrite insert_app_r_alt, Nat.sub_diag; [|lia]. simpl.
  apply IH; done.
Qed.

Lemma broadcast_all_get ps es par :
  last_named par ps ->
  dict_get (name par) (broadcast_all ps es) = Some (value par).
Proof.
  intros (l1 & l2 & -> & Hn). unfold broadcast_all.
  rewrite foldl_app. simpl.
  generalize (foldl (fun es par => dict_set (name par) (value par) es) es l1).
  intros es1.
  assert (Hstart : dict_get (name par) (dict_set (name par) (value par) es1)
                   = Some (value par)) by apply dict_get_set_eq.
  revert Hstart. generalize (dict_set (name par) (value par) es1).
  induction l2 as [|q l2 IH]; intros es2 Hes2; simpl; [done|].
  apply IH.
  - intros H. apply Hn. rewrite fmap_cons. by apply list_elem_of_further.
  - rewrite dict_get_set_ne; [done|]. intros E. apply Hn. rewrite fmap_cons, E.
    apply list_elem_of_here.
Qed.

Lemma last_named_NoDup par (ps : list Param) :
  NoDup (name <$> ps) -> par ∈ ps -> last_named par ps.
Proof.
  intros Hnd Hin. apply list_elem_of_split in Hin as (l1 & l2 & ->).
  exists l1, l2. split; [done|].
  rewrite fmap_app, fmap_cons in Hnd. apply NoDup_app in Hnd as (_ & _ & Hnd).
  by apply NoDup_cons in Hnd as [? _].
Qed.

End ExpandFacts.

(** * What the maps own after the last expansion *)

Module RegionFacts.
Import MonadFacts Py PySpec PyFacts Expand ExpandSpec ExpandFacts.


Lemma separated_weaken lo rs hi hi' :
  hi <= hi' -> separated lo rs hi -> separated lo rs hi'.
Proof.
  revert lo. induction rs as [|r rs IH]; intros lo Hle; simpl; [lia|].
  intros (? & ? & ?). eauto.
Qed.
















End RegionFacts.

(** * The expansion puts every choice at its place *)

Module OrderFacts.
Import MonadFacts Py PySpec PyFacts Expand ExpandSpec ExpandFacts OrderSpec.

Lemma zip_cycle_lookup {A B} (saved : list B) :
  saved <> [] ->
  forall (ds : list A) (c i : nat) (d : A),
  c <= length saved -> ds !! i = Some d ->
  exists x, saved !! ((c + i) mod length saved) = Some x /\
    zip_cycle ds (drop c saved) saved !! i = Some (d, x).
Proof.
  intros Hne. induction ds as [|d0 ds IH]; intros c i d Hc Hi; [done|].
  assert (Hn : 0 < length saved) by (destruct saved; [done|simpl; lia]).
  simpl. destruct (drop c saved) as [|y cur] eqn:Ed.
  - assert (c = length saved) as ->.
    { apply (f_equal length) in Ed. rewrite length_drop in Ed. simpl in Ed. lia. }
    destruct saved as [|y rest] eqn:Es; [done|]. rewrite <- Es in *.
    destruct i as [|i].
    + injection Hi as ->. exists y. split; [|done].
      rewrite Nat.add_0_r, Nat.Div0.mod_same. by rewrite Es.
    + simpl in Hi. destruct (IH 1 i d) as (x & Hx & Hz); [lia|done|].
      exists x. split.
      * rewrite <- Hx. f_equal.
        replace (length saved + S i) with (1 + i + 1 * length saved) by lia.
        by rewrite Nat.Div0.mod_add.
      * simpl. replace (drop 1 saved) with rest in Hz; [done|]. by rewrite Es.
  - assert (Hcl : c < length saved).
    { apply (f_equal length) in Ed. rewrite length_drop in Ed. simpl in Ed. lia. }
    assert (Hy : saved !! c = Some y).
    { rewrite <- (Nat.add_0_r c), <- lookup_drop, Ed. done. }
    assert (Hcur : cur = drop (S c) saved).
    { replace (S c) with (c + 1) by lia. rewrite <- drop_drop, Ed. done. }
    destruct i as [|i].
    + injection Hi as ->. exists y. split; [|done].
      rewrite Nat.add_0_r, Nat.mod_small; done.
    + simpl in Hi. destruct (IH (S c) i d) as (x & Hx & Hz); [lia|done|].
      exists x. split.
      * rewrite <- Hx. f_equal. f_equal. lia.
      * simpl. by rewrite Hcur.
Qed.

Lemma copies_all_placed (h0 : list obj) (v : val) (xs : list val) :
  val_ok (length h0) v -> elements h0 v = Some xs ->
  forall (dicts : list val) (h : list obj) D yss h',
  hinv h0 h D -> Forall (is_map h D) dicts ->
  list_comp dicts
    (fun d => n ← len v; list_comp (seq 0 n) (fun _ => deepcopy d)) h
    = (Ok yss, h') ->
  forall i y, concat yss !! i = Some y ->
  exists d, dicts !! (i / length xs) = Some d /\
    forall k w, binds h0 h d k w -> binds h0 h' y k w.
Proof.
  intros Hv Hxs.
  induction dicts as [|d dicts IH]; intros h D yss h' Hinv Hds E i y Hi.
  { simpl in E. injection E as <- <-. done. }
  apply Forall_cons in Hds as [Hd Hds].
  simpl in E. rewrite bind_run in E. rewrite bind_run in E. unfold len at 1 in E.
  rewrite (elements_prefix h0 h v), Hxs in E; [|apply Hinv|done].
  pose proof (copies_spec h0 d (seq 0 (length xs)) h D Hinv Hd) as H1.
  destruct (list_comp (seq 0 (length xs)) (fun _ => deepcopy d) h)
    as [[ys| |] h1]; [|done|done].
  destruct H1 as (D1 & Hinv1 & Hp1 & Hl1 & Hnd1 & Hfr1 & Hys1).
  rewrite length_seq in Hl1.
  assert (Hds1 : Forall (is_map h1 (D1 ++ D)) dicts).
  { eapply Forall_impl; [exact Hds|]. intros b Hb.
    eapply is_map_ext; [exact Hp1| |exact Hb].
    intros x Hx. apply elem_of_app. by right. }
  pose proof (copies_all_spec h0 v xs Hv Hxs dicts h1 _ Hinv1 Hds1) as Hall.
  rewrite bind_run in E.
  destruct (list_comp dicts _ h1) as [[yss'| |] h2] eqn:E2; [|done|done].
  destruct Hall as (D' & Hinv' & Hp' & Hl' & _).
  injection E as <- <-. simpl in Hi.
  destruct (decide (i < length ys)) as [Hlt|Hge].
  - rewrite lookup_app_l in Hi; [|done].
    rewrite Nat.div_small; [|lia]. exists d. split; [done|].
    intros k w Hb. rewrite Forall_forall in Hys1.
    destruct (Hys1 y) as [Hy Hcopy]; [by eapply list_elem_of_lookup_2|].
    eapply binds_ext; [|exact Hp'|exact Hy|by apply Hcopy]. apply Hinv1.
  - rewrite lookup_app_r in Hi; [|lia].
    destruct (IH h1 _ yss' h2 Hinv1 Hds1 E2 _ _ Hi) as (d' & Hd' & Hcopy).
    exists d'. split.
    + assert (Hpos : 0 < length xs).
      { apply lookup_lt_Some in Hi. rewrite Hl' in Hi.
        destruct xs; simpl in *; lia. }
      replace i with ((i - length ys) + 1 * length xs) by lia.
      rewrite Nat.div_add; [|lia]. rewrite Nat.add_1_r. simpl.
      exact Hd'.
    + intros k w Hb. apply Hcopy.
      rewrite Forall_forall in Hds.
      eapply binds_ext; [|exact Hp1|apply Hds; by eapply list_elem_of_lookup_2|done].
      apply Hinv.
Qed.

Lemma digit_last (h : list obj) (par : Param) (i : nat) :
  digit h par [] i = i mod factor h par.
Proof. unfold digit, expansion_size. cbn [foldr]. by rewrite Nat.div_1_r. Qed.

Lemma digit_snoc (h : list obj) (q par : Param) (later : list Param) (i : nat) :
  digit h q (later ++ [par]) i = digit h q later (i / factor h par).
Proof.
  unfold digit. rewrite expansion_size_snoc.
  rewrite Nat.Div0.div_div. do 2 f_equal. lia.
Qed.

Lemma split_snoc {A} (done l1 l2 : list A) (par q : A) :
  done ++ [par] = l1 ++ q :: l2 ->
  (l2 = [] /\ l1 = done /\ q = par) \/
  (exists l2', l2 = l2' ++ [par] /\ done = l1 ++ q :: l2').
Proof.
  intros E. destruct (decide (l2 = [])) as [->|Hne].
  - left. apply app_inj_tail in E as [-> ->]. done.
  - right. destruct (exists_last Hne) as (l2' & z & ->).
    change (l1 ++ q :: l2' ++ [z]) with (l1 ++ (q :: l2') ++ [z]) in E.
    rewrite app_assoc in E. apply app_inj_tail in E as [-> ->]. eauto.
Qed.

Lemma expand_step_placed_broadcast (h0 : list obj) done h dicts D par dicts' h' :
  inv h0 done h dicts D -> placed h0 done h dicts ->
  val_ok (length h0) (value par) -> expands h0 par = false ->
  expand_step dicts par h = (Ok dicts', h') ->
  placed h0 (done ++ [par]) h' dicts'.
Proof.
  intros [Hh Hmaps Hlen Hnd Hbind] Hpl Hv Hex E.
  unfold expand_step in E. rewrite bind_run in E. unfold get in E.
  rewrite (expands_prefix h0 h par), Hex in E; [|apply Hh|done].
  destruct (for_each_setitem (fun d => d) (fun _ => value par) (name par)
              h0 D dicts h Hh) as (h2 & E2 & Hh' & Hl' & Hm' & Hb' & Hf').
  { eapply Forall_impl; [exact Hmaps|]. intros d Hd. by split. }
  cbv beta in E2. rewrite bind_run, E2 in E. injection E as <- <-.
  assert (Hf : factor h0 par = 1) by (unfold factor; by rewrite Hex).
  intros i d l1 q l2 Hi Hsplit Hnot.
  assert (Hd : d ∈ dicts) by (by eapply list_elem_of_lookup_2).
  apply split_snoc in Hsplit as [(-> & -> & ->)|(l2' & -> & ->)].
  - rewrite digit_last, Hf, Nat.mod_1_r. exists (value par). split.
    + unfold choices. by rewrite Hex.
    + destruct (Hb' d Hd) as (x' & _ & _ & Hbx). exact Hbx.
  - rewrite digit_snoc, Hf, Nat.div_1_r.
    rewrite fmap_app in Hnot.
    destruct (Hpl i d l1 q l2' Hi eq_refl) as (v & Hv' & Hbv).
    { intros H. apply Hnot. apply elem_of_app. by left. }
    exists v. split; [done|]. rewrite Forall_forall in Hmaps.
    apply Hf'; [by apply Hmaps| |done]. left. intros Hn. apply Hnot.
    apply elem_of_app. right. rewrite Hn. apply list_elem_of_here.
Qed.

Lemma expand_step_placed_expand (h0 : list obj) done h dicts D par dicts' h' :
  inv h0 done h dicts D -> placed h0 done h dicts ->
  val_ok (length h0) (value par) -> expands h0 par = true ->
  expand_step dicts par h = (Ok dicts', h') ->
  placed h0 (done ++ [par]) h' dicts'.
Proof.
  intros [Hh Hmaps Hlen Hnd Hbind] Hpl Hv Hex E.
  destruct (expands_elements _ _ Hex) as [xs Hxs].
  assert (Hxsok : Forall (val_ok (length h0)) xs).
  { eapply elements_ok; [apply Hh|done]. }
  unfold expand_step in E. rewrite bind_run in E. unfold get in E.
  rewrite (expands_prefix h0 h par), Hex in E; [|apply Hh|done].
  rewrite bind_run in E.
  pose proof (copies_all_spec h0 (value par) xs Hv Hxs dicts h D Hh Hmaps) as Hc.
  pose proof (copies_all_placed h0 (value par) xs Hv Hxs dicts h D) as Hcp.
  destruct (list_comp dicts _ h) as [[yss| |] h1]; [|done|done].
  specialize (Hcp yss h1 Hh Hmaps eq_refl).
  destruct Hc as (D1 & Hh1 & Hp1 & Hl1 & Hnd1 & Hfr1 & Hys1).
  rewrite bind_run in E. unfold iter in E.
  rewrite (elements_prefix h0 h1), Hxs in E; [|apply Hh1|done].
  pose proof (zip_cycle_in (concat yss) xs xs (reflexivity _)) as Hzin.
  rewrite Forall_forall in Hys1.
  destruct (for_each_setitem fst snd (name par) h0 (D1 ++ D)
              (zip_cycle (concat yss) xs xs) h1 Hh1)
    as (h2 & E2 & Hh' & Hl' & Hm' & Hb' & Hf').
  { eapply Forall_impl; [exact Hzin|]. intros p [Hp1' Hp2]. split.
    - by apply Hys1.
    - rewrite Forall_forall in Hxsok. by apply Hxsok. }
  rewrite bind_run, E2 in E. injection E as <- <-.
  assert (Hf : factor h0 par = length xs) by (unfold factor; by rewrite Hex, Hxs).
  intros i y l1 q l2 Hi Hsplit Hnot.
  assert (Hy : y ∈ concat yss) by (by eapply list_elem_of_lookup_2).
  assert (Hxne : xs <> []).
  { intros ->. simpl in Hl1. rewrite Nat.mul_0_r in Hl1.
    apply nil_length_inv in Hl1. rewrite Hl1 in Hy.
    by apply elem_of_nil in Hy. }
  apply split_snoc in Hsplit as [(-> & -> & ->)|(l2' & -> & ->)].
  - rewrite digit_last, Hf.
    destruct (zip_cycle_lookup xs Hxne (concat yss) 0 i y) as (x & Hx & Hz);
      [lia|done|].
    rewrite drop_0 in Hz. simpl in Hx. exists x. split.
    + unfold choices. by rewrite Hex, Hxs.
    + destruct (Hb' (y, x)) as (x' & Hx' & Hfx & Hbx).
      { by eapply list_elem_of_lookup_2. }
      simpl in Hfx, Hbx.
      apply list_elem_of_lookup in Hx' as [j Hj].
      assert (Hjy : concat yss !! j = Some y).
      { rewrite <- (zip_cycle_fst (concat yss) xs xs Hxne).
        rewrite list_lookup_fmap, Hj. simpl. by rewrite Hfx. }
      assert (j = i) as -> by (by eapply NoDup_lookup).
      rewrite Hz in Hj. injection Hj as <-. exact Hbx.
  - rewrite digit_snoc, Hf. rewrite fmap_app in Hnot.
    destruct (Hcp i y Hi) as (d & Hd & Hcopy).
    destruct (Hpl _ d l1 q l2' Hd eq_refl) as (v & Hv' & Hbv).
    { intros H. apply Hnot. apply elem_of_app. by left. }
    exists v. split; [done|].
    apply Hf'; [by apply Hys1| |by apply Hcopy]. left. intros Hn. apply Hnot.
    apply elem_of_app. right. rewrite Hn. apply list_elem_of_here.
Qed.

Lemma for_fold_placed (h0 : list obj) :
  forall ps done h dicts D dicts' h',
  inv h0 done h dicts D -> placed h0 done h dicts -> params_ok h0 ps ->
  for_fold expand_step dicts ps h = (Ok dicts', h') ->
  placed h0 (done ++ ps) h' dicts'.
Proof.
  induction ps as [|par ps IH]; intros done h dicts D dicts' h' Hinv Hpl Hps E.
  { simpl in E. injection E as <- <-. by rewrite app_nil_r. }
  apply Forall_cons in Hps as [Hv Hps].
  simpl in E. rewrite bind_run in E.
  pose proof (expand_step_inv h0 done h dicts D par Hinv Hv) as Hstep.
  destruct (expand_step dicts par h) as [[dicts1| |] h1] eqn:E1; [|done|done].
  destruct Hstep as (D1 & Hinv1).
  assert (Hpl1 : placed h0 (done ++ [par]) h1 dicts1).
  { destruct (expands h0 par) eqn:Hex.
    - by eapply expand_step_placed_expand.
    - by eapply expand_step_placed_broadcast. }
  specialize (IH (done ++ [par]) h1 dicts1 D1 dicts' h' Hinv1 Hpl1 Hps E).
  by rewrite <- app_assoc in IH.
Qed.

Lemma expand_parameters_placed (h0 : list obj) ps dicts h' :
  closed h0 -> params_ok h0 ps ->
  expand_parameters ps h0 = (Ok dicts, h') ->
  placed h0 ps h' dicts.
Proof.
  intros Hc Hps E. unfold expand_parameters in E. rewrite bind_run in E.
  unfold alloc in E.
  apply (for_fold_placed h0 ps [] _ _ _ _ _ (inv_init h0 Hc)); [|done|done].
  intros i d l1 par l2 _ Hnil. by destruct l1.
Qed.

End OrderFacts.
(** * Every combination of choices has its map *)

Module ComboFacts.
Import MonadFacts Py PySpec PyFacts Expand ExpandSpec ExpandFacts OrderSpec
  OrderFacts ComboSpec.

Lemma length_choices (h : list obj) (par : Param) :
  length (choices h par) = factor h par.
Proof. unfold choices, factor. by destruct (expands h par). Qed.

Lemma expansion_size_app (h : list obj) (l1 l2 : list Param) :
  expansion_size h (l1 ++ l2) = expansion_size h l1 * expansion_size h l2.
Proof.
  unfold expansion_size. induction l1 as [|q l1 IH]; simpl; [lia|].
  rewrite IH. lia.
Qed.

Lemma index_of_lt (h : list obj) (ps : list Param) (cs : list nat) :
  Forall2 (fun c par => c < factor h par) cs ps ->
  index_of h ps cs < expansion_size h ps.
Proof.
  induction 1 as [|c par cs ps Hc _ IH]; simpl; [lia|]. nia.
Qed.

Lemma index_of_digit (h : list obj) (par : Param) (l2 : list Param) (c : nat) :
  forall (l1 : list Param) (cs : list nat),
  Forall2 (fun c par => c < factor h par) cs (l1 ++ par :: l2) ->
  cs !! length l1 = Some c ->
  digit h par l2 (index_of h (l1 ++ par :: l2) cs) = c.
Proof.
  induction l1 as [|q l1 IH]; intros cs Hcs Hc.
  - destruct cs as [|c0 cs]; [done|]. simpl in Hc. injection Hc as ->.
    apply Forall2_cons in Hcs as [Hlt Htl].
    pose proof (index_of_lt h l2 cs Htl) as He.
    unfold digit. simpl.
    rewrite Nat.div_add_l; [|lia]. rewrite (Nat.div_small (index_of h l2 cs)); [|lia].
    rewrite Nat.add_0_r. by apply Nat.mod_small.
  - destruct cs as [|c0 cs]; [done|]. simpl in Hc.
    apply Forall2_cons in Hcs as [Hlt Htl].
    specialize (IH cs Htl Hc).
    pose proof (index_of_lt h _ cs Htl) as He.
    assert (Hpos : 0 < expansion_size h l2).
    { rewrite expansion_size_app in He. simpl in He.
      destruct (expansion_size h l2); [|lia]. lia. }
    unfold digit in *. simpl.
    rewrite expansion_size_app. simpl.
    replace (c0 * (expansion_size h l1 * (factor h par * expansion_size h l2)))
      with ((c0 * expansion_size h l1 * factor h par) * expansion_size h l2)
      by lia.
    rewrite Nat.div_add_l; [|lia].
    rewrite Nat.add_comm, Nat.Div0.mod_add. exact IH.
Qed.

Lemma picks_places (h : list obj) (picks : list val) (ps : list Param) :
  Forall2 (fun v par => v ∈ choices h par) picks ps ->
  exists cs, Forall2 (fun c par => c < factor h par) cs ps /\
    forall j par v, ps !! j = Some par -> picks !! j = Some v ->
      exists c, cs !! j = Some c /\ choices h par !! c = Some v.
Proof.
  induction 1 as [|v par picks ps Hv _ (cs & Hcs & Hat)].
  { exists []. split; [constructor|]. done. }
  apply list_elem_of_lookup in Hv as [c Hc].
  exists (c :: cs). split.
  - constructor; [|done]. rewrite <- length_choices. by eapply lookup_lt_Some.
  - intros [|j] q u Hq Hu; simpl in *.
    + injection Hq as <-. injection Hu as <-. eauto.
    + by apply Hat.
Qed.

Lemma all_combinations (h0 : list obj) (ps : list Param) (dicts : list val)
    (h' : list obj) (picks : list val) :
  closed h0 -> params_ok h0 ps -> NoDup (name <$> ps) ->
  expand_parameters ps h0 = (Ok dicts, h') ->
  Forall2 (fun v par => v ∈ choices h0 par) picks ps ->
  exists i d, dicts !! i = Some d /\
    forall j par v, ps !! j = Some par -> picks !! j = Some v ->
      binds h0 h' d (name par) v.
Proof.
  intros Hc Hps Hnd E Hpicks.
  destruct (picks_places h0 picks ps Hpicks) as (cs & Hcs & Hat).
  pose proof (expand_parameters_inv h0 ps Hc Hps) as Hinv.
  rewrite E in Hinv. destruct Hinv as [D [_ _ Hlen _ _]].
  pose proof (index_of_lt h0 ps cs Hcs) as Hlt. rewrite <- Hlen in Hlt.
  destruct (lookup_lt_is_Some_2 dicts _ Hlt) as [d Hd].
  exists (index_of h0 ps cs), d. split; [done|].
  intros j par v Hj Hv.
  destruct (Hat j par v Hj Hv) as (c & Hcj & Hcv).
  pose proof (take_drop_middle ps j par Hj) as Hsplit.
  assert (Hlenj : length (take j ps) = j).
  { rewrite length_take. apply lookup_lt_Some in Hj. lia. }
  assert (Hn : name par ∉ name <$> drop (S j) ps).
  { rewrite <- Hsplit in Hnd. rewrite fmap_app, fmap_cons in Hnd.
    apply NoDup_app in Hnd as (_ & _ & Hnd).
    by apply NoDup_cons in Hnd as [? _]. }
  destruct (expand_parameters_placed h0 ps dicts h' Hc Hps E _ d
              (take j ps) par (drop (S j) ps) Hd (eq_sym Hsplit) Hn)
    as (v' & Hv' & Hb).
  rewrite <- Hsplit in Hv' at 2.
  rewrite (index_of_digit h0 par (drop (S j) ps) c (take j ps) cs) in Hv'.
  - rewrite Hcv in Hv'. injection Hv' as <-. exact Hb.
  - by rewrite Hsplit.
  - by rewrite Hlenj.
Qed.

Lemma digits_inj (h : list obj) :
  forall (ps : list Param) (i i' : nat),
  i < expansion_size h ps -> i' < expansion_size h ps ->
  (forall l1 par l2, ps = l1 ++ par :: l2 ->
     digit h par l2 i = digit h par l2 i') ->
  i = i'.
Proof.
  induction ps as [|par ps IH] using rev_ind; intros i i' Hi Hi' Hd.
  { simpl in *. lia. }
  rewrite expansion_size_snoc in Hi, Hi'.
  assert (Hn : 0 < factor h par) by (destruct (factor h par); lia).
  assert (Hlast : i mod factor h par = i' mod factor h par).
  { rewrite <- !digit_last. by apply (Hd ps par []). }
  assert (Hrest : i / factor h par = i' / factor h par).
  { apply IH.
    - apply Nat.Div0.div_lt_upper_bound. lia.
    - apply Nat.Div0.div_lt_upper_bound. lia.
    - intros l1 q l2 ->. rewrite <- !digit_snoc. apply (Hd l1 q (l2 ++ [par])).
      by rewrite <- app_assoc. }
  rewrite (Nat.div_mod_eq i (factor h par)), (Nat.div_mod_eq i' (factor h par)).
  by rewrite Hlast, Hrest.
Qed.

End ComboFacts.
(** * Every map has the names of the parameters as its keys *)

Module KeyFacts.
Import MonadFacts Py PySpec PyFacts Expand ExpandSpec ExpandFacts KeySpec.

Lemma dict_set_keys k v (es : list (string * val)) :
  (dict_set k v es).*1 = add_key k es.*1.
Proof.
  unfold add_key. induction es as [|[k' v'] es IH]; [done|].
  cbn [dict_set]. destruct (decide (k' = k)) as [->|Hne];
    rewrite !fmap_cons; cbn [fst].
  - rewrite decide_True; [done|]. apply list_elem_of_here.
  - rewrite IH. destruct (decide (k ∈ es.*1)) as [Hin|Hnin].
    + rewrite decide_True; [done|]. by apply list_elem_of_further.
    + rewrite decide_False; [done|].
      intros [->|?]%elem_of_cons; done.
Qed.

Lemma add_key_idemp k ks : add_key k (add_key k ks) = add_key k ks.
Proof.
  unfold add_key. destruct (decide (k ∈ ks)) as [Hin|Hnin].
  - by rewrite decide_True.
  - rewrite decide_True; [done|]. apply elem_of_app. right.
    apply list_elem_of_here.
Qed.

Lemma names_in_order_snoc ps par :
  names_in_order (ps ++ [par]) = add_key (name par) (names_in_order ps).
Proof. unfold names_in_order. by rewrite foldl_app. Qed.

Lemma keys_prefix (h h' : list obj) d ks :
  h `prefix_of` h' -> keys h d = Some ks -> keys h' d = Some ks.
Proof.
  intros Hp. destruct d as [| | | |a]; try done. simpl.
  destruct (h !! a) as [o|] eqn:E; [|done].
  by rewrite (prefix_lookup_Some _ _ _ _ E Hp).
Qed.

Lemma setitem_keys d k v (h h' : list obj) :
  setitem d k v h = (Ok tt, h') ->
  forall b ks, keys h b = Some ks ->
    keys h' b = Some (if decide (b = d) then add_key k ks else ks).
Proof.
  destruct d as [| | | |a]; try done. simpl.
  destruct (h !! a) as [[| |es| |]|] eqn:E; try done.
  intros [= <-] b ks Hb. destruct b as [| | | |a']; try done. simpl in *.
  destruct (decide (a' = a)) as [->|Hne].
  - rewrite E in Hb. injection Hb as <-.
    rewrite list_lookup_insert_eq; [|by eapply lookup_lt_Some].
    rewrite decide_True; [|done]. by rewrite dict_set_keys.
  - rewrite list_lookup_insert_ne; [|done].
    rewrite decide_False; [done|]. congruence.
Qed.

Lemma for_each_setitem_keys {A} (f g : A -> val) k :
  forall (xs : list A) (h h' : list obj),
  for_each xs (fun x => setitem (f x) k (g x)) h = (Ok tt, h') ->
  forall b ks, keys h b = Some ks ->
    keys h' b = Some (if decide (b ∈ f <$> xs) then add_key k ks else ks).
Proof.
  induction xs as [|x xs IH]; intros h h' E b ks Hb.
  { simpl in E. injection E as <-. rewrite decide_False; [done|].
    apply not_elem_of_nil. }
  simpl in E. rewrite bind_run in E.
  destruct (setitem (f x) k (g x) h) as [[[]| |] h1] eqn:E1; try done.
  pose proof (setitem_keys _ _ _ _ _ E1 b ks Hb) as H1.
  pose proof (IH h1 h' E b _ H1) as H2. rewrite H2. f_equal.
  rewrite fmap_cons.
  destruct (decide (b = f x)) as [->|Hne].
  - rewrite (decide_True (P := f x ∈ f x :: (f <$> xs)));
      [|apply list_elem_of_here].
    destruct (decide (f x ∈ f <$> xs)); [apply add_key_idemp|done].
  - destruct (decide (b ∈ f <$> xs)) as [Hin|Hnin].
    + rewrite decide_True; [done|]. by apply list_elem_of_further.
    + rewrite decide_False; [done|]. intros [?|?]%elem_of_cons; done.
Qed.

Lemma deepcopy_keys (h0 h : list obj) D d y h' :
  hinv h0 h D -> is_map h D d ->
  deepcopy d h = (Ok y, h') ->
  keys h' y = keys h d.
Proof.
  intros [Hp Hc0 Hc HD Hu Hg] (a & es & -> & Ha & Hh) E.
  assert (Hav : val_ok (length h) (VRef a)).
  { simpl. by eapply lookup_lt_Some. }
  pose proof (deepcopy_spec (VRef a) h Hc Hav) as Hspec.
  rewrite E in Hspec. destruct Hspec as (m' & Hpost & Hcov & Hy).
  apply deepcopy_root in E. subst y.
  assert (Hma : m' !! a = Some (length h)).
  { simpl in Hcov. destruct Hcov as [b Hb]. simpl in Hy. rewrite Hb in Hy.
    congruence. }
  destruct Hpost as [p _ c k inj nw onto].
  destruct (nw _ _ Hma (lookup_empty _)) as [_ (o & Ho & _ & Hcovs & Hh')].
  assert (o = ODict es) as -> by congruence. simpl in Hh'.
  simpl. rewrite Hh', Hh. f_equal. apply fst_zip.
  by rewrite !length_fmap.
Qed.

Lemma copies_keys (h0 : list obj) d ks :
  forall (cs : list nat) (h : list obj) D ys h',
  hinv h0 h D -> is_map h D d -> keys h d = Some ks ->
  list_comp cs (fun _ => deepcopy d) h = (Ok ys, h') ->
  Forall (fun y => keys h' y = Some ks) ys.
Proof.
  induction cs as [|c cs IH]; intros h D ys h' Hinv Hd Hk E.
  { simpl in E. injection E as <- <-. constructor. }
  simpl in E. rewrite bind_run in E.
  pose proof (deepcopy_map h0 h D d Hinv Hd) as H1.
  destruct (deepcopy d h) as [[y| |] h1] eqn:E1; [| done | done].
  destruct H1 as (-> & Hlt & Hp1 & Hinv1 & Hy1 & Hb1).
  assert (Hd1 : is_map h1 (length h :: D) d).
  { eapply is_map_ext; [done| |done].
    intros x Hx. by apply list_elem_of_further. }
  pose proof (copies_spec h0 d cs h1 _ Hinv1 Hd1) as Hs.
  rewrite bind_run in E.
  destruct (list_comp cs (fun _ => deepcopy d) h1) as [[ys'| |] h2] eqn:E2;
    [|done|done].
  injection E as <- <-.
  destruct Hs as (D' & _ & Hp' & _).
  apply Forall_cons. split.
  - apply (keys_prefix h1); [done|].
    rewrite (deepcopy_keys h0 h D d _ h1 Hinv Hd E1). done.
  - eapply IH; [exact Hinv1|exact Hd1| |exact E2].
    by apply (keys_prefix h).
Qed.

Lemma copies_all_keys (h0 : list obj) (v : val) (xs : list val) ks :
  val_ok (length h0) v -> elements h0 v = Some xs ->
  forall (dicts : list val) (h : list obj) D yss h',
  hinv h0 h D -> Forall (is_map h D) dicts ->
  Forall (fun d => keys h d = Some ks) dicts ->
  list_comp dicts
    (fun d => n ← len v; list_comp (seq 0 n) (fun _ => deepcopy d)) h
    = (Ok yss, h') ->
  Forall (fun y => keys h' y = Some ks) (concat yss).
Proof.
  intros Hv Hxs.
  induction dicts as [|d dicts IH]; intros h D yss h' Hinv Hds Hks E.
  { simpl in E. injection E as <- <-. constructor. }
  apply Forall_cons in Hds as [Hd Hds]. apply Forall_cons in Hks as [Hk Hks].
  simpl in E. rewrite bind_run in E. rewrite bind_run in E. unfold len at 1 in E.
  rewrite (elements_prefix h0 h v), Hxs in E; [|apply Hinv|done].
  pose proof (copies_spec h0 d (seq 0 (length xs)) h D Hinv Hd) as H1.
  pose proof (copies_keys h0 d ks (seq 0 (length xs)) h D) as Hk1.
  destruct (list_comp (seq 0 (length xs)) (fun _ => deepcopy d) h)
    as [[ys| |] h1]; [|done|done].
  specialize (Hk1 ys h1 Hinv Hd Hk eq_refl).
  destruct H1 as (D1 & Hinv1 & Hp1 & Hl1 & Hnd1 & Hfr1 & Hys1).
  assert (Hds1 : Forall (is_map h1 (D1 ++ D)) dicts).
  { eapply Forall_impl; [exact Hds|]. intros b Hb.
    eapply is_map_ext; [exact Hp1| |exact Hb].
    intros x Hx. apply elem_of_app. by right. }
  pose proof (copies_all_spec h0 v xs Hv Hxs dicts h1 _ Hinv1 Hds1) as Hall.
  rewrite bind_run in E.
  destruct (list_comp dicts _ h1) as [[yss'| |] h2] eqn:E2; [|done|done].
  destruct Hall as (D' & Hinv' & Hp' & _).
  injection E as <- <-. simpl. apply Forall_app. split.
  - eapply Forall_impl; [exact Hk1|]. intros y Hy. by apply (keys_prefix h1).
  - eapply IH; [exact Hinv1|exact Hds1| |exact E2].
    eapply Forall_impl; [exact Hks|]. intros b Hb. by apply (keys_prefix h).
Qed.

Lemma expand_step_keyed (h0 : list obj) done h dicts D par dicts' h' :
  inv h0 done h dicts D -> keyed done h dicts ->
  val_ok (length h0) (value par) ->
  expand_step dicts par h = (Ok dicts', h') ->
  keyed (done ++ [par]) h' dicts'.
Proof.
  intros [Hh Hmaps Hlen Hnd Hbind] Hk Hv E.
  unfold keyed. rewrite names_in_order_snoc.
  unfold expand_step in E. rewrite bind_run in E. unfold get in E.
  rewrite (expands_prefix h0 h par) in E; [|apply Hh|done].
  destruct (expands h0 par) eqn:Hex.
  - destruct (expands_elements _ _ Hex) as [xs Hxs].
    rewrite bind_run in E.
    pose proof (copies_all_spec h0 (value par) xs Hv Hxs dicts h D Hh Hmaps) as Hc.
    pose proof (copies_all_keys h0 (value par) xs (names_in_order done)
                  Hv Hxs dicts h D) as Hck.
    destruct (list_comp dicts _ h) as [[yss| |] h1]; [|done|done].
    specialize (Hck yss h1 Hh Hmaps Hk eq_refl).
    destruct Hc as (D1 & Hh1 & Hp1 & Hl1 & _).
    rewrite bind_run in E. unfold iter in E.
    rewrite (elements_prefix h0 h1), Hxs in E; [|apply Hh1|done].
    rewrite bind_run in E.
    destruct (for_each (zip_cycle (concat yss) xs xs) _ h1)
      as [[[]| |] h2] eqn:E2; try done.
    injection E as <- <-.
    apply Forall_forall. intros y Hy.
    assert (Hxne : xs <> []).
    { intros ->. simpl in Hl1. rewrite Nat.mul_0_r in Hl1.
      apply nil_length_inv in Hl1. rewrite Hl1 in Hy.
      by apply elem_of_nil in Hy. }
    rewrite Forall_forall in Hck.
    rewrite (for_each_setitem_keys fst snd (name par) _ _ _ E2 y _ (Hck y Hy)).
    rewrite decide_True; [done|]. by rewrite zip_cycle_fst.
  - rewrite bind_run in E.
    destruct (for_each dicts _ h) as [[[]| |] h2] eqn:E2; try done.
    injection E as <- <-.
    apply Forall_forall. intros d Hd. unfold keyed in Hk.
    rewrite Forall_forall in Hk.
    rewrite (for_each_setitem_keys (fun d => d) (fun _ => value par)
               (name par) _ _ _ E2 d _ (Hk d Hd)).
    rewrite decide_True; [done|]. by rewrite list_fmap_id.
Qed.

Lemma for_fold_keyed (h0 : list obj) :
  forall ps done h dicts D dicts' h',
  inv h0 done h dicts D -> keyed done h dicts -> params_ok h0 ps ->
  for_fold expand_step dicts ps h = (Ok dicts', h') ->
  keyed (done ++ ps) h' dicts'.
Proof.
  induction ps as [|par ps IH]; intros done h dicts D dicts' h' Hinv Hk Hps E.
  { simpl in E. injection E as <- <-. by rewrite app_nil_r. }
  apply Forall_cons in Hps as [Hv Hps].
  simpl in E. rewrite bind_run in E.
  pose proof (expand_step_inv h0 done h dicts D par Hinv Hv) as Hstep.
  destruct (expand_step dicts par h) as [[dicts1| |] h1] eqn:E1; [|done|done].
  destruct Hstep as (D1 & Hinv1).
  pose proof (expand_step_keyed h0 done h dicts D par dicts1 h1 Hinv Hk Hv E1)
    as Hk1.
  specialize (IH (done ++ [par]) h1 dicts1 D1 dicts' h' Hinv1 Hk1 Hps E).
  by rewrite <- app_assoc in IH.
Qed.

Lemma expand_parameters_keyed (h0 : list obj) ps dicts h' :
  closed h0 -> params_ok h0 ps ->
  expand_parameters ps h0 = (Ok dicts, h') ->
  keyed ps h' dicts.
Proof.
  intros Hc Hps E. unfold expand_parameters in E. rewrite bind_run in E.
  unfold alloc in E.
  apply (for_fold_keyed h0 ps [] _ _ _ _ _ (inv_init h0 Hc)); [|done|done].
  apply Forall_singleton. simpl.
  rewrite lookup_app_r, Nat.sub_diag; [done|lia].
Qed.

Lemma elem_of_add_key k k' ks : k' ∈ add_key k ks <-> k' = k \/ k' ∈ ks.
Proof.
  unfold add_key. destruct (decide (k ∈ ks)).
  - split; [by right|]. by intros [->|?].
  - rewrite elem_of_app, list_elem_of_singleton. tauto.
Qed.

Lemma NoDup_add_key k ks : NoDup ks -> NoDup (add_key k ks).
Proof.
  intros H. unfold add_key. destruct (decide (k ∈ ks)); [done|].
  apply NoDup_app. split; [done|]. split; [|apply NoDup_singleton].
  intros x Hx ->%list_elem_of_singleton. done.
Qed.

Lemma names_in_order_spec ps :
  NoDup (names_in_order ps) /\
  forall k, k ∈ names_in_order ps <-> k ∈ name <$> ps.
Proof.
  induction ps as [|par ps IH] using rev_ind.
  - split; [constructor|]. done.
  - destruct IH as [Hnd Hel]. rewrite names_in_order_snoc. split.
    + by apply NoDup_add_key.
    + intros k. rewrite elem_of_add_key, Hel, fmap_app, elem_of_app.
      simpl. rewrite list_elem_of_singleton. tauto.
Qed.

End KeyFacts.
(** * Facts about the console and the job steps *)

Module JobFacts.
Import Console Job JobSpec.

(** One attempt of [ask_for_bool], spelled out. *)
Lemma ask_for_bool_rec_eq fuel question default w :
  ask_for_bool_rec fuel question default w =
  match stdin w with
  | [] =>
      retry fuel question default EOFError
        (with_stdout (stdout w ++ [bool_prompt question default]) w)
  | line :: rest =>
      match reads default line with
      | Some b => (Ok b, after_input question default line rest w)
      | None =>
          retry fuel question default
            (ValueError ("Invalid answer to question " +:+ dq +:+ question
                         +:+ dq))
            (after_input question default line rest w)
      end
  end.
Proof.
  destruct fuel; simpl; unfold try_except, input, mbind, M_bind, reads;
    destruct (stdin w) as [|line rest]; simpl; try reflexivity;
    destruct (in_true (trim default line)); simpl; try reflexivity;
    destruct (in_false (trim default line)); reflexivity.
Qed.

Lemma ask_for_bool_rec_answer question default line b :
  reads default line = Some b ->
  forall bad rest fuel w,
  Forall (fun l => reads default l = None) bad ->
  length bad <= fuel ->
  stdin w = bad ++ line :: rest ->
  exists w', ask_for_bool_rec fuel question default w = (Ok b, w') /\
    stdin w' = rest /\ snapshot w' = snapshot w.
Proof.
  intros Hline. induction bad as [|l bad IH]; intros rest fuel w Hbad Hfuel Hin.
  - rewrite ask_for_bool_rec_eq. simpl in Hin. rewrite Hin, Hline.
    eexists. split; [reflexivity|]. done.
  - apply Forall_cons in Hbad as [Hl Hbad].
    destruct fuel as [|fuel]; [simpl in Hfuel; lia|].
    rewrite ask_for_bool_rec_eq. simpl in Hin. rewrite Hin, Hl.
    unfold retry, mbind, M_bind, print. simpl.
    match goal with |- context [ask_for_bool_rec fuel question default ?w1] =>
      destruct (IH rest fuel w1 Hbad) as (w' & E & Hs & Hsnap) end.
    { simpl in Hfuel. lia. }
    { done. }
    exists w'. done.
Qed.

Lemma ask_for_bool_answer question default line b bad rest w :
  reads default line = Some b ->
  Forall (fun l => reads default l = None) bad ->
  stdin w = bad ++ line :: rest ->
  exists w', ask_for_bool question default w = (Ok b, w') /\
    stdin w' = rest /\ snapshot w' = snapshot w.
Proof.
  intros Hline Hbad Hin. unfold ask_for_bool.
  eapply ask_for_bool_rec_answer; try done.
  rewrite Hin, length_app. lia.
Qed.

(** Whatever is typed, [ask_for_bool] prints its question first, raises
    nothing and leaves the filesystem alone. *)
Lemma ask_for_bool_rec_total question default :
  forall fuel w,
  exists r w' more,
    ask_for_bool_rec fuel question default w = (r, w') /\
    (r = Stuck \/ exists b, r = Ok b) /\
    snapshot w' = snapshot w /\
    stdout w' = stdout w ++ bool_prompt question default :: more.
Proof.
  induction fuel as [|fuel IH]; intros w; rewrite ask_for_bool_rec_eq.
  - destruct (stdin w) as [|l i]; [|destruct (reads default l)].
    + eexists _, _, _. split; [reflexivity|]. split; [by left|].
      split; [done|]. simpl. by rewrite <- app_assoc.
    + eexists _, _, []. split; [reflexivity|]. split; [right; eauto|]. done.
    + eexists _, _, _. split; [reflexivity|]. split; [by left|].
      split; [done|]. simpl. by rewrite <- app_assoc.
  - destruct (stdin w) as [|l i]; [|destruct (reads default l)].
    + unfold retry, mbind, M_bind, print. simpl.
      match goal with |- context [ask_for_bool_rec fuel question default ?w1] =>
        destruct (IH w1) as (r & w' & more & E & Hr & Hsnap & Hout) end.
      rewrite E. eexists _, _, _. split; [reflexivity|]. split; [done|].
      split; [done|]. rewrite Hout. simpl. by rewrite <- !app_assoc.
    + eexists _, _, []. split; [reflexivity|]. split; [right; eauto|]. done.
    + unfold retry, mbind, M_bind, print. simpl.
      match goal with |- context [ask_for_bool_rec fuel question default ?w1] =>
        destruct (IH w1) as (r & w' & more & E & Hr & Hsnap & Hout) end.
      rewrite E. eexists _, _, _. split; [reflexivity|]. split; [done|].
      split; [done|]. rewrite Hout. simpl. by rewrite <- !app_assoc.
Qed.

Lemma print_sample {Spec} (info : Spec -> string) (sample : list Spec) :
  forall w,
  for_each sample (fun s => print (nl +:+ info s +:+ nl);; print (dashes 20)) w
  = (Ok tt, with_stdout (stdout w ++ sample_lines info sample) w).
Proof.
  induction sample as [|s sample IH]; intros [i o lg d f].
  - unfold sample_lines. simpl. unfold mret, M_ret. simpl.
    by rewrite app_nil_r.
  - simpl. unfold mbind, M_bind, print. simpl. rewrite IH. simpl.
    unfold with_stdout. simpl. do 2 f_equal. unfold sample_lines. simpl.
    by rewrite <- !app_assoc.
Qed.

(** The first question of the script: a refusal to overwrite an existing
    job ends the script with the filesystem as it was. *)
Lemma overwrite_gate_rejection (job_dir : list string) (w : world)
    (bad : list string) (line : string) (rest : list string) :
  is_dir w job_dir = true ->
  stdin w = bad ++ line :: rest ->
  Forall (fun l => reads (AStr "No") l = None) bad ->
  reads (AStr "No") line = Some false ->
  exists w', overwrite_gate job_dir false w = (Raise (SystemExit 0), w') /\
    snapshot w' = snapshot w.
Proof.
  intros Hdir Hin Hbad Hline. unfold overwrite_gate.
  rewrite MonadFacts.bind_run. unfold get. rewrite Hdir. simpl.
  destruct (ask_for_bool_answer
              "A job with that name already exists. Overwrite?" (AStr "No")
              line false bad rest w Hline Hbad Hin) as (w1 & E & _ & Hsnap).
  rewrite MonadFacts.bind_run, E. simpl.
  eexists. split; [reflexivity|]. exact Hsnap.
Qed.

End JobFacts.

(** * Facts about the prompts *)

Module PromptFacts.
Import Console Prompts PromptSpec JobSpec JobFacts.

Section PromptFacts.

Variable V : Type.
Variable str_of : V -> string.
Variable cast_to : string -> result V.
Variable eval : string -> result V.

(** One attempt of [ask_for_input], spelled out. *)
Lemma ask_for_input_rec_eq fuel question default w :
  ask_for_input_rec V str_of cast_to fuel question default w =
  match stdin w with
  | [] =>
      (Raise EOFError,
       with_stdout (stdout w ++ [input_prompt V str_of question default]) w)
  | line :: rest =>
      let w1 := prompted (input_prompt V str_of question default) rest w in
      match taken V cast_to default line with
      | Ok v =>
          if decide (remove_spaces line = "") then (Ok v, w1)
          else
            (Ok v,
             with_log
               (log w1 ++ ["DEBUG" +:+ ": " +:+
                  ("Got input from stdin for question " +:+ dq +:+ question
                   +:+ dq +:+ ": " +:+ str_of v)]) w1)
      | Raise e =>
          if is_Exception e then
            (print (exn_str e);;
             match fuel with
             | 0 => stuck
             | S fuel' => ask_for_input_rec V str_of cast_to fuel' question default
             end) w1
          else (Raise e, w1)
      | Stuck => (Stuck, w1)
      end
  end.
Proof.
  unfold taken, prompted.
  destruct fuel; simpl; unfold input, mbind, M_bind;
    destruct (stdin w) as [|line rest]; simpl; try reflexivity;
    destruct (decide (remove_spaces line = "")); simpl; try reflexivity;
    unfold try_except, lift, mbind, M_bind; simpl;
    destruct (cast_to (remove_spaces line)) as [v|e|]; simpl; try reflexivity;
    destruct (is_Exception e); simpl; try reflexivity.
  unfold print. simpl.
  match goal with |- context [ask_for_input_rec _ _ _ fuel question default ?w1] =>
    destruct (ask_for_input_rec V str_of cast_to fuel question default w1)
      as [[v| |] w2] end; reflexivity.
Qed.

Lemma ask_for_input_rec_decides question default line :
  asks_again (taken V cast_to default line) = false ->
  forall bad rest fuel w,
  Forall (fun l => asks_again (taken V cast_to default l) = true) bad ->
  length bad <= fuel ->
  stdin w = bad ++ line :: rest ->
  exists w',
    ask_for_input_rec V str_of cast_to fuel question default w
      = (taken V cast_to default line, w') /\
    stdin w' = rest /\ snapshot w' = snapshot w /\
    stdout w' = stdout w
      ++ turned_down (input_prompt V str_of question default)
           (taken V cast_to default) bad
      ++ [input_prompt V str_of question default].
Proof.
  intros Hline. induction bad as [|l bad IH]; intros rest fuel w Hbad Hfuel Hin.
  - rewrite ask_for_input_rec_eq. simpl in Hin. rewrite Hin. simpl.
    destruct (taken V cast_to default line) as [v|e|] eqn:E.
    + destruct (decide (remove_spaces line = "")); eexists; (split; [reflexivity|]); done.
    + simpl in Hline. rewrite Hline. eexists. split; [reflexivity|]. done.
    + eexists. split; [reflexivity|]. done.
  - apply Forall_cons in Hbad as [Hl Hbad].
    destruct fuel as [|fuel]; [simpl in Hfuel; lia|].
    rewrite ask_for_input_rec_eq. simpl in Hin. rewrite Hin. simpl.
    destruct (taken V cast_to default l) as [v|e|] eqn:E; try done.
    simpl in Hl. rewrite Hl. unfold mbind, M_bind, print. simpl.
    match goal with |- context [ask_for_input_rec _ _ _ fuel question default ?w1] =>
      destruct (IH rest fuel w1 Hbad) as (w' & E' & Hs & Hsnap & Hout) end.
    { simpl in Hfuel. lia. }
    { done. }
    exists w'. rewrite E'. split; [done|]. split; [done|]. split; [done|].
    rewrite Hout. unfold turned_down. simpl.
    by rewrite <- !app_assoc.
Qed.

Lemma ask_for_input_rec_eof question default :
  forall bad fuel w,
  Forall (fun l => asks_again (taken V cast_to default l) = true) bad ->
  length bad <= fuel ->
  stdin w = bad ->
  exists w',
    ask_for_input_rec V str_of cast_to fuel question default w
      = (Raise EOFError, w') /\
    stdin w' = [] /\ snapshot w' = snapshot w /\
    stdout w' = stdout w
      ++ turned_down (input_prompt V str_of question default)
           (taken V cast_to default) bad
      ++ [input_prompt V str_of question default].
Proof.
  induction bad as [|l bad IH]; intros fuel w Hbad Hfuel Hin.
  - rewrite ask_for_input_rec_eq. rewrite Hin.
    eexists. split; [reflexivity|]. done.
  - apply Forall_cons in Hbad as [Hl Hbad].
    rewrite ask_for_input_rec_eq. rewrite Hin. simpl.
    destruct (taken V cast_to default l) as [v|e|] eqn:E; try done.
    simpl in Hl. rewrite Hl. unfold mbind, M_bind, print. simpl.
    destruct fuel as [|fuel].
    + simpl in Hfuel. lia.
    + match goal with |- context [ask_for_input_rec _ _ _ fuel question default ?w1] =>
      destruct (IH fuel w1 Hbad) as (w' & E' & Hs & Hsnap & Hout) end.
      { simpl in Hfuel. lia. }
      { done. }
      exists w'. rewrite E'. split; [done|]. split; [done|]. split; [done|].
      rewrite Hout. unfold turned_down. simpl.
      by rewrite <- !app_assoc.
Qed.

(** One attempt of [ask_for_eval], spelled out. *)
Lemma ask_for_eval_rec_eq fuel question default w :
  ask_for_eval_rec V str_of eval fuel question default w =
  match stdin w with
  | [] =>
      (Raise EOFError,
       with_stdout (stdout w ++ [eval_prompt V str_of question default]) w)
  | line :: rest =>
      let w1 :=
        eval_logged question (evaluated V str_of default line)
          (prompted (eval_prompt V str_of question default) rest w) in
      let r := eval (evaluated V str_of default line) in
      if asks_again r then
        (print (complaint r);;
         match fuel with
         | 0 => stuck
         | S fuel' => ask_for_eval_rec V str_of eval fuel' question default
         end) w1
      else (r, w1)
  end.
Proof.
  unfold evaluated, prompted, eval_logged.
  destruct fuel; simpl; unfold input, mbind, M_bind;
    destruct (stdin w) as [|line rest]; simpl; try reflexivity;
    unfold try_except, lift, logging, mbind, M_bind; simpl;
    destruct (eval _) as [v|e|]; simpl; try reflexivity;
    destruct (is_Exception e); simpl; reflexivity.
Qed.

Lemma ask_for_eval_rec_decides question default line :
  asks_again (eval (evaluated V str_of default line)) = false ->
  forall bad rest fuel w,
  Forall (fun l => asks_again (eval (evaluated V str_of default l)) = true) bad ->
  length bad <= fuel ->
  stdin w = bad ++ line :: rest ->
  exists w',
    ask_for_eval_rec V str_of eval fuel question default w
      = (eval (evaluated V str_of default line), w') /\
    stdin w' = rest /\ snapshot w' = snapshot w /\
    stdout w' = stdout w
      ++ turned_down (eval_prompt V str_of question default)
           (fun l => eval (evaluated V str_of default l)) bad
      ++ [eval_prompt V str_of question default].
Proof.
  intros Hline. induction bad as [|l bad IH]; intros rest fuel w Hbad Hfuel Hin.
  - rewrite ask_for_eval_rec_eq. simpl in Hin. rewrite Hin. simpl.
    rewrite Hline. eexists. split; [reflexivity|]. done.
  - apply Forall_cons in Hbad as [Hl Hbad].
    destruct fuel as [|fuel]; [simpl in Hfuel; lia|].
    rewrite ask_for_eval_rec_eq. simpl in Hin. rewrite Hin. simpl.
    rewrite Hl. unfold mbind, M_bind, print. simpl.
    match goal with |- context [ask_for_eval_rec _ _ _ fuel question default ?w1] =>
      destruct (IH rest fuel w1 Hbad) as (w' & E' & Hs & Hsnap & Hout) end.
    { simpl in Hfuel. lia. }
    { done. }
    exists w'. rewrite E'. split; [done|]. split; [done|]. split; [done|].
    rewrite Hout. unfold turned_down. simpl.
    by rewrite <- !app_assoc.
Qed.

End PromptFacts.

(** What [ask_for_bool] shows while it turns answers down. *)
Lemma ask_for_bool_rec_transcript question default line b :
  reads default line = Some b ->
  forall bad rest fuel w,
  Forall (fun l => reads default l = None) bad ->
  length bad <= fuel ->
  stdin w = bad ++ line :: rest ->
  exists w', ask_for_bool_rec fuel question default w = (Ok b, w') /\
    stdin w' = rest /\ snapshot w' = snapshot w /\
    stdout w' = stdout w ++ bool_turned_down question default bad
      ++ [bool_prompt question default].
Proof.
  intros Hline. induction bad as [|l bad IH]; intros rest fuel w Hbad Hfuel Hin.
  - rewrite ask_for_bool_rec_eq. simpl in Hin. rewrite Hin, Hline.
    eexists. split; [reflexivity|]. done.
  - apply Forall_cons in Hbad as [Hl Hbad].
    destruct fuel as [|fuel]; [simpl in Hfuel; lia|].
    rewrite ask_for_bool_rec_eq. simpl in Hin. rewrite Hin, Hl.
    unfold retry, mbind, M_bind, print. simpl.
    match goal with |- context [ask_for_bool_rec fuel question default ?w1] =>
      destruct (IH rest fuel w1 Hbad) as (w' & E & Hs & Hsnap & Hout) end.
    { simpl in Hfuel. lia. }
    { done. }
    exists w'. split; [done|]. split; [done|]. split; [done|].
    rewrite Hout. unfold bool_turned_down. simpl. by rewrite <- !app_assoc.
Qed.

(** A blank line stands for the default, as it was given. *)
Lemma reads_blank default line :
  remove_spaces line = "" ->
  reads default line =
    if in_true default then Some true
    else if in_false default then Some false else None.
Proof.
  intros H. unfold reads, trim. rewrite H. simpl. done.
Qed.

(** With nothing but lines it does not understand, [ask_for_bool] never
    answers. *)
Lemma ask_for_bool_rec_no_answer question default :
  forall fuel w,
  Forall (fun l => reads default l = None) (stdin w) ->
  exists w', ask_for_bool_rec fuel question default w = (Stuck, w') /\
    snapshot w' = snapshot w.
Proof.
  induction fuel as [|fuel IH]; intros w Hall; rewrite ask_for_bool_rec_eq.
  - destruct (stdin w) as [|l i] eqn:E.
    + eexists. split; [reflexivity|]. done.
    + apply Forall_cons in Hall as [Hl _]. rewrite Hl.
      eexists. split; [reflexivity|]. done.
  - destruct (stdin w) as [|l i] eqn:E.
    + unfold retry, mbind, M_bind, print. simpl.
      match goal with |- context [ask_for_bool_rec fuel question default ?w1] =>
        destruct (IH w1) as (w' & E' & Hsnap) end.
      { simpl. rewrite E. constructor. }
      rewrite E'. eexists. split; [reflexivity|]. done.
    + apply Forall_cons in Hall as [Hl Hi]. rewrite Hl.
      unfold retry, mbind, M_bind, print. simpl.
      match goal with |- context [ask_for_bool_rec fuel question default ?w1] =>
        destruct (IH w1) as (w' & E' & Hsnap) end.
      { done. }
      rewrite E'. eexists. split; [reflexivity|]. done.
Qed.

End PromptFacts.
(** * Facts about the directories of a job *)

Module DirFacts.
Import MonadFacts Console Job DirSpec.

Lemma mkdir_p_ok (p : list string) (w : world) :
  ~ in_the_way w p ->
  mkdir_p p w = (Ok tt, with_dirs (list_to_set (ancestors p) ∪ dirs w) w).
Proof.
  intros H. unfold mkdir_p. rewrite bool_decide_eq_false_2; done.
Qed.

Lemma mkdir_p_blocked (p : list string) (w : world) :
  in_the_way w p -> mkdir_p p w = (Raise FileExistsError, w).
Proof.
  intros H. unfold mkdir_p. rewrite bool_decide_eq_true_2; done.
Qed.

Lemma for_each_mkdir_p (ps : list (list string)) :
  forall w,
  Forall (fun p => ~ in_the_way w p) ps ->
  for_each ps mkdir_p w =
    (Ok tt, with_dirs (made ps ∪ dirs w) w).
Proof.
  induction ps as [|p ps IH]; intros w Hps; simpl.
  - unfold mret, M_ret. f_equal. destruct w; unfold with_dirs, made; simpl.
    f_equal. by rewrite (left_id_L ∅ (∪)).
  - apply Forall_cons in Hps as [Hp Hps].
    rewrite bind_run, mkdir_p_ok; [|done]. rewrite IH; [|done].
    f_equal. unfold with_dirs, made; simpl. f_equal.
    rewrite (assoc_L (∪)). f_equal. apply (comm_L (∪)).
Qed.

Lemma for_each_mkdir_p_inv (ps : list (list string)) :
  forall w w',
  for_each ps mkdir_p w = (Ok tt, w') ->
  Forall (fun p => ~ in_the_way w p) ps.
Proof.
  induction ps as [|p ps IH]; intros w w' E; [constructor|].
  simpl in E. rewrite bind_run in E.
  destruct (decide (in_the_way w p)) as [Hb|Hb].
  { rewrite mkdir_p_blocked in E; done. }
  rewrite mkdir_p_ok in E; [|done]. apply Forall_cons. split; [done|].
  apply IH in E. exact E.
Qed.

Lemma ancestors_snoc (p : list string) (s : string) :
  ancestors (p ++ [s]) = ancestors p ++ [p ++ [s]].
Proof.
  unfold ancestors. rewrite length_app. simpl.
  rewrite Nat.add_1_r, seq_S, fmap_app. simpl. f_equal.
  - apply list_fmap_ext. intros i n Hn. apply lookup_seq in Hn as [-> Hi].
    rewrite take_app_le; [done|lia].
  - rewrite take_app_ge; [|lia]. 
    replace (S (length p) - length p) with 1 by lia. done.
Qed.

Lemma elem_of_ancestors (p q : list string) :
  q ∈ ancestors p <-> q <> [] /\ q `prefix_of` p.
Proof.
  unfold ancestors. rewrite list_elem_of_fmap. split.
  - intros (n & -> & Hn). apply elem_of_seq in Hn. split.
    + destruct n; [lia|]. destruct p; simpl in *; [lia|done].
    + apply prefix_take.
  - intros [Hne [t ->]]. exists (length q). split.
    + by rewrite take_app_length.
    + apply elem_of_seq. rewrite length_app. destruct q; [done|simpl; lia].
Qed.

Lemma for_each_fmap {S A B} (f : A -> B) (body : B -> M S unit) (xs : list A) :
  for_each (f <$> xs) body = for_each xs (fun x => body (f x)).
Proof.
  induction xs as [|x xs IH]; [done|].
  rewrite fmap_cons. cbn [for_each]. by rewrite IH.
Qed.

Lemma create_job_subdirs_eq (job_dir : list string) (subdirs : list string) w :
  create_job_subdirs job_dir subdirs w =
  for_each (wanted job_dir subdirs) mkdir_p
    (with_stdout (stdout w ++ ["Creating job directory and subdirectories..."]) w).
Proof.
  unfold create_job_subdirs, wanted. rewrite bind_run. unfold print.
  simpl. by rewrite for_each_fmap.
Qed.

Lemma elem_of_wanted_dirs (job_dir : list string) (subdirs : list string)
    (q : list string) :
  q ∈ made (wanted job_dir subdirs) <->
  q ∈ ancestors job_dir \/ exists s, s ∈ subdirs /\ q = job_dir ++ [s].
Proof.
  unfold made. rewrite elem_of_union_list. split.
  - intros (X & HX & Hq). apply list_elem_of_fmap in HX as (p & -> & Hp).
    apply elem_of_list_to_set in Hq. unfold wanted in Hp.
    apply elem_of_cons in Hp as [->|Hp]; [by left|].
    apply list_elem_of_fmap in Hp as (s & -> & Hs).
    rewrite ancestors_snoc in Hq. apply elem_of_app in Hq as [Hq|Hq]; [by left|].
    apply list_elem_of_singleton in Hq. right. eauto.
  - intros [Hq|(s & Hs & ->)].
    + exists (list_to_set (ancestors job_dir)). split.
      * apply list_elem_of_fmap. exists job_dir. split; [done|].
        apply list_elem_of_here.
      * by apply elem_of_list_to_set.
    + exists (list_to_set (ancestors (job_dir ++ [s]))). split.
      * apply list_elem_of_fmap. exists (job_dir ++ [s]). split; [done|].
        apply list_elem_of_further. apply list_elem_of_fmap. eauto.
      * apply elem_of_list_to_set. rewrite ancestors_snoc.
        apply elem_of_app. right. apply list_elem_of_here.
Qed.

Lemma create_job_subdirs_run (job_dir : list string)
    (subdirs : list string) (w : world) :
  Forall (fun p => ~ in_the_way w p) (wanted job_dir subdirs) ->
  exists w',
    create_job_subdirs job_dir subdirs w = (Ok tt, w') /\
    files w' = files w /\ stdin w' = stdin w /\
    forall q, q ∈ dirs w' <->
      q ∈ dirs w \/ q ∈ ancestors job_dir \/
      exists s, s ∈ subdirs /\ q = job_dir ++ [s].
Proof.
  intros H. rewrite create_job_subdirs_eq, for_each_mkdir_p; [|done].
  eexists. split; [reflexivity|]. split; [done|]. split; [done|].
  intros q. simpl. rewrite elem_of_union, elem_of_wanted_dirs. tauto.
Qed.

Lemma create_job_subdirs_again (job_dir : list string)
    (subdirs : list string) (w w1 : world) :
  create_job_subdirs job_dir subdirs w = (Ok tt, w1) ->
  exists w2,
    create_job_subdirs job_dir subdirs w1 = (Ok tt, w2) /\
    snapshot w2 = snapshot w1.
Proof.
  intros E. rewrite create_job_subdirs_eq in E.
  pose proof (for_each_mkdir_p_inv _ _ _ E) as Hfree.
  rewrite for_each_mkdir_p in E; [|done]. injection E as <-.
  rewrite create_job_subdirs_eq, for_each_mkdir_p; [|done].
  eexists. split; [reflexivity|]. unfold snapshot. simpl. f_equal.
  rewrite (assoc_L (∪)). f_equal. apply (idemp_L (∪)).
Qed.

Lemma rmtree_files (p q : list string) (w : world) :
  files (rmtree p w).2 !! q =
    if decide (p `prefix_of` q) then None else files w !! q.
Proof.
  unfold rmtree. simpl. destruct (decide (p `prefix_of` q)) as [Hp|Hp].
  - apply map_lookup_filter_None. right. intros x _ Hn. by apply Hn.
  - destruct (files w !! q) as [c|] eqn:E.
    + apply map_lookup_filter_Some. done.
    + apply map_lookup_filter_None. by left.
Qed.

Lemma rmtree_dirs (p q : list string) (w : world) :
  q ∈ dirs (rmtree p w).2 <-> q ∈ dirs w /\ ~ p `prefix_of` q.
Proof. unfold rmtree. simpl. rewrite elem_of_filter. tauto. Qed.

Lemma rmtree_clears_the_way (job_dir : list string) (subdirs : list string) w :
  ~ in_the_way w job_dir ->
  Forall (fun p => ~ in_the_way (rmtree job_dir w).2 p) (wanted job_dir subdirs).
Proof.
  intros Hfree.
  assert (Hanc : forall q, q ∈ ancestors job_dir ->
            files (rmtree job_dir w).2 !! q = None).
  { intros q Hq. rewrite rmtree_files. destruct (decide _); [done|].
    unfold in_the_way in Hfree. rewrite Exists_exists in Hfree.
    destruct (files w !! q) eqn:E; [|done]. exfalso. apply Hfree.
    exists q. split; [done|]. by rewrite E. }
  unfold wanted. apply Forall_cons. split.
  - unfold in_the_way. rewrite Exists_exists. intros (q & Hq & Hs).
    rewrite Hanc in Hs; [|done]. by destruct Hs.
  - apply Forall_fmap, Forall_forall. intros s _.
    unfold compose, in_the_way. rewrite Exists_exists. intros (q & Hq & Hs).
    rewrite ancestors_snoc in Hq. apply elem_of_app in Hq as [Hq|Hq].
    + rewrite Hanc in Hs; [|done]. by destruct Hs.
    + apply list_elem_of_singleton in Hq. subst q.
      rewrite rmtree_files in Hs. rewrite decide_True in Hs.
      * by destruct Hs.
      * by apply prefix_app_r.
Qed.

Lemma rmtree_then_create (job_dir : list string) (subdirs : list string)
    (w : world) :
  job_dir <> [] -> ~ in_the_way w job_dir ->
  exists w',
    (rmtree job_dir;; create_job_subdirs job_dir subdirs) w = (Ok tt, w') /\
    (forall p, job_dir `prefix_of` p -> files w' !! p = None) /\
    (forall p, ~ job_dir `prefix_of` p -> files w' !! p = files w !! p) /\
    (forall q, job_dir `prefix_of` q ->
       q ∈ dirs w' <-> q = job_dir \/ exists s, s ∈ subdirs /\ q = job_dir ++ [s]) /\
    (forall q, ~ job_dir `prefix_of` q ->
       q ∈ dirs w' <-> q ∈ dirs w \/ q ∈ ancestors job_dir).
Proof.
  intros Hne Hfree. rewrite bind_run.
  replace (rmtree job_dir w) with (Ok tt, (rmtree job_dir w).2) by done.
  destruct (create_job_subdirs_run job_dir subdirs (rmtree job_dir w).2
              (rmtree_clears_the_way job_dir subdirs w Hfree))
    as (w' & E & Hf & _ & Hd).
  exists w'. split; [exact E|]. split; [|split; [|split]].
  - intros p Hp. rewrite Hf, rmtree_files. by rewrite decide_True.
  - intros p Hp. rewrite Hf, rmtree_files. by rewrite decide_False.
  - intros q Hq. rewrite Hd, rmtree_dirs, elem_of_ancestors. split.
    + intros [[_ Hn]|[[_ Hqp]|Hs]]; [done| |by right].
      left. by apply (anti_symm prefix).
    + intros [->|Hs]; [|by right; right]. right. left. done.
  - intros q Hq. rewrite Hd, rmtree_dirs. split.
    + intros [[? _]|[?|(s & _ & ->)]]; [by left|by right|].
      exfalso. apply Hq. by apply prefix_app_r.
    + intros [?|?]; [by left|by right; left].
Qed.

Lemma not_in_the_way_no_file (p : list string) (w : world) :
  p <> [] -> ~ in_the_way w p -> files w !! p = None.
Proof.
  intros Hne Hfree. destruct (files w !! p) as [c|] eqn:E; [|done].
  exfalso. apply Hfree. unfold in_the_way. apply Exists_exists.
  exists p. split; [by apply elem_of_ancestors|]. by rewrite E.
Qed.

End DirFacts.
(** * Facts about the job information and its readers *)

Module InfoFacts.
Import MonadFacts Console Job DirSpec DirFacts Sync.

Section InfoFacts.

Variable JobInfo : Type.
Variable pickle_dumps : JobInfo -> string.
Variable pickle_loads : string -> result JobInfo.


Lemma open_write_eq (p : list string) (content : string) (w : world) :
  open_write p content w =
    if is_dir w p then (Raise IsADirectoryError, w)
    else if is_dir w (parent p) then
      (Ok tt, with_files (<[p := content]> (files w)) w)
    else (Raise FileNotFoundError, w).
Proof. reflexivity. Qed.



Lemma parent_info_path (job_dir : list string) :
  parent (info_path job_dir) = job_dir.
Proof.
  unfold parent, info_path. rewrite length_app. simpl.
  rewrite Nat.add_sub. by rewrite take_app_length.
Qed.

Lemma write_write_load (a b : JobInfo) (job_dir : list string) (w : world) :
  is_dir w job_dir = true ->
  is_dir w (info_path job_dir) = false ->
  pickle_loads (pickle_dumps b) = Ok b ->
  exists w',
    (write_job_info_to_file JobInfo pickle_dumps a job_dir;;
     write_job_info_to_file JobInfo pickle_dumps b job_dir;;
     load_job_info_from_file JobInfo pickle_loads job_dir) w = (Ok b, w') /\
    files w' = <[info_path job_dir := pickle_dumps b]> (files w) /\
    dirs w' = dirs w.
Proof.
  intros Hd Hp Hl. unfold write_job_info_to_file, load_job_info_from_file.
  rewrite bind_run, open_write_eq, Hp, parent_info_path, Hd.
  rewrite bind_run, open_write_eq. unfold is_dir in *. simpl.
  rewrite Hp, parent_info_path, Hd. simpl.
  rewrite bind_run. unfold open_read, is_dir. simpl. rewrite Hp.
  rewrite lookup_insert_eq. unfold lift. rewrite Hl.
  eexists. split; [reflexivity|]. simpl. split; [|done].
  apply insert_insert_eq.
Qed.

Lemma fresh_dir_write_load (job_info : JobInfo) (job_dir : list string)
    (subdirs : list string) (w : world) :
  job_dir <> [] -> ~ in_the_way w job_dir -> "info.pkl" ∉ subdirs ->
  pickle_loads (pickle_dumps job_info) = Ok job_info ->
  exists w',
    (rmtree job_dir;;
     create_job_subdirs job_dir subdirs;;
     write_job_info_to_file JobInfo pickle_dumps job_info job_dir;;
     load_job_info_from_file JobInfo pickle_loads job_dir) w
    = (Ok job_info, w').
Proof.
  intros Hne Hfree Hsub Hl.
  destruct (rmtree_then_create job_dir subdirs w Hne Hfree)
    as (w1 & E & Hf & _ & Hd & _).
  rewrite bind_run in E. rewrite bind_run.
  destruct (rmtree job_dir w) as [[[]| |] w0]; try done.
  rewrite bind_run, E.
  assert (Hjd : is_dir w1 job_dir = true).
  { unfold is_dir. apply orb_true_iff. right. apply bool_decide_eq_true.
    apply Hd; [done|]. by left. }
  assert (Hp : is_dir w1 (info_path job_dir) = false).
  { unfold is_dir. apply orb_false_iff. split.
    - apply bool_decide_eq_false. unfold info_path. by destruct job_dir.
    - apply bool_decide_eq_false. intros Hin.
      apply Hd in Hin; [|by apply prefix_app_r].
      destruct Hin as [Hin|(s & Hs & Hin)].
      + unfold info_path in Hin. apply (f_equal length) in Hin.
        rewrite length_app in Hin. simpl in Hin. lia.
      + unfold info_path in Hin. apply app_inj_tail in Hin as [_ <-]. done. }
  unfold write_job_info_to_file, load_job_info_from_file.
  rewrite bind_run, open_write_eq, Hp, parent_info_path, Hjd.
  rewrite bind_run. unfold open_read, is_dir in *. simpl. rewrite Hp.
  rewrite lookup_insert_eq. unfold lift. rewrite Hl. eauto.
Qed.

Section ProcessJob.

Variable Processor : Type.
Variable load : list string -> M world Processor.
Variable job_processor_type :
  JobInfo -> string -> list string -> M world Processor.
Variable process : Processor -> M world Processor.
Variable save : Processor -> list string -> M world unit.
Variable cwd : list string.

Lemma process_job_no_info (job_name : string) (jobs_dir : option (list string))
    (w : world) :
  let job_dir := default cwd jobs_dir ++ [job_name] in
  files w !! (job_dir ++ ["info.pkl"]) = None ->
  job_dir ++ ["info.pkl"] ∉ dirs w ->
  process_job JobInfo Processor pickle_loads load job_processor_type process
    save cwd job_name jobs_dir w
  = (Raise FileNotFoundError, w).
Proof.
  intros job_dir Hf Hd. unfold process_job.
  apply bind_raise. unfold load_job_info_from_file. apply bind_raise.
  unfold open_read, is_dir, info_path. fold job_dir.
  rewrite Hf. rewrite (bool_decide_eq_false_2 _ Hd).
  rewrite bool_decide_eq_false_2; [done|]. subst job_dir.
  by destruct (default cwd jobs_dir).
Qed.

End ProcessJob.

End InfoFacts.
End InfoFacts.
(** * Facts about the written form of the parameters *)

Module ReprFacts.
Import MonadFacts Py PySpec Expand ExpandSpec Console Job Repr.

Section ReprFacts.

Variable str_val : list obj -> val -> string.
Variable repr_val : list obj -> val -> string.
Variable wrap : string -> list string.

Lemma iterate_not_stuck (h : list obj) (v : val) :
  val_ok (length h) v -> no_generator h -> iterate h v <> Stuck.
Proof.
  intros Hv Hg. unfold iterate. destruct v as [| | | |a]; try done. simpl in *.
  destruct (h !! a) as [o|] eqn:E.
  - destruct o; try done. unfold no_generator in Hg.
    rewrite Forall_lookup in Hg. by destruct (Hg _ _ E).
  - apply lookup_ge_None in E. lia.
Qed.

Lemma iterate_not_iterable (h : list obj) (v : val) :
  val_ok (length h) v -> hasattr_iter h v = false ->
  iterate h v = Raise TypeError.
Proof.
  intros Hv Hi. unfold iterate. destruct v as [| | | |a]; try done. simpl in *.
  destruct (h !! a) as [o|] eqn:E.
  - by destruct o.
  - apply lookup_ge_None in E. lia.
Qed.

Lemma Parameter_repr_outcome (h : list obj) (par : Param) :
  val_ok (length h) (value par) -> no_generator h ->
  (exists s, Parameter_repr str_val repr_val wrap h par = Ok s) \/
  Parameter_repr str_val repr_val wrap h par = Raise TypeError.
Proof.
  intros Hv Hg. unfold Parameter_repr. destruct (expandable par); simpl; [|eauto].
  pose proof (iterate_not_stuck h (value par) Hv Hg) as Hs.
  unfold iterate in *. destruct (elements h (value par)); [eauto|].
  destruct (value par) as [| | | |a]; try (by right).
  destruct (h !! a) as [[]|]; try done. by right.
Qed.

Lemma reprs_fail (h : list obj) (par : Param) :
  no_generator h ->
  Parameter_repr str_val repr_val wrap h par = Raise TypeError ->
  forall (ps : list Param) (w : world),
  params_ok h ps -> par ∈ ps ->
  list_comp ps (fun param => lift (Parameter_repr str_val repr_val wrap h param)) w
  = (Raise TypeError, w).
Proof.
  intros Hg Hpar. induction ps as [|q ps IH]; intros w Hps Hin.
  { by apply elem_of_nil in Hin. }
  apply Forall_cons in Hps as [Hq Hps]. simpl. rewrite bind_run. unfold lift at 1.
  destruct (Parameter_repr_outcome h q Hq Hg) as [[s Hs]|Hs]; rewrite Hs; [|done].
  apply elem_of_cons in Hin as [->|Hin]; [congruence|].
  rewrite bind_run, IH; done.
Qed.

(** When every [repr] succeeds, the file is written as in [Job], where
    [repr] is a function that cannot fail. *)
Lemma reprs_succeed (h : list obj) (r : Param -> string) :
  forall (ps : list Param) (w : world),
  Forall (fun par => Parameter_repr str_val repr_val wrap h par = Ok (r par)) ps ->
  list_comp ps (fun param => lift (Parameter_repr str_val repr_val wrap h param)) w
  = (Ok (r <$> ps), w).
Proof.
  induction ps as [|q ps IH]; intros w Hps; [done|].
  apply Forall_cons in Hps as [Hq Hps]. simpl. rewrite bind_run. unfold lift at 1.
  rewrite Hq, bind_run, IH; done.
Qed.

Lemma write_parameters_info_to_file_refines (h : list obj) (r : Param -> string)
    (ps : list Param) (job_dir : list string) (w : world) :
  Forall (fun par => Parameter_repr str_val repr_val wrap h par = Ok (r par)) ps ->
  write_parameters_info_to_file_with_repr str_val repr_val wrap h ps job_dir w
  = Job.write_parameters_info_to_file r ps job_dir w.
Proof.
  intros Hps. unfold write_parameters_info_to_file_with_repr,
    Job.write_parameters_info_to_file.
  rewrite !bind_run. unfold print.
  rewrite bind_run, (reprs_succeed h r ps _ Hps). done.
Qed.

End ReprFacts.
End ReprFacts.
(** * Properties of [expand_parameters] *)

Module ExpandClaims.
Import Py PySpec PyFacts Expand ExpandSpec ExpandFacts RegionFacts Examples.

Ltac solve_ok :=
  unfold closed, obj_ok, params_ok, no_generator; simpl;
  repeat (constructor; simpl; try lia; try done).

(** The first scenario of the spec: one list of three values and a fixed
    string give three maps. *)
Example expand_list_and_string :
  exists dicts h',
    expand_parameters list_and_string list_and_string_heap = (Ok dicts, h') /\
    column h' dicts "a" = Some <$> (VInt <$> [1; 2; 3]%Z) /\
    column h' dicts "b" = Some <$> [VStr "x"; VStr "x"; VStr "x"].
Proof.
  eexists _, _. split; [vm_compute; reflexivity|]. by vm_compute.
Qed.

(** C1. For a closed heap and parameters that live in it, the list that
    [expand_parameters] returns has as many maps as the product of the
    lengths of the sequences that expand. It does return unless a generator
    is around (the only thing [deepcopy] refuses). In particular: without
    parameters the result is one map and that map is empty; when no
    parameter expands the result is that same single map, made empty at the
    start and filled by the broadcasts; when a sequence that expands is
    empty the result is the empty list. *)
Theorem expand_parameters_length (h0 : list obj) (ps : list Param) :
  closed h0 -> params_ok h0 ps ->
  (forall dicts h', expand_parameters ps h0 = (Ok dicts, h') ->
     length dicts = expansion_size h0 ps) /\
  (no_generator h0 -> exists dicts h', expand_parameters ps h0 = (Ok dicts, h')) /\
  (ps = [] ->
     expand_parameters ps h0 = (Ok [VRef (length h0)], h0 ++ [ODict []])) /\
  (Forall (fun par => expands h0 par = false) ps ->
     expansion_size h0 ps = 1 /\
     expand_parameters ps h0 =
       (Ok [VRef (length h0)], h0 ++ [ODict (broadcast_all ps [])])) /\
  (forall par, par ∈ ps -> expands h0 par = true ->
     elements h0 (value par) = Some [] ->
     expansion_size h0 ps = 0 /\
     forall dicts h', expand_parameters ps h0 = (Ok dicts, h') -> dicts = []).
Proof.
  intros Hc Hps.
  assert (Hlen : forall dicts h', expand_parameters ps h0 = (Ok dicts, h') ->
     length dicts = expansion_size h0 ps).
  { intros dicts h' E. pose proof (expand_parameters_inv h0 ps Hc Hps) as H.
    rewrite E in H. destruct H as [D HD]. apply HD. }
  split; [done|]. split; [by apply expand_parameters_returns|].
  split; [by intros ->|]. split.
  - intros Hb. split; [by apply expansion_size_broadcast|].
    unfold expand_parameters, mbind, M_bind, alloc.
    by apply for_fold_broadcast.
  - intros par Hin Hex Hel.
    pose proof (expansion_size_empty h0 ps par Hin Hex Hel) as H0.
    split; [done|]. intros dicts h' E. apply Hlen in E. rewrite H0 in E.
    by apply nil_length_inv.
Qed.

Lemma expand_parameters_length_witness :
  closed two_lists_heap /\ params_ok two_lists_heap two_lists /\
  (forall dicts h', expand_parameters two_lists two_lists_heap = (Ok dicts, h') ->
     length dicts = 6).
Proof.
  assert (Hc : closed two_lists_heap) by solve_ok.
  assert (Hp : params_ok two_lists_heap two_lists) by solve_ok.
  split; [exact Hc|]. split; [exact Hp|].
  exact (proj1 (expand_parameters_length two_lists_heap two_lists Hc Hp)).
Defined.

(** C2, as the code has it. For [a = [1, 2]] and [c = [10, 20, 30]], both
    expandable and in this order, [expand_parameters] returns six maps; the
    first parameter varies slowest: "a" reads [1, 1, 1, 2, 2, 2] and "c"
    reads [10, 20, 30, 10, 20, 30]. *)
Theorem expand_two_lists_order :
  exists dicts h',
    expand_parameters two_lists two_lists_heap = (Ok dicts, h') /\
    length dicts = 6 /\
    column h' dicts "a" = Some <$> (VInt <$> [1; 1; 1; 2; 2; 2]%Z) /\
    column h' dicts "c" = Some <$> (VInt <$> [10; 20; 30; 10; 20; 30]%Z).
Proof.
  eexists _, _. split; [vm_compute; reflexivity|]. by vm_compute.
Qed.

(** C2 as stated fails: on that input the maps do not read
    "a" = [1, 2, 1, 2, 1, 2] and "c" = [10, 10, 20, 20, 30, 30]. *)
Lemma expand_two_lists_order_counterexample :
  exists dicts h',
    expand_parameters two_lists two_lists_heap = (Ok dicts, h') /\
    column h' dicts "a" <> Some <$> (VInt <$> [1; 2; 1; 2; 1; 2]%Z) /\
    column h' dicts "c" <> Some <$> (VInt <$> [10; 10; 20; 20; 30; 30]%Z).
Proof.
  eexists _, _. split; [vm_compute; reflexivity|]. by vm_compute.
Qed.




(** C4, as the code has it. For a closed heap and parameters that live in
    it, [expand_parameters] either returns or raises [TypeError], the latter
    only when a generator is around (a map that holds one cannot be
    deep-copied for an expandable parameter that comes later). When it
    returns, every map binds the name of a parameter that is broadcast (not
    flagged, or flagged with a value that is no sized non-string iterable)
    and whose name no later parameter takes to a value with the content of
    the parameter's value. When no parameter expands it always returns, and
    returns exactly one map, which binds each such name to the very value of
    the parameter, so with distinct names all [n] names to their values. *)
Theorem expand_parameters_broadcast (h0 : list obj) (ps : list Param) :
  closed h0 -> params_ok h0 ps ->
  match expand_parameters ps h0 with
  | (Ok dicts, h') =>
      forall par d, last_named par ps -> expands h0 par = false ->
        d ∈ dicts -> binds h0 h' d (name par) (value par)
  | (Raise e, _) => e = TypeError /\ exists a, h0 !! a = Some OGen
  | (Stuck, _) => False
  end /\
  (Forall (fun par => expands h0 par = false) ps ->
     exists h',
       expand_parameters ps h0 = (Ok [VRef (length h0)], h') /\
       h0 `prefix_of` h' /\
       (forall par, last_named par ps ->
          getitem h' (VRef (length h0)) (name par) = Some (value par)) /\
       (NoDup (name <$> ps) -> forall par, par ∈ ps ->
          getitem h' (VRef (length h0)) (name par) = Some (value par))).
Proof.
  intros Hc Hps. split.
  - pose proof (expand_parameters_inv h0 ps Hc Hps) as H.
    destruct (expand_parameters ps h0) as [[dicts|e|] h']; [|done|done].
    destruct H as [D [_ _ _ _ Hbind]]. intros par d Hlast Hex Hd.
    destruct (Hbind d par Hd Hlast) as (v & Hv & Hb).
    unfold choices in Hv. rewrite Hex in Hv.
    apply list_elem_of_singleton in Hv as ->. done.
  - intros Hb. exists (h0 ++ [ODict (broadcast_all ps [])]).
    assert (Hget : forall par, last_named par ps ->
      getitem (h0 ++ [ODict (broadcast_all ps [])]) (VRef (length h0)) (name par)
      = Some (value par)).
    { intros par Hlast. simpl. rewrite lookup_app_r, Nat.sub_diag; [|lia].
      simpl. by apply broadcast_all_get. }
    split; [|split; [by apply prefix_app_r|split; [done|]]].
    + unfold expand_parameters, mbind, M_bind, alloc.
      by apply for_fold_broadcast.
    + intros Hnd par Hin. apply Hget. by apply last_named_NoDup.
Qed.

Lemma expand_parameters_broadcast_witness :
  closed scalars_heap /\ params_ok scalars_heap scalars /\
  exists h',
    expand_parameters scalars scalars_heap = (Ok [VRef 1], h') /\
    getitem h' (VRef 1) "n" = Some (VInt 5) /\
    getitem h' (VRef 1) "s" = Some (VStr "xy") /\
    getitem h' (VRef 1) "g" = Some (VRef 0).
Proof.
  assert (Hc : closed scalars_heap) by solve_ok.
  assert (Hp : params_ok scalars_heap scalars) by solve_ok.
  split; [exact Hc|]. split; [exact Hp|].
  destruct (proj2 (expand_parameters_broadcast scalars_heap scalars Hc Hp))
    as (h' & E & _ & _ & Hget).
  { solve_ok. }
  exists h'. split; [exact E|].
  assert (Hnd : NoDup (name <$> scalars)).
  { simpl. repeat (apply NoDup_cons; split;
      [rewrite ?elem_of_cons, elem_of_nil; intros H; intuition discriminate|]).
    apply NoDup_nil_2. }
  split; [|split].
  - apply (Hget Hnd {| name := "n"; value := VInt 5; expandable := false |}).
    apply list_elem_of_here.
  - apply (Hget Hnd {| name := "s"; value := VStr "xy"; expandable := true |}).
    apply list_elem_of_further, list_elem_of_here.
  - apply (Hget Hnd {| name := "g"; value := VRef 0; expandable := true |}).
    do 2 apply list_elem_of_further. apply list_elem_of_here.
Defined.

(** C4 as stated fails. A generator flagged expandable does not pass the
    test of line 74 and is broadcast; the expandable list that follows makes
    [expand_parameters] deep-copy the map that now holds the generator, and
    [deepcopy] raises [TypeError]: no map is returned at all. *)
Lemma expand_parameters_generator_counterexample :
  closed generator_heap /\ params_ok generator_heap generator_first /\
  (forall par, par ∈ generator_first -> name par = "g" ->
     expandable par = true /\ expands generator_heap par = false) /\
  (expand_parameters generator_first generator_heap).1 = Raise TypeError.
Proof.
  split; [solve_ok|]. split; [solve_ok|]. split; [|by vm_compute].
  intros par Hin Hn. unfold generator_first in Hin.
  rewrite !elem_of_cons, elem_of_nil in Hin.
  destruct Hin as [->|[->|[]]]; [by vm_compute|discriminate].
Qed.

(** A broadcast value does not survive a later parameter of the same name:
    the one map returned holds the second value only. *)
Example expand_parameters_same_name :
  exists d h',
    expand_parameters same_name [] = (Ok [d], h') /\
    getitem h' d "a" = Some (VInt 2).
Proof.
  eexists _, _. split; vm_compute; reflexivity.
Qed.

(** C9. When two parameters carry the same name and no parameter after the
    second does, every map returned binds the name to a value that comes
    from the second: its value when it is broadcast, an element of its
    sequence when it expands (up to the deep copies that later expansions
    make: a value with the same content). *)
Theorem expand_parameters_last_write_wins (h0 : list obj)
    (l0 l1 l2 : list Param) (p1 p2 : Param) (dicts : list val) (h' : list obj) :
  closed h0 -> params_ok h0 (l0 ++ p1 :: l1 ++ p2 :: l2) ->
  name p1 = name p2 -> name p2 ∉ name <$> l2 ->
  expand_parameters (l0 ++ p1 :: l1 ++ p2 :: l2) h0 = (Ok dicts, h') ->
  forall d, d ∈ dicts ->
    exists v, v ∈ choices h0 p2 /\ binds h0 h' d (name p1) v.
Proof.
  intros Hc Hps Hn Hl2 E d Hd.
  pose proof (expand_parameters_inv h0 _ Hc Hps) as H.
  rewrite E in H. destruct H as [D [_ _ _ _ Hbind]].
  rewrite Hn. apply Hbind; [done|].
  exists (l0 ++ p1 :: l1), l2. split; [|done].
  by rewrite <- app_assoc.
Qed.

Lemma expand_parameters_last_write_wins_witness :
  closed twice_heap /\ params_ok twice_heap twice /\
  exists dicts h',
    expand_parameters twice twice_heap = (Ok dicts, h') /\
    length dicts = 6 /\
    forall d, d ∈ dicts ->
      exists v, v ∈ [VInt 3; VInt 4; VInt 5]%Z /\ binds twice_heap h' d "a" v.
Proof.
  assert (Hc : closed twice_heap) by solve_ok.
  assert (Hp : params_ok twice_heap twice) by solve_ok.
  split; [exact Hc|]. split; [exact Hp|].
  eexists _, _. split; [vm_compute; reflexivity|]. split; [reflexivity|].
  refine (expand_parameters_last_write_wins twice_heap []
    [{| name := "b"; value := VRef 0; expandable := true |}] []
    {| name := "a"; value := VInt 1; expandable := false |}
    {| name := "a"; value := VRef 1; expandable := true |}
    _ _ Hc Hp eq_refl _ _).
  - simpl. apply not_elem_of_nil.
  - vm_compute; reflexivity.
Defined.

End ExpandClaims.
(** * Properties of the job steps *)

Module JobClaims.
Import MonadFacts Console Job JobSpec JobFacts JobExamples.

(** Closed facts about concrete runs are settled by evaluation. *)
Ltac by_compute :=
  match goal with
  | |- ?P => apply (bool_decide_eq_true_1 P); vm_compute; reflexivity
  end.

(** C10. [specification_check] copes with any number of specifications,
    none included, and any sample size: it prints the rule, then the
    specifications of the slice [[0:check]] (as many as there are when there
    are fewer than [check]), then the total count, then asks its question;
    nothing but [SystemExit] (after a refusal) is raised, and the model is
    stuck only when the input ends before an answer is understood. *)
Theorem specification_check_any_size {Spec : Type} (info : Spec -> string)
    (specifications : list Spec) (check : Z) (w : world) :
  exists r w' more,
    specification_check Spec info specifications check w = (r, w') /\
    (r = Ok tt \/ r = Raise (SystemExit 0) \/ r = Stuck) /\
    stdout w' =
      stdout w ++ [dashes 20]
      ++ sample_lines info (slice_to Spec specifications check)
      ++ ["Generated " +:+ pretty (length specifications) +:+ " Specifications";
          bool_prompt (check_question check) (AStr "No")]
      ++ more /\
    length (slice_to Spec specifications check) =
      (if (0 <=? check)%Z then Z.to_nat check `min` length specifications
       else length specifications - Z.to_nat (- check)) /\
    slice_to Spec [] check = [].
Proof.
  unfold specification_check.
  erewrite bind_ok; [|reflexivity].
  erewrite bind_ok; [|apply print_sample].
  erewrite bind_ok; [|reflexivity].
  rewrite bind_run. unfold ask_for_bool.
  match goal with |- context [ask_for_bool_rec ?n ?q ?d ?w1] =>
    destruct (ask_for_bool_rec_total q d n w1)
      as (r & w' & more & E & Hr & Hsnap & Hout) end.
  rewrite E. simpl in Hout.
  assert (Hlen : length (slice_to Spec specifications check) =
      (if (0 <=? check)%Z then Z.to_nat check `min` length specifications
       else length specifications - Z.to_nat (- check))).
  { unfold slice_to. destruct (0 <=? check)%Z; rewrite length_take; lia. }
  assert (Hnil : slice_to Spec [] check = []).
  { unfold slice_to. destruct (0 <=? check)%Z; by rewrite take_nil. }
  destruct Hr as [->|[b ->]].
  - eexists _, _, more. split; [reflexivity|]. split; [auto|].
    split; [|done]. rewrite Hout. by rewrite <- !app_assoc.
  - destruct b; simpl.
    + eexists _, _, more. split; [reflexivity|]. split; [auto|].
      split; [|done]. rewrite Hout. by rewrite <- !app_assoc.
    + unfold abort_job_creation, mbind, M_bind, print, logging, raise. simpl.
      eexists _, _, (more ++ ["Aborting job creation..."]).
      split; [reflexivity|]. split; [auto|]. split; [|done].
      simpl. rewrite Hout. rewrite <- !app_assoc. simpl. done.
Qed.

(** C6. When the answer to the question of [specification_check] is
    negative (the first line that is understood, after any number that are
    not, reads as no), the check raises [SystemExit] and whatever follows it
    is never run: the job-creation script ends there with the directories
    and the files exactly as they were. *)
Theorem rejection_changes_nothing {Spec P JobInfo : Type}
    (info : Spec -> string) (save : Spec -> list string -> M world unit)
    (repr : P -> string) (pickle_dumps : JobInfo -> string)
    (submit_check : string -> M world unit)
    (write_submit_file : string -> list string -> M world unit)
    (job_dir : list string) (specs : list Spec) (parameters : list P)
    (job_info : JobInfo) (submit_string : string) (check : Z)
    (w : world) (bad : list string) (line : string) (rest : list string) :
  stdin w = bad ++ line :: rest ->
  Forall (fun l => reads (AStr "No") l = None) bad ->
  reads (AStr "No") line = Some false ->
  exists w',
    specification_check Spec info specs check w = (Raise (SystemExit 0), w') /\
    snapshot w' = snapshot w /\
    (forall rest_of_script : M world unit,
       (specification_check Spec info specs check;; rest_of_script) w
       = (Raise (SystemExit 0), w')) /\
    create_job Spec info save P repr JobInfo pickle_dumps submit_check
      write_submit_file job_dir specs parameters job_info submit_string w
    = (Raise (SystemExit 0), snd (specification_check Spec info specs 3 w)) /\
    snapshot (snd (specification_check Spec info specs 3 w)) = snapshot w.
Proof.
  intros Hin Hbad Hline.
  assert (Hcheck : forall c, exists w',
    specification_check Spec info specs c w = (Raise (SystemExit 0), w') /\
    snapshot w' = snapshot w).
  { intros c. unfold specification_check.
    erewrite bind_ok; [|reflexivity].
    erewrite bind_ok; [|apply print_sample].
    erewrite bind_ok; [|reflexivity].
    match goal with |- context [ask_for_bool ?q ?d ≫= ?f] =>
      match goal with |- context [(ask_for_bool q d ≫= f) ?w1] =>
        destruct (ask_for_bool_answer q d line false bad rest w1 Hline Hbad Hin)
          as (w2 & E & _ & Hsnap)
      end
    end.
    erewrite bind_ok; [|exact E]. simpl.
    eexists. split; [reflexivity|]. exact Hsnap. }
  destruct (Hcheck check) as (w' & E & Hsnap).
  exists w'. split; [done|]. split; [done|]. split.
  - intros k. by apply bind_raise.
  - destruct (Hcheck 3%Z) as (w3 & E3 & Hsnap3). rewrite E3. simpl.
    split; [|done]. unfold create_job. by apply bind_raise.
Qed.

Lemma rejection_changes_nothing_witness :
  let w := job_world ["perhaps"; " N o"; "yes"] in
  stdin w = ["perhaps"] ++ " N o" :: ["yes"] /\
  Forall (fun l => reads (AStr "No") l = None) ["perhaps"] /\
  reads (AStr "No") " N o" = Some false /\
  exists w',
    specification_check toy_spec toy_info five_specs 3 w
    = (Raise (SystemExit 0), w') /\
    snapshot w' = snapshot w.
Proof.
  intros w.
  assert (H1 : stdin w = ["perhaps"] ++ " N o" :: ["yes"]) by reflexivity.
  assert (H2 : Forall (fun l => reads (AStr "No") l = None) ["perhaps"]).
  { apply Forall_singleton. vm_compute. reflexivity. }
  assert (H3 : reads (AStr "No") " N o" = Some false).
  { vm_compute. reflexivity. }
  split; [exact H1|]. split; [exact H2|]. split; [exact H3|].
  destruct (rejection_changes_nothing toy_info toy_save toy_info toy_dumps
              (fun _ => mret tt) (fun _ _ => mret tt)
              ["job"] five_specs five_specs "info" "submit" 3 w
              ["perhaps"] " N o" ["yes"] H1 H2 H3)
    as (w' & E & Hsnap & _).
  exists w'. split; [exact E|exact Hsnap].
Defined.

(** C5, as the code has it. [save_specifications] has no handler: when
    saving a specification raises, after those before it were saved, the
    exception leaves [save_specifications] at once, with the world as the
    failed save left it; no later specification is saved, and nothing
    records which one failed but the exception itself. *)
Theorem save_specifications_stops_at_failure {Spec : Type}
    (save : Spec -> list string -> M world unit)
    (before after : list Spec) (failing : Spec) (job_dir : list string)
    (w w1 w2 : world) (e : exn) :
  for_each before (fun spec => save spec (job_dir ++ ["inputs"]))
    (with_stdout (stdout w ++ ["Saving Specifications..."]) w) = (Ok tt, w1) ->
  save failing (job_dir ++ ["inputs"]) w1 = (Raise e, w2) ->
  save_specifications Spec save (before ++ failing :: after) job_dir w
  = (Raise e, w2).
Proof.
  intros Hbefore Hfail. unfold save_specifications.
  erewrite bind_ok; [|reflexivity].
  apply bind_raise. rewrite for_each_app.
  erewrite bind_ok; [|exact Hbefore]. simpl.
  by apply bind_raise.
Qed.

Lemma save_specifications_stops_at_failure_witness :
  for_each (take 2 five_specs) (fun spec => toy_save spec (["job"] ++ ["inputs"]))
    (with_stdout (stdout (job_world []) ++ ["Saving Specifications..."])
       (job_world [])) = (Ok tt, two_saved) /\
  toy_save {| file_name := "2"; serializable := false |}
    (["job"] ++ ["inputs"]) two_saved = (Raise SerializationError, two_saved) /\
  save_specifications toy_spec toy_save five_specs ["job"] (job_world [])
  = (Raise SerializationError, two_saved) /\
  dom (files two_saved) = {[ spec_file "0"; spec_file "1" ]}.
Proof.
  assert (H1 : for_each (take 2 five_specs)
      (fun spec => toy_save spec (["job"] ++ ["inputs"]))
      (with_stdout (stdout (job_world []) ++ ["Saving Specifications..."])
         (job_world [])) = (Ok tt, two_saved)) by by_compute.
  assert (H2 : toy_save {| file_name := "2"; serializable := false |}
      (["job"] ++ ["inputs"]) two_saved = (Raise SerializationError, two_saved))
    by reflexivity.
  split; [exact H1|]. split; [exact H2|]. split.
  - exact (save_specifications_stops_at_failure toy_save (take 2 five_specs)
             (drop 3 five_specs) {| file_name := "2"; serializable := false |}
             ["job"] (job_world []) _ _ SerializationError H1 H2).
  - by_compute.
Defined.

(** C5 as stated fails. Of five specifications the one at index 2 cannot
    be serialized (each of the others can be saved on its own):
    [save_specifications] ends with the exception, the files of indices 0
    and 1 exist, those of indices 3 and 4 do not, and what comes back is the
    exception, not a report. *)
Lemma save_specifications_counterexample :
  let run :=
    save_specifications toy_spec toy_save five_specs ["job"] (job_world []) in
  run.1 = Raise SerializationError /\
  files run.2 !! spec_file "0" = Some "spec 0" /\
  files run.2 !! spec_file "1" = Some "spec 1" /\
  files run.2 !! spec_file "3" = None /\
  files run.2 !! spec_file "4" = None /\
  Forall (fun s => serializable s = true ->
            (toy_save s ["job"; "inputs"] (job_world [])).1 = Ok tt)
    five_specs.
Proof.
  intros run. repeat split; by_compute.
Qed.

(** C7. The obtain step hands back what [load] returns when [load]
    succeeds, makes a new processor when and only when [load] raises
    [FileNotFoundError], and lets every other exception of [load] through
    without making one. With the loader described by the spec: a persisted
    file that deserializes is loaded; no file, a new processor; a file that
    fails to deserialize, the error of the deserializer and no processor. *)
Theorem obtain_load_or_create {Processor : Type}
    (unpickle : string -> result Processor)
    (new_processor : string -> list string -> M world Processor)
    (job_dir : list string) (job_name : string) (w : world) :
  let p := processor_path job_dir job_name in
  (forall load jp w', load p w = (Ok jp, w') ->
     obtain Processor new_processor load job_dir job_name w = (Ok jp, w')) /\
  (forall load w', load p w = (Raise FileNotFoundError, w') ->
     obtain Processor new_processor load job_dir job_name w
     = new_processor job_name job_dir w') /\
  (forall load e w', load p w = (Raise e, w') -> e <> FileNotFoundError ->
     obtain Processor new_processor load job_dir job_name w = (Raise e, w')) /\
  (is_dir w p = false ->
     (files w !! p = None ->
        obtain Processor new_processor (load_processor Processor unpickle)
          job_dir job_name w = new_processor job_name job_dir w) /\
     (forall content jp, files w !! p = Some content ->
        unpickle content = Ok jp ->
        obtain Processor new_processor (load_processor Processor unpickle)
          job_dir job_name w = (Ok jp, w)) /\
     (forall content e, files w !! p = Some content ->
        unpickle content = Raise e -> e <> FileNotFoundError ->
        obtain Processor new_processor (load_processor Processor unpickle)
          job_dir job_name w = (Raise e, w))).
Proof.
  intros p.
  assert (H1 : forall load jp w', load p w = (Ok jp, w') ->
     obtain Processor new_processor load job_dir job_name w = (Ok jp, w')).
  { intros load jp w' E. unfold obtain, try_except. fold p. by rewrite E. }
  assert (H2 : forall load w', load p w = (Raise FileNotFoundError, w') ->
     obtain Processor new_processor load job_dir job_name w
     = new_processor job_name job_dir w').
  { intros load w' E. unfold obtain, try_except. fold p. by rewrite E. }
  assert (H3 : forall load e w', load p w = (Raise e, w') ->
     e <> FileNotFoundError ->
     obtain Processor new_processor load job_dir job_name w = (Raise e, w')).
  { intros load e w' E Hne. unfold obtain, try_except. fold p. rewrite E.
    by rewrite bool_decide_eq_false_2. }
  split; [done|]. split; [done|]. split; [done|].
  intros Hdir. split; [|split].
  - intros Hnone. apply H2. unfold load_processor. rewrite bind_run.
    unfold open_read. by rewrite Hdir, Hnone.
  - intros content jp Hsome Hun. apply H1. unfold load_processor.
    rewrite bind_run. unfold open_read. rewrite Hdir, Hsome.
    unfold lift. by rewrite Hun.
  - intros content e Hsome Hun Hne. apply H3; [|done]. unfold load_processor.
    rewrite bind_run. unfold open_read. rewrite Hdir, Hsome.
    unfold lift. by rewrite Hun.
Qed.

Lemma obtain_load_or_create_witness :
  let absent := job_world [] in
  let present := with_files {[ ["job"; "sweep.job"] := "state" ]} (job_world []) in
  let corrupt := with_files {[ ["job"; "sweep.job"] := "corrupt" ]} (job_world []) in
  obtain string toy_new (load_processor string toy_unpickle) ["job"] "sweep" absent
  = (Ok "fresh sweep", absent) /\
  obtain string toy_new (load_processor string toy_unpickle) ["job"] "sweep" present
  = (Ok "state", present) /\
  obtain string toy_new (load_processor string toy_unpickle) ["job"] "sweep" corrupt
  = (Raise UnpicklingError, corrupt).
Proof.
  intros absent present corrupt. split; [|split].
  - refine (proj1 (proj2 (proj2 (proj2
      (obtain_load_or_create toy_unpickle toy_new ["job"] "sweep" absent)))
      _) _); vm_compute; reflexivity.
  - refine (proj1 (proj2 (proj2 (proj2 (proj2
      (obtain_load_or_create toy_unpickle toy_new ["job"] "sweep" present)))
      _)) "state" "state" _ _); vm_compute; reflexivity.
  - refine (proj2 (proj2 (proj2 (proj2 (proj2
      (obtain_load_or_create toy_unpickle toy_new ["job"] "sweep" corrupt)))
      _)) "corrupt" UnpicklingError _ _ _); try (vm_compute; reflexivity).
    discriminate.
Defined.

(** C8. When [pickle] reads back what it wrote, the job directory exists
    and holds no directory called info.pkl: [write_job_info_to_file]
    succeeds and changes nothing but the file info.pkl of the job
    directory, and [load_job_info_from_file] on the same directory then
    returns the record that was written; it reads that same path, and
    returns the record in any world where that file has this content. *)
Theorem job_info_round_trip {JobInfo : Type}
    (pickle_dumps : JobInfo -> string) (pickle_loads : string -> result JobInfo)
    (job_info : JobInfo) (job_dir : list string) (w : world) :
  (forall x, pickle_loads (pickle_dumps x) = Ok x) ->
  is_dir w job_dir = true ->
  is_dir w (job_dir ++ ["info.pkl"]) = false ->
  exists w1,
    write_job_info_to_file JobInfo pickle_dumps job_info job_dir w = (Ok tt, w1) /\
    w1 = with_files (<[job_dir ++ ["info.pkl"] := pickle_dumps job_info]> (files w)) w /\
    load_job_info_from_file JobInfo pickle_loads job_dir w1 = (Ok job_info, w1) /\
    (forall w2, is_dir w2 (job_dir ++ ["info.pkl"]) = false ->
       files w2 !! (job_dir ++ ["info.pkl"]) = Some (pickle_dumps job_info) ->
       load_job_info_from_file JobInfo pickle_loads job_dir w2 = (Ok job_info, w2)) /\
    (files w !! (job_dir ++ ["info.pkl"]) = None ->
       (load_job_info_from_file JobInfo pickle_loads job_dir w).1
       = Raise FileNotFoundError).
Proof.
  intros Hrt Hdir Hfile.
  assert (Hparent : parent (job_dir ++ ["info.pkl"]) = job_dir).
  { unfold parent. rewrite length_app. simpl.
    replace (length job_dir + 1 - 1) with (length job_dir) by lia.
    by rewrite take_app_length. }
  assert (Hload : forall w2, is_dir w2 (job_dir ++ ["info.pkl"]) = false ->
       files w2 !! (job_dir ++ ["info.pkl"]) = Some (pickle_dumps job_info) ->
       load_job_info_from_file JobInfo pickle_loads job_dir w2 = (Ok job_info, w2)).
  { intros w2 Hd Hf. unfold load_job_info_from_file, info_path.
    rewrite bind_run. unfold open_read. rewrite Hd, Hf. unfold lift.
    by rewrite Hrt. }
  eexists. split; [|split; [reflexivity|split; [|split]]].
  - unfold write_job_info_to_file, info_path, open_write.
    by rewrite Hfile, Hparent, Hdir.
  - apply Hload; [exact Hfile|]. simpl. apply lookup_insert_eq.
  - exact Hload.
  - intros Hnone. unfold load_job_info_from_file, info_path.
    rewrite bind_run. unfold open_read. by rewrite Hfile, Hnone.
Qed.

Lemma job_info_round_trip_witness :
  let w := job_world [] in
  (forall x, toy_loads (toy_dumps x) = Ok x) /\
  is_dir w ["job"] = true /\
  is_dir w (["job"] ++ ["info.pkl"]) = false /\
  exists w1,
    write_job_info_to_file string toy_dumps "sweep, 200 sims" ["job"] w = (Ok tt, w1) /\
    load_job_info_from_file string toy_loads ["job"] w1 = (Ok "sweep, 200 sims", w1).
Proof.
  intros w.
  assert (H1 : forall x, toy_loads (toy_dumps x) = Ok x) by reflexivity.
  assert (H2 : is_dir w ["job"] = true) by (vm_compute; reflexivity).
  assert (H3 : is_dir w (["job"] ++ ["info.pkl"]) = false)
    by (vm_compute; reflexivity).
  split; [exact H1|]. split; [exact H2|]. split; [exact H3|].
  destruct (job_info_round_trip toy_dumps toy_loads "sweep, 200 sims" ["job"] w
              H1 H2 H3) as (w1 & Hw & _ & Hl & _).
  exists w1. split; [exact Hw|exact Hl].
Defined.

End JobClaims.
(** * Properties of the prompts *)

Module PromptProps.
Import MonadFacts Console Job JobSpec JobFacts Prompts PromptSpec PromptFacts
  PromptExamples.

(** X1. [ask_for_input] goes through the lines typed until one is not
    turned down: a blank line (nothing but spaces) gives the default as it
    was passed, not cast; any other line gives [cast_to] of the line with
    its spaces removed, or lets through what [cast_to] raised when that is
    not an [Exception]. Every line before it was turned down because
    [cast_to] raised an [Exception]: for each the prompt and the text of
    the exception are on the terminal. The lines after it are still to be
    read, and the filesystem is as it was. *)
Theorem ask_for_input_first_decisive {V : Type} (str_of : V -> string)
    (cast_to : string -> result V) (question : string) (default : V)
    (w : world) (bad : list string) (line : string) (rest : list string) :
  stdin w = bad ++ line :: rest ->
  Forall (fun l => asks_again (taken V cast_to default l) = true) bad ->
  asks_again (taken V cast_to default line) = false ->
  exists w',
    ask_for_input V str_of cast_to question default w
      = (taken V cast_to default line, w') /\
    stdin w' = rest /\ snapshot w' = snapshot w /\
    stdout w' = stdout w
      ++ turned_down (input_prompt V str_of question default)
           (taken V cast_to default) bad
      ++ [input_prompt V str_of question default].
Proof.
  intros Hin Hbad Hline. unfold ask_for_input.
  eapply ask_for_input_rec_decides; try done.
  rewrite Hin, length_app. lia.
Qed.

Lemma ask_for_input_first_decisive_witness :
  let w := typed ["x1"; ""; "3"] in
  stdin w = ["x1"] ++ "" :: ["3"] /\
  Forall (fun l => asks_again (taken Z toy_int 5%Z l) = true) ["x1"] /\
  asks_again (taken Z toy_int 5%Z "") = false /\
  exists w',
    ask_for_input Z pretty toy_int "n?" 5%Z w = (Ok 5%Z, w') /\
    stdin w' = ["3"] /\
    stdout w' = ["n? [Default: 5] > ";
                 "invalid literal for int() with base 10";
                 "n? [Default: 5] > "].
Proof.
  intros w.
  assert (H1 : stdin w = ["x1"] ++ "" :: ["3"]) by reflexivity.
  assert (H2 : Forall (fun l => asks_again (taken Z toy_int 5%Z l) = true) ["x1"]).
  { apply Forall_singleton. vm_compute. reflexivity. }
  assert (H3 : asks_again (taken Z toy_int 5%Z "") = false).
  { vm_compute. reflexivity. }
  split; [exact H1|]. split; [exact H2|]. split; [exact H3|].
  destruct (ask_for_input_first_decisive pretty toy_int "n?" 5%Z w
              ["x1"] "" ["3"] H1 H2 H3) as (w' & E & Hs & _ & Hout).
  exists w'. split; [exact E|]. split; [exact Hs|]. exact Hout.
Defined.

(** X2. When every line typed is turned down, [ask_for_input] ends with
    [EOFError]: [input] is called outside the [try], so the end of the
    input is not caught (unlike in [ask_for_bool]). All the lines have been
    read and the filesystem is as it was. *)
Theorem ask_for_input_end_of_input {V : Type} (str_of : V -> string)
    (cast_to : string -> result V) (question : string) (default : V)
    (w : world) :
  Forall (fun l => asks_again (taken V cast_to default l) = true) (stdin w) ->
  exists w',
    ask_for_input V str_of cast_to question default w = (Raise EOFError, w') /\
    stdin w' = [] /\ snapshot w' = snapshot w /\
    stdout w' = stdout w
      ++ turned_down (input_prompt V str_of question default)
           (taken V cast_to default) (stdin w)
      ++ [input_prompt V str_of question default].
Proof.
  intros Hbad. unfold ask_for_input.
  eapply ask_for_input_rec_eof; done.
Qed.

Lemma ask_for_input_end_of_input_witness :
  let w := typed ["x1"; "1.5"] in
  Forall (fun l => asks_again (taken Z toy_int 5%Z l) = true) (stdin w) /\
  exists w',
    ask_for_input Z pretty toy_int "n?" 5%Z w = (Raise EOFError, w') /\
    stdin w' = [].
Proof.
  intros w.
  assert (H : Forall (fun l => asks_again (taken Z toy_int 5%Z l) = true) (stdin w)).
  { repeat (constructor; [vm_compute; reflexivity|]). constructor. }
  split; [exact H|].
  destruct (ask_for_input_end_of_input pretty toy_int "n?" 5%Z w H)
    as (w' & E & Hs & _).
  exists w'. split; [exact E|exact Hs].
Defined.

(** X3. [ask_for_eval] evaluates each line as it was typed, spaces
    included; for a blank line it evaluates the text of the default. It
    goes on to the next line while the evaluation raises an [Exception],
    and hands back the outcome of the first evaluation that does not. *)
Theorem ask_for_eval_first_decisive {V : Type} (str_of : V -> string)
    (eval : string -> result V) (question : string) (default : V)
    (w : world) (bad : list string) (line : string) (rest : list string) :
  stdin w = bad ++ line :: rest ->
  Forall (fun l => asks_again (eval (evaluated V str_of default l)) = true) bad ->
  asks_again (eval (evaluated V str_of default line)) = false ->
  exists w',
    ask_for_eval V str_of eval question default w
      = (eval (if decide (remove_spaces line = "") then str_of default else line),
         w') /\
    stdin w' = rest /\ snapshot w' = snapshot w /\
    stdout w' = stdout w
      ++ turned_down (eval_prompt V str_of question default)
           (fun l => eval (evaluated V str_of default l)) bad
      ++ [eval_prompt V str_of question default].
Proof.
  intros Hin Hbad Hline. unfold ask_for_eval.
  eapply ask_for_eval_rec_decides; try done.
  rewrite Hin, length_app. lia.
Qed.

Lemma ask_for_eval_first_decisive_witness :
  let w := typed ["1+1"; "1 + 1"; "  "] in
  stdin w = ["1+1"] ++ "1 + 1" :: ["  "] /\
  Forall (fun l => asks_again (toy_eval (evaluated Z pretty 7%Z l)) = true)
    ["1+1"] /\
  asks_again (toy_eval (evaluated Z pretty 7%Z "1 + 1")) = false /\
  exists w',
    ask_for_eval Z pretty toy_eval "x?" 7%Z w = (Ok 2%Z, w') /\
    stdin w' = ["  "].
Proof.
  intros w.
  assert (H1 : stdin w = ["1+1"] ++ "1 + 1" :: ["  "]) by reflexivity.
  assert (H2 : Forall
    (fun l => asks_again (toy_eval (evaluated Z pretty 7%Z l)) = true) ["1+1"]).
  { apply Forall_singleton. vm_compute. reflexivity. }
  assert (H3 : asks_again (toy_eval (evaluated Z pretty 7%Z "1 + 1")) = false).
  { vm_compute. reflexivity. }
  split; [exact H1|]. split; [exact H2|]. split; [exact H3|].
  destruct (ask_for_eval_first_decisive pretty toy_eval "x?" 7%Z w
              ["1+1"] "1 + 1" ["  "] H1 H2 H3) as (w' & E & Hs & _).
  exists w'. split; [exact E|exact Hs].
Defined.

(** X4. [ask_for_bool] hands back the reading of the first line it
    understands. For each line before it, the question and the message
    [Invalid answer to question "..."] are on the terminal; the lines after
    it are still to be read; the filesystem is as it was. *)
Theorem ask_for_bool_first_understood (question : string) (default : answer)
    (w : world) (bad : list string) (line : string) (rest : list string)
    (b : bool) :
  stdin w = bad ++ line :: rest ->
  Forall (fun l => reads default l = None) bad ->
  reads default line = Some b ->
  exists w',
    ask_for_bool question default w = (Ok b, w') /\
    stdin w' = rest /\ snapshot w' = snapshot w /\
    stdout w' = stdout w ++ bool_turned_down question default bad
      ++ [bool_prompt question default].
Proof.
  intros Hin Hbad Hline. unfold ask_for_bool.
  eapply ask_for_bool_rec_transcript; try done.
  rewrite Hin, length_app. lia.
Qed.

Lemma ask_for_bool_first_understood_witness :
  let w := typed ["maybe"; " Y es "; "no"] in
  stdin w = ["maybe"] ++ " Y es " :: ["no"] /\
  Forall (fun l => reads (ABool false) l = None) ["maybe"] /\
  reads (ABool false) " Y es " = Some true /\
  exists w',
    ask_for_bool "Go on?" (ABool false) w = (Ok true, w') /\
    stdin w' = ["no"] /\
    stdout w' = ["Go on? [Default: False] > ";
                 "Invalid answer to question " +:+ dq +:+ "Go on?" +:+ dq;
                 "Go on? [Default: False] > "].
Proof.
  intros w.
  assert (H1 : stdin w = ["maybe"] ++ " Y es " :: ["no"]) by reflexivity.
  assert (H2 : Forall (fun l => reads (ABool false) l = None) ["maybe"]).
  { apply Forall_singleton. vm_compute. reflexivity. }
  assert (H3 : reads (ABool false) " Y es " = Some true).
  { vm_compute. reflexivity. }
  split; [exact H1|]. split; [exact H2|]. split; [exact H3|].
  destruct (ask_for_bool_first_understood "Go on?" (ABool false) w
              ["maybe"] " Y es " ["no"] true H1 H2 H3)
    as (w' & E & Hs & _ & Hout).
  exists w'. split; [exact E|]. split; [exact Hs|]. exact Hout.
Defined.

(** X5. A blank line stands for the default as it was passed: the default
    is not put in lower case. With a boolean or one of the synonyms in
    lower case as default, a blank line is answered at once. With any other
    default, such as the ['No'] that [specification_check] passes, a blank
    line is an invalid answer: the message is printed and the question is
    asked again on the rest of the input. *)
Theorem ask_for_bool_blank_line (question : string) (default : answer)
    (w : world) (line : string) (rest : list string) :
  stdin w = line :: rest ->
  remove_spaces line = "" ->
  ask_for_bool question default w =
    if in_true default then (Ok true, after_input question default line rest w)
    else if in_false default then
      (Ok false, after_input question default line rest w)
    else
      (print ("Invalid answer to question " +:+ dq +:+ question +:+ dq);;
       ask_for_bool question default)
        (after_input question default line rest w).
Proof.
  intros Hin Hblank. unfold ask_for_bool at 1. rewrite Hin. simpl length.
  rewrite ask_for_bool_rec_eq, Hin, (reads_blank default line Hblank).
  destruct (in_true default); [done|].
  destruct (in_false default); [done|].
  reflexivity.
Qed.

Lemma ask_for_bool_blank_line_witness :
  let w := typed ["  "; "n"] in
  stdin w = "  " :: ["n"] /\
  remove_spaces "  " = "" /\
  ask_for_bool "Go on?" (AStr "No") w =
    (print ("Invalid answer to question " +:+ dq +:+ "Go on?" +:+ dq);;
     ask_for_bool "Go on?" (AStr "No"))
      (after_input "Go on?" (AStr "No") "  " ["n"] w).
Proof.
  intros w.
  assert (H1 : stdin w = "  " :: ["n"]) by reflexivity.
  assert (H2 : remove_spaces "  " = "") by reflexivity.
  split; [exact H1|]. split; [exact H2|].
  exact (ask_for_bool_blank_line "Go on?" (AStr "No") w "  " ["n"] H1 H2).
Defined.

(** X6. Whatever is typed, and whatever the sample, [specification_check]
    changes no directory and no file: it only prints, reads and logs. *)
Theorem specification_check_keeps_filesystem {Spec : Type}
    (info : Spec -> string) (specifications : list Spec) (check : Z)
    (w : world) :
  snapshot (specification_check Spec info specifications check w).2
  = snapshot w.
Proof.
  unfold specification_check.
  erewrite bind_ok; [|reflexivity].
  erewrite bind_ok; [|apply print_sample].
  erewrite bind_ok; [|reflexivity].
  rewrite bind_run. unfold ask_for_bool.
  match goal with |- context [ask_for_bool_rec ?n ?q ?d ?w1] =>
    destruct (ask_for_bool_rec_total q d n w1)
      as (r & w' & more & E & Hr & Hsnap & Hout) end.
  rewrite E. destruct Hr as [->|[[] ->]]; simpl; try exact Hsnap.
Qed.

(** X18. When the first answer that is understood is a yes,
    [specification_check] returns: the lines after the answer are still to
    be read, the filesystem is untouched, and the job-creation script goes
    on with [submit_check] and the steps after the point of no return. *)
Theorem specification_check_acceptance {Spec P JobInfo : Type}
    (info : Spec -> string) (save : Spec -> list string -> M world unit)
    (repr : P -> string) (pickle_dumps : JobInfo -> string)
    (submit_check : string -> M world unit)
    (write_submit_file : string -> list string -> M world unit)
    (job_dir : list string) (specs : list Spec) (parameters : list P)
    (job_info : JobInfo) (submit_string : string)
    (w : world) (bad : list string) (line : string) (rest : list string) :
  stdin w = bad ++ line :: rest ->
  Forall (fun l => reads (AStr "No") l = None) bad ->
  reads (AStr "No") line = Some true ->
  exists w',
    specification_check Spec info specs 3 w = (Ok tt, w') /\
    stdin w' = rest /\ snapshot w' = snapshot w /\
    create_job Spec info save P repr JobInfo pickle_dumps submit_check
      write_submit_file job_dir specs parameters job_info submit_string w
    = (submit_check submit_string;;
       materialize Spec info save P repr JobInfo pickle_dumps
         write_submit_file job_dir specs parameters job_info submit_string) w'.
Proof.
  intros Hin Hbad Hline.
  assert (Hcheck : exists w',
    specification_check Spec info specs 3 w = (Ok tt, w') /\
    stdin w' = rest /\ snapshot w' = snapshot w).
  { unfold specification_check.
    erewrite bind_ok; [|reflexivity].
    erewrite bind_ok; [|apply print_sample].
    erewrite bind_ok; [|reflexivity].
    match goal with |- context [ask_for_bool ?q ?d ≫= ?f] =>
      match goal with |- context [(ask_for_bool q d ≫= f) ?w1] =>
        destruct (ask_for_bool_answer q d line true bad rest w1 Hline Hbad Hin)
          as (w2 & E & Hs & Hsnap)
      end
    end.
    erewrite bind_ok; [|exact E]. simpl.
    eexists. split; [reflexivity|]. split; [exact Hs|exact Hsnap]. }
  destruct Hcheck as (w' & E & Hs & Hsnap).
  exists w'. split; [done|]. split; [done|]. split; [done|].
  unfold create_job. by erewrite bind_ok; [|exact E].
Qed.

Lemma specification_check_acceptance_witness :
  let w := JobExamples.job_world ["perhaps"; " Y "; "more"] in
  stdin w = ["perhaps"] ++ " Y " :: ["more"] /\
  Forall (fun l => reads (AStr "No") l = None) ["perhaps"] /\
  reads (AStr "No") " Y " = Some true /\
  exists w',
    specification_check JobExamples.toy_spec JobExamples.toy_info
      JobExamples.five_specs 3 w = (Ok tt, w') /\
    stdin w' = ["more"] /\ snapshot w' = snapshot w.
Proof.
  intros w.
  assert (H1 : stdin w = ["perhaps"] ++ " Y " :: ["more"]) by reflexivity.
  assert (H2 : Forall (fun l => reads (AStr "No") l = None) ["perhaps"]).
  { apply Forall_singleton. vm_compute. reflexivity. }
  assert (H3 : reads (AStr "No") " Y " = Some true).
  { vm_compute. reflexivity. }
  split; [exact H1|]. split; [exact H2|]. split; [exact H3|].
  destruct (specification_check_acceptance JobExamples.toy_info
              JobExamples.toy_save JobExamples.toy_info JobExamples.toy_dumps
              (fun _ => mret tt) (fun _ _ => mret tt)
              ["job"] JobExamples.five_specs JobExamples.five_specs "info"
              "submit" w ["perhaps"] " Y " ["more"] H1 H2 H3)
    as (w' & E & Hs & Hsnap & _).
  exists w'. split; [exact E|]. split; [exact Hs|exact Hsnap].
Defined.

End PromptProps.
(** * Properties of the job directory and of the job information *)

Module JobProps.
Import MonadFacts Console Job DirSpec DirFacts InfoFacts Sync JobExamples
  DirExamples.

Ltac by_compute :=
  match goal with
  | |- ?P => apply (bool_decide_eq_true_1 P); vm_compute; reflexivity
  end.

(** X7. When no regular file sits at the job directory, above it, or at
    one of the subdirectories asked for, [create_job_subdirs] succeeds and
    the directories afterwards are those there were, the job directory
    with all the directories above it, and one directory for each name in
    [subdirs]; no file is made or changed. *)
Theorem create_job_subdirs_creates (job_dir : list string)
    (subdirs : list string) (w : world) :
  Forall (fun p => ~ in_the_way w p) (wanted job_dir subdirs) ->
  exists w',
    create_job_subdirs job_dir subdirs w = (Ok tt, w') /\
    files w' = files w /\ stdin w' = stdin w /\
    forall q, q ∈ dirs w' <->
      q ∈ dirs w \/ q ∈ ancestors job_dir \/
      exists s, s ∈ subdirs /\ q = job_dir ++ [s].
Proof. apply create_job_subdirs_run. Qed.

Lemma create_job_subdirs_creates_witness :
  Forall (fun p => ~ in_the_way bare_world p)
    (wanted ["jobs"; "job"] ["inputs"; "outputs"; "logs"]) /\
  exists w',
    create_job_subdirs ["jobs"; "job"] ["inputs"; "outputs"; "logs"] bare_world
      = (Ok tt, w') /\
    files w' = files bare_world /\
    (["jobs"] ∈ dirs w' /\ ["jobs"; "job"; "logs"] ∈ dirs w').
Proof.
  assert (H : Forall (fun p => ~ in_the_way bare_world p)
                (wanted ["jobs"; "job"] ["inputs"; "outputs"; "logs"])).
  { by_compute. }
  split; [exact H|].
  destruct (create_job_subdirs_creates ["jobs"; "job"]
              ["inputs"; "outputs"; "logs"] bare_world H)
    as (w' & E & Hf & _ & Hd).
  exists w'. split; [exact E|]. split; [exact Hf|]. split.
  - apply Hd. right. left. by_compute.
  - apply Hd. right. right. exists "logs". split; [by_compute|reflexivity].
Defined.

(** X8. [create_job_subdirs] can be run again: after a run that
    succeeded, a second run with the same arguments succeeds too and leaves
    the directories and the files as the first run left them. *)
Theorem create_job_subdirs_idempotent (job_dir : list string)
    (subdirs : list string) (w w1 : world) :
  create_job_subdirs job_dir subdirs w = (Ok tt, w1) ->
  exists w2,
    create_job_subdirs job_dir subdirs w1 = (Ok tt, w2) /\
    snapshot w2 = snapshot w1.
Proof. apply create_job_subdirs_again. Qed.

Lemma create_job_subdirs_idempotent_witness :
  let w1 := (create_job_subdirs ["job"] ["inputs"; "outputs"; "logs"]
               bare_world).2 in
  create_job_subdirs ["job"] ["inputs"; "outputs"; "logs"] bare_world
    = (Ok tt, w1) /\
  exists w2,
    create_job_subdirs ["job"] ["inputs"; "outputs"; "logs"] w1 = (Ok tt, w2) /\
    snapshot w2 = snapshot w1.
Proof.
  intros w1.
  assert (H : create_job_subdirs ["job"] ["inputs"; "outputs"; "logs"]
                bare_world = (Ok tt, w1)).
  { by_compute. }
  split; [exact H|].
  exact (create_job_subdirs_idempotent ["job"] ["inputs"; "outputs"; "logs"]
           bare_world w1 H).
Defined.

(** X9. The first two steps after the point of no return of the
    job-creation script, [shutil.rmtree(job_dir, ignore_errors = True)]
    and then [create_job_subdirs], leave a clean job directory: when no
    regular file sits at the job directory or above it, they succeed; no
    file is left under the job directory and the directories under it are
    the job directory and the subdirectories asked for, nothing else;
    outside the job directory every file is as it was and the only new
    directories are the ones above the job directory. *)
Theorem rmtree_then_create_job_subdirs (job_dir : list string)
    (subdirs : list string) (w : world) :
  job_dir <> [] -> ~ in_the_way w job_dir ->
  exists w',
    (rmtree job_dir;; create_job_subdirs job_dir subdirs) w = (Ok tt, w') /\
    (forall p, job_dir `prefix_of` p -> files w' !! p = None) /\
    (forall p, ~ job_dir `prefix_of` p -> files w' !! p = files w !! p) /\
    (forall q, job_dir `prefix_of` q ->
       q ∈ dirs w' <->
       q = job_dir \/ exists s, s ∈ subdirs /\ q = job_dir ++ [s]) /\
    (forall q, ~ job_dir `prefix_of` q ->
       q ∈ dirs w' <-> q ∈ dirs w \/ q ∈ ancestors job_dir).
Proof. apply rmtree_then_create. Qed.

Lemma rmtree_then_create_job_subdirs_witness :
  ["job"] <> [] /\ (~ in_the_way stale_world ["job"]) /\
  exists w',
    (rmtree ["job"];; create_job_subdirs ["job"] ["inputs"; "outputs"; "logs"])
      stale_world = (Ok tt, w') /\
    files w' !! ["job"; "inputs"; "0.spec"] = None /\
    files w' !! ["notes.txt"] = Some "keep" /\
    ["job"; "movies"] ∉ dirs w'.
Proof.
  assert (H1 : ["job"] <> ([] : list string)) by done.
  assert (H2 : ~ in_the_way stale_world ["job"]) by by_compute.
  split; [exact H1|]. split; [exact H2|].
  destruct (rmtree_then_create_job_subdirs ["job"]
              ["inputs"; "outputs"; "logs"] stale_world H1 H2)
    as (w' & E & Hin & Hout & Hd & _).
  exists w'. split; [exact E|]. split; [|split].
  - apply Hin. by exists ["inputs"; "0.spec"].
  - rewrite Hout; [reflexivity|]. by_compute.
  - intros Hm. apply Hd in Hm; [|by exists ["movies"]].
    destruct Hm as [Hm|(s & Hs & Hm)]; [done|].
    injection Hm as <-. revert Hs. by_compute.
Defined.



(** X11. [write_job_info_to_file] replaces what was written before: in
    a job directory that exists, after two writes
    [load_job_info_from_file] gives the second job information (as far as
    [pickle] gives back what it was given), and the only file made or
    changed is [info.pkl]. *)
Theorem job_info_last_write_wins {JobInfo : Type}
    (pickle_dumps : JobInfo -> string) (pickle_loads : string -> result JobInfo)
    (a b : JobInfo) (job_dir : list string) (w : world) :
  is_dir w job_dir = true ->
  is_dir w (info_path job_dir) = false ->
  pickle_loads (pickle_dumps b) = Ok b ->
  exists w',
    (write_job_info_to_file JobInfo pickle_dumps a job_dir;;
     write_job_info_to_file JobInfo pickle_dumps b job_dir;;
     load_job_info_from_file JobInfo pickle_loads job_dir) w = (Ok b, w') /\
    files w' = <[info_path job_dir := pickle_dumps b]> (files w) /\
    dirs w' = dirs w.
Proof. apply write_write_load. Qed.

Lemma job_info_last_write_wins_witness :
  is_dir stale_world ["job"] = true /\
  is_dir stale_world (info_path ["job"]) = false /\
  toy_loads (toy_dumps "second") = Ok "second" /\
  exists w',
    (write_job_info_to_file string toy_dumps "first" ["job"];;
     write_job_info_to_file string toy_dumps "second" ["job"];;
     load_job_info_from_file string toy_loads ["job"]) stale_world
    = (Ok "second", w').
Proof.
  assert (H1 : is_dir stale_world ["job"] = true) by (vm_compute; reflexivity).
  assert (H2 : is_dir stale_world (info_path ["job"]) = false)
    by (vm_compute; reflexivity).
  assert (H3 : toy_loads (toy_dumps "second") = Ok "second") by reflexivity.
  split; [exact H1|]. split; [exact H2|]. split; [exact H3|].
  destruct (job_info_last_write_wins toy_dumps toy_loads "first" "second"
              ["job"] stale_world H1 H2 H3) as (w' & E & _).
  exists w'. exact E.
Defined.

(** X12. Once the job directory has been cleared and made again, the job
    information can always be written and read back: when no regular file
    sits at the job directory or above it and no subdirectory is called
    [info.pkl], the sequence [rmtree], [create_job_subdirs],
    [write_job_info_to_file], [load_job_info_from_file] ends with the job
    information that was written (as far as [pickle] gives back what it
    was given). *)
Theorem fresh_job_dir_takes_job_info {JobInfo : Type}
    (pickle_dumps : JobInfo -> string) (pickle_loads : string -> result JobInfo)
    (job_info : JobInfo) (job_dir : list string) (subdirs : list string)
    (w : world) :
  job_dir <> [] -> ~ in_the_way w job_dir -> "info.pkl" ∉ subdirs ->
  pickle_loads (pickle_dumps job_info) = Ok job_info ->
  exists w',
    (rmtree job_dir;;
     create_job_subdirs job_dir subdirs;;
     write_job_info_to_file JobInfo pickle_dumps job_info job_dir;;
     load_job_info_from_file JobInfo pickle_loads job_dir) w
    = (Ok job_info, w').
Proof. apply fresh_dir_write_load. Qed.

Lemma fresh_job_dir_takes_job_info_witness :
  ["job"] <> [] /\ (~ in_the_way stale_world ["job"]) /\
  ("info.pkl" ∉ ["inputs"; "outputs"; "logs"]) /\
  toy_loads (toy_dumps "new info") = Ok "new info" /\
  exists w',
    (rmtree ["job"];;
     create_job_subdirs ["job"] ["inputs"; "outputs"; "logs"];;
     write_job_info_to_file string toy_dumps "new info" ["job"];;
     load_job_info_from_file string toy_loads ["job"]) stale_world
    = (Ok "new info", w').
Proof.
  assert (H1 : ["job"] <> ([] : list string)) by done.
  assert (H2 : ~ in_the_way stale_world ["job"]) by by_compute.
  assert (H3 : "info.pkl" ∉ ["inputs"; "outputs"; "logs"]) by by_compute.
  assert (H4 : toy_loads (toy_dumps "new info") = Ok "new info") by reflexivity.
  split; [exact H1|]. split; [exact H2|]. split; [exact H3|].
  split; [exact H4|].
  exact (fresh_job_dir_takes_job_info toy_dumps toy_loads "new info" ["job"]
           ["inputs"; "outputs"; "logs"] stale_world H1 H2 H3 H4).
Defined.

(** X13. [process_job] reads the job information before it looks for a
    saved processor, and outside the [try]: for a job directory without
    [info.pkl] (nothing is there under that name, and no regular file sits
    above it, so that the job directory is a directory or is not there at
    all) it raises [FileNotFoundError] and nothing else happens; no
    processor is loaded, made, run or saved, whatever these would do. *)
Theorem process_job_missing_info {JobInfo Processor : Type}
    (pickle_loads : string -> result JobInfo)
    (load : list string -> M world Processor)
    (job_processor_type : JobInfo -> string -> list string -> M world Processor)
    (process : Processor -> M world Processor)
    (save : Processor -> list string -> M world unit)
    (cwd : list string) (job_name : string) (jobs_dir : option (list string))
    (w : world) :
  let job_dir := default cwd jobs_dir ++ [job_name] in
  ~ in_the_way w (job_dir ++ ["info.pkl"]) ->
  job_dir ++ ["info.pkl"] ∉ dirs w ->
  process_job JobInfo Processor pickle_loads load job_processor_type process
    save cwd job_name jobs_dir w
  = (Raise FileNotFoundError, w).
Proof.
  intros job_dir Hfree Hd. apply process_job_no_info; [|done].
  apply not_in_the_way_no_file; [|done].
  intros H. apply (f_equal length) in H. rewrite length_app in H.
  simpl in H. lia.
Qed.

Lemma process_job_missing_info_witness :
  (~ in_the_way stale_world ((["jobs"] ++ ["new"]) ++ ["info.pkl"])) /\
  ((["jobs"] ++ ["new"]) ++ ["info.pkl"] ∉ dirs stale_world) /\
  process_job string string toy_loads (load_processor string toy_unpickle)
    (fun _ => toy_new) (fun jp => mret jp) (fun _ _ => mret tt)
    ["jobs"] "new" None stale_world
  = (Raise FileNotFoundError, stale_world).
Proof.
  assert (H1 : ~ in_the_way stale_world ((["jobs"] ++ ["new"]) ++ ["info.pkl"]))
    by by_compute.
  assert (H2 : (["jobs"] ++ ["new"]) ++ ["info.pkl"] ∉ dirs stale_world)
    by by_compute.
  split; [exact H1|]. split; [exact H2|].
  exact (process_job_missing_info toy_loads (load_processor string toy_unpickle)
           (fun _ => toy_new) (fun jp => mret jp) (fun _ _ => mret tt)
           ["jobs"] "new" None stale_world H1 H2).
Defined.

End JobProps.
(** * Further properties of [expand_parameters] *)

Module ExpandProps.
Import Py PySpec PyFacts Expand ExpandSpec ExpandFacts OrderSpec OrderFacts
  KeySpec KeyFacts ComboSpec ComboFacts Examples.

Ltac solve_ok :=
  unfold closed, obj_ok, params_ok, no_generator; simpl;
  repeat (constructor; simpl; try lia; try done).

(** X14. The maps come in the order of a counter whose last digit turns
    fastest. For a parameter that is the last of its name and is followed by
    the parameters [l2], the map at index [i] binds the name to the choice
    at place [(i / m) mod n], where [n] is the number of choices of the
    parameter (the length of its sequence if it expands, 1 if it is
    broadcast) and [m] is the product of the numbers of choices of the
    parameters of [l2] (up to the deep copies that later expansions make:
    a value with the same content). *)
Theorem expand_parameters_order (h0 : list obj) (l1 l2 : list Param)
    (par : Param) (dicts : list val) (h' : list obj) (i : nat) (d : val) :
  closed h0 -> params_ok h0 (l1 ++ par :: l2) ->
  name par ∉ name <$> l2 ->
  expand_parameters (l1 ++ par :: l2) h0 = (Ok dicts, h') ->
  dicts !! i = Some d ->
  exists v,
    choices h0 par !! ((i / expansion_size h0 l2) mod factor h0 par) = Some v /\
    binds h0 h' d (name par) v.
Proof.
  intros Hc Hps Hn E Hi.
  exact (expand_parameters_placed h0 _ dicts h' Hc Hps E i d l1 par l2 Hi
           eq_refl Hn).
Qed.

Lemma expand_parameters_order_witness :
  closed twice_heap /\ params_ok twice_heap twice /\
  ("b" ∉ name <$> [{| name := "a"; value := VRef 1; expandable := true |}]) /\
  exists dicts h' d,
    expand_parameters twice twice_heap = (Ok dicts, h') /\
    dicts !! 4 = Some d /\
    binds twice_heap h' d "b" (VInt 8).
Proof.
  assert (Hc : closed twice_heap) by solve_ok.
  assert (Hp : params_ok twice_heap twice) by solve_ok.
  assert (Hn : "b" ∉ name <$>
                 [{| name := "a"; value := VRef 1; expandable := true |}]).
  { simpl. intros H. apply list_elem_of_singleton in H. discriminate H. }
  split; [exact Hc|]. split; [exact Hp|]. split; [exact Hn|].
  eexists _, _, _. split; [vm_compute; reflexivity|]. split; [reflexivity|].
  destruct (expand_parameters_order twice_heap
    [{| name := "a"; value := VInt 1; expandable := false |}]
    [{| name := "a"; value := VRef 1; expandable := true |}]
    {| name := "b"; value := VRef 0; expandable := true |}
    _ _ 4 _ Hc Hp Hn ltac:(vm_compute; reflexivity) eq_refl)
    as (v & Hv & Hb).
  vm_compute in Hv. injection Hv as <-. exact Hb.
Defined.

(** X15. [expand_parameters] leaves what it was given alone: when it
    returns, every object of the caller is where it was and as it was (the
    values of the parameters are read, never written to), and every map it
    returns is a new object. *)
Theorem expand_parameters_keeps_inputs (h0 : list obj) (ps : list Param)
    (dicts : list val) (h' : list obj) :
  closed h0 -> params_ok h0 ps ->
  expand_parameters ps h0 = (Ok dicts, h') ->
  h0 `prefix_of` h' /\
  Forall (fresh_in (length h0) (length h')) dicts.
Proof.
  intros Hc Hps E. pose proof (expand_parameters_inv h0 ps Hc Hps) as H.
  rewrite E in H. destruct H as [D [Hh Hmaps _ _ _]].
  split; [apply Hh|].
  eapply Forall_impl; [exact Hmaps|]. intros d (a & es & -> & Ha & _).
  exists a. split; [done|]. by apply Hh.
Qed.

Lemma expand_parameters_keeps_inputs_witness :
  closed shared_list_heap /\ params_ok shared_list_heap shared_list /\
  exists dicts h',
    expand_parameters shared_list shared_list_heap = (Ok dicts, h') /\
    shared_list_heap `prefix_of` h' /\
    Forall (fresh_in 2 (length h')) dicts.
Proof.
  assert (Hc : closed shared_list_heap) by solve_ok.
  assert (Hp : params_ok shared_list_heap shared_list) by solve_ok.
  split; [exact Hc|]. split; [exact Hp|].
  eexists _, _. split; [vm_compute; reflexivity|].
  exact (expand_parameters_keeps_inputs shared_list_heap shared_list _ _ Hc Hp
           ltac:(vm_compute; reflexivity)).
Defined.

(** X16. Every map that [expand_parameters] returns has the same keys:
    the names of the parameters, each once, in the order in which they
    first appear in the list; there is no other key. *)
Theorem expand_parameters_keys (h0 : list obj) (ps : list Param)
    (dicts : list val) (h' : list obj) :
  closed h0 -> params_ok h0 ps ->
  expand_parameters ps h0 = (Ok dicts, h') ->
  Forall (fun d => keys h' d = Some (names_in_order ps)) dicts /\
  NoDup (names_in_order ps) /\
  forall k, k ∈ names_in_order ps <-> k ∈ name <$> ps.
Proof.
  intros Hc Hps E. split.
  - exact (expand_parameters_keyed h0 ps dicts h' Hc Hps E).
  - apply names_in_order_spec.
Qed.

Lemma expand_parameters_keys_witness :
  closed twice_heap /\ params_ok twice_heap twice /\
  exists dicts h',
    expand_parameters twice twice_heap = (Ok dicts, h') /\
    length dicts = 6 /\
    Forall (fun d => keys h' d = Some ["a"; "b"]) dicts.
Proof.
  assert (Hc : closed twice_heap) by solve_ok.
  assert (Hp : params_ok twice_heap twice) by solve_ok.
  split; [exact Hc|]. split; [exact Hp|].
  eexists _, _. split; [vm_compute; reflexivity|]. split; [reflexivity|].
  exact (proj1 (expand_parameters_keys twice_heap twice _ _ Hc Hp
                  ltac:(vm_compute; reflexivity))).
Defined.

(** X21. [expand_parameters] returns all the combinations, each once:
    for parameters with distinct names and any way of picking one choice
    for each of them, some returned map binds every name to the choice
    picked for it (up to deep copies: a value with the same content); and
    two maps at different indices differ in the place of the choice of at
    least one parameter. *)
Theorem expand_parameters_all_combinations (h0 : list obj) (ps : list Param)
    (dicts : list val) (h' : list obj) :
  closed h0 -> params_ok h0 ps -> NoDup (name <$> ps) ->
  expand_parameters ps h0 = (Ok dicts, h') ->
  (forall picks, Forall2 (fun v par => v ∈ choices h0 par) picks ps ->
     exists i d, dicts !! i = Some d /\
       forall j par v, ps !! j = Some par -> picks !! j = Some v ->
         binds h0 h' d (name par) v) /\
  (forall i i', i < length dicts -> i' < length dicts ->
     (forall l1 par l2, ps = l1 ++ par :: l2 ->
        (i / expansion_size h0 l2) mod factor h0 par
        = (i' / expansion_size h0 l2) mod factor h0 par) ->
     i = i').
Proof.
  intros Hc Hps Hnd E. split.
  - intros picks Hpicks. by eapply all_combinations.
  - pose proof (expand_parameters_inv h0 ps Hc Hps) as Hinv.
    rewrite E in Hinv. destruct Hinv as [D [_ _ Hlen _ _]].
    rewrite Hlen. apply digits_inj.
Qed.

Lemma expand_parameters_all_combinations_witness :
  closed two_lists_heap /\ params_ok two_lists_heap two_lists /\
  NoDup (name <$> two_lists) /\
  Forall2 (fun v par => v ∈ choices two_lists_heap par) [VInt 2; VInt 20]
    two_lists /\
  exists dicts h' i d,
    expand_parameters two_lists two_lists_heap = (Ok dicts, h') /\
    dicts !! i = Some d /\
    binds two_lists_heap h' d "a" (VInt 2) /\
    binds two_lists_heap h' d "c" (VInt 20).
Proof.
  assert (Hc : closed two_lists_heap) by solve_ok.
  assert (Hp : params_ok two_lists_heap two_lists) by solve_ok.
  assert (Hn : NoDup (name <$> two_lists)).
  { apply (bool_decide_eq_true_1 (NoDup (name <$> two_lists))).
    vm_compute. reflexivity. }
  assert (Hf : Forall2 (fun v par => v ∈ choices two_lists_heap par)
                 [VInt 2; VInt 20] two_lists).
  { repeat constructor;
      match goal with
      | |- ?P => apply (bool_decide_eq_true_1 P); vm_compute; reflexivity
      end. }
  split; [exact Hc|]. split; [exact Hp|]. split; [exact Hn|]. split; [exact Hf|].
  destruct (proj1 (expand_parameters_all_combinations two_lists_heap two_lists
                     _ _ Hc Hp Hn ltac:(vm_compute; reflexivity))
              [VInt 2; VInt 20] Hf) as (i & d & Hd & Hb).
  eexists _, _, i, d. split; [vm_compute; reflexivity|]. split; [exact Hd|].
  split.
  - exact (Hb 0 _ _ eq_refl eq_refl).
  - exact (Hb 1 _ _ eq_refl eq_refl).
Defined.

End ExpandProps.

(** * Properties of the written form of the parameters *)

Module ReprProps.
Import MonadFacts Py PySpec Expand ExpandSpec Console Job Repr ReprFacts.

(** X17. A parameter flagged expandable whose value cannot be iterated
    over (None, a boolean, a number, a plain instance) is accepted by
    [expand_parameters], which broadcasts it, but not by
    [Parameter.__repr__], which goes through the value: with such a
    parameter in the list, [write_parameters_info_to_file] raises
    [TypeError] while it builds the text, before the file is opened;
    nothing is written. *)
Theorem write_parameters_info_to_file_not_iterable
    (str_val repr_val : list obj -> val -> string) (wrap : string -> list string)
    (h : list obj) (ps : list Param) (par : Param) (job_dir : list string)
    (w : world) :
  no_generator h -> params_ok h ps -> par ∈ ps ->
  expandable par = true -> hasattr_iter h (value par) = false ->
  expands h par = false /\
  Parameter_repr str_val repr_val wrap h par = Raise TypeError /\
  write_parameters_info_to_file_with_repr str_val repr_val wrap h ps job_dir w
  = (Raise TypeError,
     with_stdout (stdout w ++ ["Writing parameters to file..."]) w).
Proof.
  intros Hg Hps Hin Hex Hit.
  assert (Hv : val_ok (length h) (value par)).
  { unfold params_ok in Hps. rewrite Forall_forall in Hps. by apply Hps. }
  assert (Hr : Parameter_repr str_val repr_val wrap h par = Raise TypeError).
  { unfold Parameter_repr. rewrite Hex. simpl.
    by rewrite (iterate_not_iterable h (value par) Hv Hit). }
  split; [|split; [exact Hr|]].
  - unfold expands. by rewrite Hex, Hit.
  - unfold write_parameters_info_to_file_with_repr. rewrite bind_run.
    unfold print at 1. apply bind_raise.
    by apply (reprs_fail str_val repr_val wrap h par).
Qed.

Lemma write_parameters_info_to_file_not_iterable_witness :
  let fluence := {| name := "fluence"; value := VInt 1; expandable := true |} in
  let phase := {| name := "phase"; value := VStr "cos"; expandable := true |} in
  let w := JobExamples.job_world [] in
  no_generator [] /\ params_ok [] [phase; fluence] /\
  fluence ∈ [phase; fluence] /\
  expandable fluence = true /\ hasattr_iter [] (value fluence) = false /\
  write_parameters_info_to_file_with_repr (fun _ _ => "?") (fun _ _ => "?")
    (fun s => [s]) [] [phase; fluence] ["job"] w
  = (Raise TypeError,
     with_stdout (stdout w ++ ["Writing parameters to file..."]) w).
Proof.
  intros fluence phase w.
  assert (H1 : no_generator []) by constructor.
  assert (H2 : params_ok [] [phase; fluence]) by (repeat constructor).
  assert (H3 : fluence ∈ [phase; fluence]).
  { apply list_elem_of_further, list_elem_of_here. }
  assert (H4 : expandable fluence = true) by reflexivity.
  assert (H5 : hasattr_iter [] (value fluence) = false) by reflexivity.
  split; [exact H1|]. split; [exact H2|]. split; [exact H3|].
  split; [exact H4|]. split; [exact H5|].
  exact (proj2 (proj2 (write_parameters_info_to_file_not_iterable
           (fun _ _ => "?") (fun _ _ => "?") (fun s => [s])
           [] [phase; fluence] fluence ["job"] w H1 H2 H3 H4 H5))).
Defined.

End ReprProps.
(** * Properties of the spherical harmonics *)

Module MathProps.
Import Math.

Local Open Scope Z_scope.

Ltac compare_cases :=
  unfold __lt__, __gt__, __le__, __ge__, __eq__, tuple_compare, _lm, l, m;
  simpl;
  repeat match goal with
  | |- context [(?a =? ?b)] => destruct (Z.eqb_spec a b); simpl
  | H : context [(?a =? ?b)] |- _ => destruct (Z.eqb_spec a b); simpl in H
  end;
  rewrite ?Z.ltb_lt, ?Z.leb_le, ?Z.gtb_gt, ?Z.geb_ge in *.

(** X19. [SphericalHarmonic(l, m)] is made exactly when [0 <= l] and
    [-l <= m <= l], and then holds the two numbers it was given; otherwise
    [IllegalSphericalHarmonic] is raised. A negative [l] is refused by the
    test on [abs(m)], though it is never tested itself. *)
Theorem SphericalHarmonic_legal (l0 m0 : Z) :
  (0 <= l0 /\ - l0 <= m0 <= l0 ->
     __init__ l0 m0 = inl {| _l := l0; _m := m0 |}) /\
  (~ (0 <= l0 /\ - l0 <= m0 <= l0) ->
     exists msg, __init__ l0 m0 = inr (IllegalSphericalHarmonic msg)) /\
  (forall y, __init__ l0 m0 = inl y ->
     l y = l0 /\ m y = m0 /\ 0 <= l y /\ - l y <= m y <= l y).
Proof.
  unfold __init__. destruct (Z.leb_spec (Z.abs m0) l0) as [H|H]; simpl.
  - split; [done|]. split; [lia|]. intros y [= <-]. unfold l, m. simpl. lia.
  - split; [lia|]. split; [eauto|]. done.
Qed.

(** X20. The four comparisons order the harmonics by [l] first and by
    [m] among equal [l]: [<] is transitive, of two harmonics exactly one
    is smaller unless they are equal in the sense of [==], and [>], [<=],
    [>=] are the converse and the complements of [<]. *)
Theorem SphericalHarmonic_order (a b c : SphericalHarmonic) :
  (__lt__ a b = true <-> l a < l b \/ (l a = l b /\ m a < m b)) /\
  (__eq__ a b = true <-> a = b) /\
  (__lt__ a b = true -> __lt__ b c = true -> __lt__ a c = true) /\
  (__lt__ a b = true /\ __eq__ a b = false /\ __lt__ b a = false \/
   __lt__ a b = false /\ __eq__ a b = true /\ __lt__ b a = false \/
   __lt__ a b = false /\ __eq__ a b = false /\ __lt__ b a = true) /\
  __gt__ a b = __lt__ b a /\
  __le__ a b = negb (__lt__ b a) /\
  __ge__ a b = negb (__lt__ a b).
Proof.
  destruct a as [la ma], b as [lb mb], c as [lc mc].
  split; [|split; [|split; [|split; [|split; [|split]]]]].
  - compare_cases; lia.
  - compare_cases; split; intros H; try done; try congruence.
  - compare_cases; try lia; try done.
  - compare_cases;
      repeat match goal with
      | |- context [(?x <? ?y)] => destruct (Z.ltb_spec x y)
      end; try lia; tauto.
  - compare_cases;
      repeat match goal with
      | |- context [(?x <? ?y)] => destruct (Z.ltb_spec x y)
      | |- context [(?x >? ?y)] => destruct (Z.gtb_spec x y)
      end; try lia; done.
  - compare_cases;
      repeat match goal with
      | |- context [(?x <? ?y)] => destruct (Z.ltb_spec x y)
      | |- context [(?x <=? ?y)] => destruct (Z.leb_spec x y)
      end; simpl; try lia; done.
  - compare_cases;
      repeat match goal with
      | |- context [(?x <? ?y)] => destruct (Z.ltb_spec x y)
      | |- context [(?x >=? ?y)] => destruct (Z.geb_spec x y)
      end; simpl; try lia; done.
Qed.

End MathProps.
